(** * code-in-backend: the job-event relay and the job submission route

    A shallow embedding of
    - [src/lib/websocket.ts]: the per-job subscription registry
      ([jobSubscriptions], [allConnections]), the best-effort outbound send,
      the fan-out of bus events and the connection handlers;
    - [src/routes/repos.ts] with the helpers of [src/lib/redis.ts],
      [src/lib/supabase.ts] and [src/lib/models.ts] it calls: the submission
      of a job and its behaviour when the enqueue fails.

    JavaScript's [Map] and [Set] iterate in insertion order, and the order in
    which frames reach the sockets follows it, so both are kept as lists in
    insertion order. *)

From Stdlib Require Import List String Ascii Bool Arith ZArith Lia.
Import ListNotations.

Local Open Scope string_scope.
Local Open Scope list_scope.

(** ** JavaScript containers, as the relay uses them *)

(** A socket is only ever compared by identity. *)
Definition WS := nat.

Module JSSet.

(** [Set<WS>]: the members, oldest insertion first. *)
Definition t := list WS.

Definition empty : t := [].

Definition has (ws : WS) (s : t) : bool := existsb (Nat.eqb ws) s.

(** [s.add(ws)]: a member keeps its place, a new one goes last. *)
Definition add (ws : WS) (s : t) : t :=
  if has ws s then s else s ++ [ws].

(** [s.delete(ws)] *)
Definition delete (ws : WS) (s : t) : t :=
  filter (fun x => negb (Nat.eqb x ws)) s.

Definition size (s : t) : nat := List.length s.

End JSSet.

Module JSMap.

Section WithValue.

Context {V : Type}.

(** [Map<string, V>]: the entries, oldest insertion first. *)
Definition t := list (string * V).

Definition empty : t := [].

Fixpoint get (k : string) (m : t) : option V :=
  match m with
  | [] => None
  | (k', v) :: m' => if String.eqb k k' then Some v else get k m'
  end.

Definition has (k : string) (m : t) : bool :=
  match get k m with Some _ => true | None => false end.

(** [m.set(k, v)]: an existing key keeps its place, a new one goes last. *)
Fixpoint set (k : string) (v : V) (m : t) : t :=
  match m with
  | [] => [(k, v)]
  | (k', v') :: m' =>
      if String.eqb k k' then (k', v) :: m' else (k', v') :: set k v m'
  end.

(** [m.delete(k)] *)
Definition delete (k : string) (m : t) : t :=
  filter (fun e => negb (String.eqb (fst e) k)) m.

Definition size (m : t) : nat := List.length m.

Definition keys (m : t) : list string := map fst m.

End WithValue.

Arguments t V : clear implicits.

End JSMap.

(** ** Messages *)

(** [StatusMessage] of [redis.ts]. *)
Inductive JobStatus := pending | processing | completed | failed.

Module StatusMessage.
Record t := mk {
  job_id : string;
  status : JobStatus;
  message : option string;
  progress : option Z;
  timestamp : string
}.
End StatusMessage.

(** [CompleteMessage] of [redis.ts]; [result] is an opaque JSON document. *)
Module CompleteMessage.
Record t := mk {
  job_id : string;
  success : bool;
  result : option string;
  error : option string;
  timestamp : string
}.
End CompleteMessage.

(** [WSMessage]: what a client may send. *)
Inductive WSMessageType := Msubscribe | Munsubscribe | Mping.

Module WSMessage.
Record t := mk {
  type : WSMessageType;
  job_id : option string
}.
End WSMessage.

(** [WSOutgoingMessage]: what the relay sends. *)
Inductive WSOutgoingType := Tstatus | Tcomplete | Terror | Tsubscribed | Tpong.

Inductive Payload :=
| StatusData (s : StatusMessage.t)
| CompleteData (c : CompleteMessage.t).

Module WSOutgoingMessage.
Record t := mk {
  type : WSOutgoingType;
  job_id : option string;
  data : option Payload;
  message : option string
}.
End WSOutgoingMessage.

(** ** Effects: state and exceptions *)

Module Eff.

(** A raised JavaScript exception. *)
Definition JSError := string.

Inductive Completion (A : Type) :=
| Normal (a : A)
| Throw (e : JSError).
Arguments Normal {A} a.
Arguments Throw {A} e.

Section Monad.

Variable S : Type.

(** A computation over the state [S] that returns or raises. *)
Definition M (A : Type) := S -> Completion A * S.

Definition ret {A} (a : A) : M A := fun st => (Normal a, st).

Definition bind {A B} (c : M A) (k : A -> M B) : M B :=
  fun st =>
    match c st with
    | (Normal a, st') => k a st'
    | (Throw e, st') => (Throw e, st')
    end.

Definition throw {A} (e : JSError) : M A := fun st => (Throw e, st).

(** [try { body } catch (error) { handler }] *)
Definition try_catch {A} (body : M A) (handler : JSError -> M A) : M A :=
  fun st =>
    match body st with
    | (Normal a, st') => (Normal a, st')
    | (Throw e, st') => handler e st'
    end.

Definition gets {A} (f : S -> A) : M A := fun st => (Normal (f st), st).

Definition modify (f : S -> S) : M unit := fun st => (Normal tt, f st).

Definition exec {A} (c : M A) (st : S) : S := snd (c st).

Definition outcome {A} (c : M A) (st : S) : Completion A := fst (c st).

End Monad.

Arguments ret {S A} a.
Arguments bind {S A B} c k.
Arguments throw {S A} e.
Arguments try_catch {S A} body handler.
Arguments gets {S A} f.
Arguments modify {S} f.
Arguments exec {S A} c st.
Arguments outcome {S A} c st.

Notation "x <- c ;; k" := (bind c (fun x => k))
  (at level 61, c at next level, right associativity).
Notation "c ;; k" := (bind c (fun _ => k))
  (at level 61, right associativity).

(** A string in a condition: only the empty one is falsy. *)
Definition truthy (s : string) : bool :=
  match s with
  | EmptyString => false
  | String _ _ => true
  end.

End Eff.

(** ** The relay of [websocket.ts]

    Here [ws.send] only sends: it puts the frame on the wire or raises. The
    module [Live] further down has the sends that also run handlers of the
    plugin before they return. *)

Module Relay.

Import Eff.

(** What the sockets are like while one handler runs: [readyState] of each,
    and whether [ws.send(JSON.stringify(message))] raises. *)
Record Net := mkNet {
  readyState : WS -> Z;
  send_raises : WS -> WSOutgoingMessage.t -> option JSError
}.

Inductive ConsoleEntry :=
| ErrorSending (e : JSError)
| LogConnected (total : nat)
| LogDisconnected (total : nat)
| ErrorWebSocket (e : JSError).

(** The two module-level containers, and what the module has pushed to the
    outside: the frames accepted by [ws.send], oldest first, and the
    console. *)
Record State := mkState {
  jobSubscriptions : JSMap.t JSSet.t;
  allConnections : JSSet.t;
  wire : list (WS * WSOutgoingMessage.t);
  console : list ConsoleEntry
}.

Definition initial : State := mkState JSMap.empty JSSet.empty [] [].

Definition with_jobSubscriptions (m : JSMap.t JSSet.t) (st : State) : State :=
  mkState m (allConnections st) (wire st) (console st).

Definition with_allConnections (s : JSSet.t) (st : State) : State :=
  mkState (jobSubscriptions st) s (wire st) (console st).

Definition M := Eff.M State.

Definition console_push (e : ConsoleEntry) : M unit :=
  modify (fun st => mkState (jobSubscriptions st) (allConnections st)
                            (wire st) (console st ++ [e])).

(** [s.forEach(f)] for a callback that leaves [s] alone. *)
Fixpoint Set_forEach (s : JSSet.t) (f : WS -> M unit) : M unit :=
  match s with
  | [] => ret tt
  | ws :: s' => f ws ;; Set_forEach s' f
  end.

(** [jobSubscriptions.forEach(f)]. The keys are visited in insertion order;
    a key deleted before its turn is skipped, and the callback is given the
    Set that is under the key at that moment. No callback here adds a
    key. *)
Fixpoint Map_forEach_from (ks : list string)
         (f : JSSet.t -> string -> M unit) : M unit :=
  match ks with
  | [] => ret tt
  | k :: ks' =>
      m <- gets jobSubscriptions ;;
      match JSMap.get k m with
      | Some v => f v k
      | None => ret tt
      end ;;
      Map_forEach_from ks' f
  end.

Definition Map_forEach (f : JSSet.t -> string -> M unit) : M unit :=
  m <- gets jobSubscriptions ;;
  Map_forEach_from (JSMap.keys m) f.

Section WithNet.

Variable net : Net.

(** [ws.send(JSON.stringify(message))] *)
Definition ws_send (ws : WS) (message : WSOutgoingMessage.t) : M unit :=
  fun st =>
    match send_raises net ws message with
    | Some e => (Throw e, st)
    | None =>
        (Normal tt,
         mkState (jobSubscriptions st) (allConnections st)
                 (wire st ++ [(ws, message)]) (console st))
    end.

(** [sendMessage] *)
Definition sendMessage (ws : WS) (message : WSOutgoingMessage.t) : M unit :=
  try_catch
    (if Z.eqb (readyState net ws) 1
     then ws_send ws message
     else ret tt)
    (fun error => console_push (ErrorSending error)).

(** [broadcastToJob] *)
Definition broadcastToJob (jobId : string)
           (message : WSOutgoingMessage.t) : M unit :=
  m <- gets jobSubscriptions ;;
  match JSMap.get jobId m with
  | Some subscribers =>
      Set_forEach subscribers (fun ws => sendMessage ws message)
  | None => ret tt
  end.

(** [handleStatusUpdate] *)
Definition handleStatusUpdate (status : StatusMessage.t) : M unit :=
  broadcastToJob (StatusMessage.job_id status)
    (WSOutgoingMessage.mk Tstatus
       (Some (StatusMessage.job_id status))
       (Some (StatusData status))
       None).

(** [handleCompleteUpdate] *)
Definition handleCompleteUpdate (complete : CompleteMessage.t) : M unit :=
  broadcastToJob (CompleteMessage.job_id complete)
    (WSOutgoingMessage.mk Tcomplete
       (Some (CompleteMessage.job_id complete))
       (Some (CompleteData complete))
       None).

(** [subscribeToJob]. The [!] of [jobSubscriptions.get(jobId)!] is erased
    by the compiler: on [undefined] the call of [add] raises. *)
Definition subscribeToJob (ws : WS) (jobId : string) : M unit :=
  m <- gets jobSubscriptions ;;
  (if negb (JSMap.has jobId m)
   then modify (with_jobSubscriptions (JSMap.set jobId JSSet.empty m))
   else ret tt) ;;
  m <- gets jobSubscriptions ;;
  match JSMap.get jobId m with
  | Some subscribers =>
      modify (with_jobSubscriptions
                (JSMap.set jobId (JSSet.add ws subscribers) m))
  | None => throw "TypeError: undefined is not an object"
  end ;;
  sendMessage ws
    (WSOutgoingMessage.mk Tsubscribed (Some jobId) None
       (Some (String.append "Subscribed to job " jobId))).

(** The body shared by [unsubscribeFromJob] and the callback of
    [cleanupConnection]: [subscribers.delete(ws)] on the Set stored under
    [jobId], then [jobSubscriptions.delete(jobId)] when it is empty. *)
Definition delete_from (ws : WS) (subscribers : JSSet.t)
           (jobId : string) : M unit :=
  let subscribers := JSSet.delete ws subscribers in
  m <- gets jobSubscriptions ;;
  modify (with_jobSubscriptions (JSMap.set jobId subscribers m)) ;;
  if Nat.eqb (JSSet.size subscribers) 0
  then
    m <- gets jobSubscriptions ;;
    modify (with_jobSubscriptions (JSMap.delete jobId m))
  else ret tt.

(** [unsubscribeFromJob] *)
Definition unsubscribeFromJob (ws : WS) (jobId : string) : M unit :=
  m <- gets jobSubscriptions ;;
  match JSMap.get jobId m with
  | Some subscribers => delete_from ws subscribers jobId
  | None => ret tt
  end.

(** [cleanupConnection] *)
Definition cleanupConnection (ws : WS) : M unit :=
  s <- gets allConnections ;;
  modify (with_allConnections (JSSet.delete ws s)) ;;
  Map_forEach (fun subscribers jobId => delete_from ws subscribers jobId).

(** The handlers of [websocketPlugin]; [ws] stands for [ws.raw]. *)

(** [open(ws)] *)
Definition ws_open (ws : WS) : M unit :=
  s <- gets allConnections ;;
  modify (with_allConnections (JSSet.add ws s)) ;;
  s <- gets allConnections ;;
  console_push (LogConnected (JSSet.size s)).

(** [message(ws, message)] *)
Definition ws_message (ws : WS) (message : WSMessage.t) : M unit :=
  match WSMessage.type message with
  | Msubscribe =>
      match WSMessage.job_id message with
      | Some job_id =>
          if truthy job_id then subscribeToJob ws job_id else ret tt
      | None => ret tt
      end
  | Munsubscribe =>
      match WSMessage.job_id message with
      | Some job_id =>
          if truthy job_id then unsubscribeFromJob ws job_id else ret tt
      | None => ret tt
      end
  | Mping =>
      sendMessage ws (WSOutgoingMessage.mk Tpong None None None)
  end.

(** [close(ws)] *)
Definition ws_close (ws : WS) : M unit :=
  cleanupConnection ws ;;
  s <- gets allConnections ;;
  console_push (LogDisconnected (JSSet.size s)).

(** [error(ws, error)], which the older revision of the file registers next
    to [close]. *)
Definition ws_error (ws : WS) (error : JSError) : M unit :=
  console_push (ErrorWebSocket error) ;;
  cleanupConnection ws.

End WithNet.

(** [getConnectionStats]: [total] and [jobSubscriptions]. *)
Definition getConnectionStats (st : State) : nat * nat :=
  (JSSet.size (allConnections st), JSMap.size (jobSubscriptions st)).

(** *** Vocabulary of the statements *)

(** The observers registered for a job: its Set, or none when the job has
    no entry. *)
Definition observers (jobId : string) (st : State) : JSSet.t :=
  match JSMap.get jobId (jobSubscriptions st) with
  | Some s => s
  | None => []
  end.

(** The frames a computation has put on the wire. *)
Definition sent_by {A} (c : M A) (st : State)
  : list (WS * WSOutgoingMessage.t) :=
  skipn (List.length (wire st)) (wire (exec c st)).

Definition WSOutgoingType_eqb (a b : WSOutgoingType) : bool :=
  match a, b with
  | Tstatus, Tstatus | Tcomplete, Tcomplete | Terror, Terror
  | Tsubscribed, Tsubscribed | Tpong, Tpong => true
  | _, _ => false
  end.

Definition job_id_is (jobId : string) (message : WSOutgoingMessage.t) : bool :=
  match WSOutgoingMessage.job_id message with
  | Some j => String.eqb j jobId
  | None => false
  end.

(** How many of the frames went to [ws], carry the tag [ty] and name the job
    [jobId]. *)
Definition count_frames (ws : WS) (ty : WSOutgoingType) (jobId : string)
           (frames : list (WS * WSOutgoingMessage.t)) : nat :=
  List.length
    (filter (fun f => Nat.eqb (fst f) ws
                      && WSOutgoingType_eqb (WSOutgoingMessage.type (snd f)) ty
                      && job_id_is jobId (snd f))
            frames).

(** The socket is open and the underlying send goes through. *)
Definition accepts (net : Net) (ws : WS) (message : WSOutgoingMessage.t)
  : bool :=
  Z.eqb (readyState net ws) 1
  && match send_raises net ws message with Some _ => false | None => true end.

(** What can happen to the module: a handler of the plugin runs, the bus
    delivers an event, or one of the registry operations is called by
    itself. *)
Inductive Call :=
| CallOpen (ws : WS)
| CallMessage (ws : WS) (message : WSMessage.t)
| CallClose (ws : WS)
| CallError (ws : WS) (error : JSError)
| CallStatus (status : StatusMessage.t)
| CallComplete (complete : CompleteMessage.t)
| CallSubscribe (ws : WS) (jobId : string)
| CallUnsubscribe (ws : WS) (jobId : string)
| CallCleanup (ws : WS).

Definition run_call (net : Net) (c : Call) : M unit :=
  match c with
  | CallOpen ws => ws_open ws
  | CallMessage ws message => ws_message net ws message
  | CallClose ws => ws_close ws
  | CallError ws error => ws_error ws error
  | CallStatus status => handleStatusUpdate net status
  | CallComplete complete => handleCompleteUpdate net complete
  | CallSubscribe ws jobId => subscribeToJob net ws jobId
  | CallUnsubscribe ws jobId => unsubscribeFromJob ws jobId
  | CallCleanup ws => cleanupConnection ws
  end.

(** The states the module can be in: any calls, in any order, whatever the
    sockets are like at each of them. *)
Inductive reachable : State -> Prop :=
| reachable_initial : reachable initial
| reachable_call net c st :
    reachable st -> reachable (exec (run_call net c) st).

(** The Map and its Sets hold no key and no member twice. *)
Definition well_formed (m : JSMap.t JSSet.t) : Prop :=
  NoDup (JSMap.keys m) /\ Forall (fun e => NoDup (snd e)) m.

(** No key is left with an empty Set. *)
Definition no_empty_set (m : JSMap.t JSSet.t) : Prop :=
  Forall (fun e => snd e <> []) m.

(** The frames built by the two bus handlers, by [subscribeToJob] and by the
    [ping] case. *)
Definition status_frame (status : StatusMessage.t) : WSOutgoingMessage.t :=
  WSOutgoingMessage.mk Tstatus (Some (StatusMessage.job_id status))
    (Some (StatusData status)) None.

Definition complete_frame (complete : CompleteMessage.t)
  : WSOutgoingMessage.t :=
  WSOutgoingMessage.mk Tcomplete (Some (CompleteMessage.job_id complete))
    (Some (CompleteData complete)) None.

Definition subscribed_frame (jobId : string) : WSOutgoingMessage.t :=
  WSOutgoingMessage.mk Tsubscribed (Some jobId) None
    (Some (String.append "Subscribed to job " jobId)).

Definition pong_frame : WSOutgoingMessage.t :=
  WSOutgoingMessage.mk Tpong None None None.

(** Sockets for the examples: all open, all closing, all open with a send
    that raises. *)
Definition net_open : Net := mkNet (fun _ => 1%Z) (fun _ _ => None).

Definition net_closing : Net := mkNet (fun _ => 2%Z) (fun _ _ => None).

Definition net_broken : Net :=
  mkNet (fun _ => 1%Z) (fun _ _ => Some "Error: socket write failed").

(** Socket 7 is closed and waits for its [close] handler; the others are
    open. *)
Definition net_7_closed : Net :=
  mkNet (fun ws => if Nat.eqb ws 7 then 3%Z else 1%Z) (fun _ _ => None).

(** The status event of the end-to-end scenario. *)
Definition progress_event : StatusMessage.t :=
  StatusMessage.mk "J1" processing None (Some 50%Z) "2025-01-01T00:00:00.000Z".

(** Sockets 5 and 7 watch J1, and socket 7 watches J2 as well. *)
Definition two_jobs : State :=
  exec (run_call net_open (CallSubscribe 7 "J2"))
    (exec (run_call net_open (CallSubscribe 7 "J1"))
       (exec (run_call net_open (CallSubscribe 5 "J1")) initial)).

(** Closed forms of what the calls do, used to reason about them. *)

(** After [sendMessage]: nothing for a socket that is not open, a console
    line when the send raised, one more frame on the wire otherwise. *)
Definition after_send (net : Net) (ws : WS) (message : WSOutgoingMessage.t)
           (st : State) : State :=
  if Z.eqb (readyState net ws) 1 then
    match send_raises net ws message with
    | Some e =>
        mkState (jobSubscriptions st) (allConnections st) (wire st)
                (console st ++ [ErrorSending e])
    | None =>
        mkState (jobSubscriptions st) (allConnections st)
                (wire st ++ [(ws, message)]) (console st)
    end
  else st.

(** The Map after [unsubscribeFromJob]. *)
Definition unsubscribed (ws : WS) (jobId : string) (m : JSMap.t JSSet.t)
  : JSMap.t JSSet.t :=
  match JSMap.get jobId m with
  | Some s =>
      if Nat.eqb (JSSet.size (JSSet.delete ws s)) 0
      then JSMap.delete jobId (JSMap.set jobId (JSSet.delete ws s) m)
      else JSMap.set jobId (JSSet.delete ws s) m
  | None => m
  end.

(** The Map after [cleanupConnection]: [ws] is taken out of every Set, and
    the entries left empty are gone. *)
Definition purged (ws : WS) (m : JSMap.t JSSet.t) : JSMap.t JSSet.t :=
  filter (fun e => negb (Nat.eqb (JSSet.size (snd e)) 0))
         (map (fun e => (fst e, JSSet.delete ws (snd e))) m).

End Relay.

(** ** The relay over Set objects that are shared

    [broadcastToJob] does not copy the Set of a job: [subscribers] is the
    very object that [jobSubscriptions] holds, and [forEach] walks it while
    [ws.send] runs. A send that closes the socket runs the handlers of the
    plugin before it returns, and they delete from that object. To speak
    about this, the Sets are objects with an address here, the Map holds
    addresses, and a Set is what the language defines it to be: the list
    [[SetData]] of its entries in insertion order, in which [delete] leaves
    the slot of the entry empty and [forEach] walks the slots by index,
    reading the list again after every callback. *)

Module Live.

Import Eff.

(** Addresses of Set objects. *)
Abbreviation addr := nat.

(** [[SetData]]: [None] is an emptied slot. *)
Definition SetData := list (option WS).

Definition is_entry (ws : WS) (e : option WS) : bool :=
  match e with
  | Some x => Nat.eqb x ws
  | None => false
  end.

(** The members, oldest insertion first. *)
Fixpoint members (d : SetData) : JSSet.t :=
  match d with
  | [] => []
  | Some ws :: d' => ws :: members d'
  | None :: d' => members d'
  end.

(** [s.has(ws)], [s.add(ws)], [s.delete(ws)] and [s.size]. *)
Definition SetData_has (ws : WS) (d : SetData) : bool :=
  existsb (is_entry ws) d.

Definition SetData_add (ws : WS) (d : SetData) : SetData :=
  if SetData_has ws d then d else d ++ [Some ws].

Definition SetData_delete (ws : WS) (d : SetData) : SetData :=
  map (fun e => if is_entry ws e then None else e) d.

Definition SetData_size (d : SetData) : nat := List.length (members d).

(** What a send can run before it returns: the registry operations of the
    [unsubscribe] message and of the [close] and [error] handlers. *)
Inductive Removal :=
| Unsubscribe (ws : WS) (jobId : string)
| Cleanup (ws : WS).

Record Store := mkStore {
  (** the Set objects, by address, and the next address to give out *)
  heap : addr -> SetData;
  next : addr;
  (** [jobSubscriptions]: the keys with the address of their Set *)
  jobSubscriptions : JSMap.t addr;
  allConnections : JSSet.t;
  wire : list (WS * WSOutgoingMessage.t);
  console : list Relay.ConsoleEntry;
  (** what each of the calls of [ws.send] to come runs before it returns *)
  reentries : list (list Removal)
}.

Definition initial : Store :=
  mkStore (fun _ => []) 0 JSMap.empty JSSet.empty [] [] [].

Definition M := Eff.M Store.

Definition deref (a : addr) : M SetData := gets (fun s => heap s a).

Definition assign (a : addr) (d : SetData) : M unit :=
  modify (fun s => mkStore (fun a' => if Nat.eqb a' a then d else heap s a')
                           (next s) (jobSubscriptions s) (allConnections s)
                           (wire s) (console s) (reentries s)).

(** [new Set()] *)
Definition new_Set : M addr :=
  fun s =>
    (Normal (next s),
     mkStore (fun a' => if Nat.eqb a' (next s) then [] else heap s a')
             (S (next s)) (jobSubscriptions s) (allConnections s)
             (wire s) (console s) (reentries s)).

Definition set_jobSubscriptions (m : JSMap.t addr) : M unit :=
  modify (fun s => mkStore (heap s) (next s) m (allConnections s)
                           (wire s) (console s) (reentries s)).

Definition set_allConnections (c : JSSet.t) : M unit :=
  modify (fun s => mkStore (heap s) (next s) (jobSubscriptions s) c
                           (wire s) (console s) (reentries s)).

Definition console_push (e : Relay.ConsoleEntry) : M unit :=
  modify (fun s => mkStore (heap s) (next s) (jobSubscriptions s)
                           (allConnections s) (wire s) (console s ++ [e])
                           (reentries s)).

(** The body shared by [unsubscribeFromJob] and the callback of
    [cleanupConnection], on the Set object [subscribers]. *)
Definition delete_from (ws : WS) (subscribers : addr) (jobId : string)
  : M unit :=
  d <- deref subscribers ;;
  assign subscribers (SetData_delete ws d) ;;
  d <- deref subscribers ;;
  if Nat.eqb (SetData_size d) 0
  then
    m <- gets jobSubscriptions ;;
    set_jobSubscriptions (JSMap.delete jobId m)
  else ret tt.

(** [unsubscribeFromJob] *)
Definition unsubscribeFromJob (ws : WS) (jobId : string) : M unit :=
  m <- gets jobSubscriptions ;;
  match JSMap.get jobId m with
  | Some subscribers => delete_from ws subscribers jobId
  | None => ret tt
  end.

(** [jobSubscriptions.forEach(f)], as in the relay above. *)
Fixpoint Map_forEach_from (ks : list string)
         (f : addr -> string -> M unit) : M unit :=
  match ks with
  | [] => ret tt
  | k :: ks' =>
      m <- gets jobSubscriptions ;;
      match JSMap.get k m with
      | Some v => f v k
      | None => ret tt
      end ;;
      Map_forEach_from ks' f
  end.

Definition Map_forEach (f : addr -> string -> M unit) : M unit :=
  m <- gets jobSubscriptions ;;
  Map_forEach_from (JSMap.keys m) f.

(** [cleanupConnection] *)
Definition cleanupConnection (ws : WS) : M unit :=
  c <- gets allConnections ;;
  set_allConnections (JSSet.delete ws c) ;;
  Map_forEach (fun subscribers jobId => delete_from ws subscribers jobId).

Definition run_removal (r : Removal) : M unit :=
  match r with
  | Unsubscribe ws jobId => unsubscribeFromJob ws jobId
  | Cleanup ws => cleanupConnection ws
  end.

Fixpoint run_removals (rs : list Removal) : M unit :=
  match rs with
  | [] => ret tt
  | r :: rs' => run_removal r ;; run_removals rs'
  end.

(** The handlers that the next call of [ws.send] runs. *)
Definition next_reentry : M (list Removal) :=
  fun s =>
    (Normal (hd [] (reentries s)),
     mkStore (heap s) (next s) (jobSubscriptions s) (allConnections s)
             (wire s) (console s) (tl (reentries s))).

Section WithNet.

Variable net : Relay.Net.

(** [ws.send(JSON.stringify(message))] *)
Definition ws_send (ws : WS) (message : WSOutgoingMessage.t) : M unit :=
  rs <- next_reentry ;;
  run_removals rs ;;
  match Relay.send_raises net ws message with
  | Some e => throw e
  | None =>
      modify (fun s => mkStore (heap s) (next s) (jobSubscriptions s)
                               (allConnections s)
                               (wire s ++ [(ws, message)]) (console s)
                               (reentries s))
  end.

(** [sendMessage] *)
Definition sendMessage (ws : WS) (message : WSOutgoingMessage.t) : M unit :=
  try_catch
    (if Z.eqb (Relay.readyState net ws) 1
     then ws_send ws message
     else ret tt)
    (fun error => console_push (Relay.ErrorSending error)).

(** [subscribers.forEach(f)], from the slot [index] on. The loop of the
    language has no bound of its own; [fuel] bounds the slots looked at, and
    [None] says that it ran out. *)
Fixpoint Set_forEach_from (fuel : nat) (subscribers : addr) (index : nat)
         (f : WS -> M unit) (s : Store) : option (Completion unit * Store) :=
  match fuel with
  | 0 => None
  | S fuel' =>
      let entries := heap s subscribers in
      if Nat.ltb index (List.length entries) then
        match nth index entries None with
        | Some e =>
            match f e s with
            | (Normal _, s') =>
                Set_forEach_from fuel' subscribers (S index) f s'
            | (Throw error, s') => Some (Throw error, s')
            end
        | None => Set_forEach_from fuel' subscribers (S index) f s
        end
      else Some (Normal tt, s)
  end.

(** [broadcastToJob] *)
Definition broadcastToJob (fuel : nat) (jobId : string)
           (message : WSOutgoingMessage.t) (s : Store)
  : option (Completion unit * Store) :=
  match JSMap.get jobId (jobSubscriptions s) with
  | Some subscribers =>
      Set_forEach_from fuel subscribers 0
        (fun ws => sendMessage ws message) s
  | None => Some (Normal tt, s)
  end.

(** [handleStatusUpdate] and [handleCompleteUpdate] *)
Definition handleStatusUpdate (fuel : nat) (status : StatusMessage.t)
  : Store -> option (Completion unit * Store) :=
  broadcastToJob fuel (StatusMessage.job_id status)
    (WSOutgoingMessage.mk Tstatus
       (Some (StatusMessage.job_id status))
       (Some (StatusData status))
       None).

Definition handleCompleteUpdate (fuel : nat) (complete : CompleteMessage.t)
  : Store -> option (Completion unit * Store) :=
  broadcastToJob fuel (CompleteMessage.job_id complete)
    (WSOutgoingMessage.mk Tcomplete
       (Some (CompleteMessage.job_id complete))
       (Some (CompleteData complete))
       None).

(** [subscribeToJob] *)
Definition subscribeToJob (ws : WS) (jobId : string) : M unit :=
  m <- gets jobSubscriptions ;;
  (if negb (JSMap.has jobId m)
   then
     a <- new_Set ;;
     set_jobSubscriptions (JSMap.set jobId a m)
   else ret tt) ;;
  m <- gets jobSubscriptions ;;
  match JSMap.get jobId m with
  | Some subscribers =>
      d <- deref subscribers ;;
      assign subscribers (SetData_add ws d)
  | None => throw "TypeError: undefined is not an object"
  end ;;
  sendMessage ws
    (WSOutgoingMessage.mk Tsubscribed (Some jobId) None
       (Some (String.append "Subscribed to job " jobId))).

End WithNet.

(** *** Vocabulary of the statements *)

(** The observers registered for a job: the members of its Set object. *)
Definition observers (jobId : string) (s : Store) : JSSet.t :=
  match JSMap.get jobId (jobSubscriptions s) with
  | Some a => members (heap s a)
  | None => []
  end.

(** The state of the relay above that a store stands for. *)
Definition abstract (s : Store) : Relay.State :=
  Relay.mkState
    (map (fun e => (fst e, members (heap s (snd e)))) (jobSubscriptions s))
    (allConnections s) (wire s) (console s).

(** The slots that a walk of [subscribers] has to look at. *)
Definition slots (jobId : string) (s : Store) : nat :=
  match JSMap.get jobId (jobSubscriptions s) with
  | Some a => List.length (heap s a)
  | None => 0
  end.

(** Every key has a Set object of its own, given out earlier, and no Set
    holds a member twice or is empty. *)
Definition Store_ok (s : Store) : Prop :=
  NoDup (JSMap.keys (jobSubscriptions s))
  /\ NoDup (map snd (jobSubscriptions s))
  /\ Forall (fun e => snd e < next s
                      /\ NoDup (members (heap s (snd e)))
                      /\ members (heap s (snd e)) <> [])
            (jobSubscriptions s).

(** [d'] is [d] with some of its slots emptied. *)
Definition emptied (d d' : SetData) : Prop :=
  Forall2 (fun e e' => e' = e \/ e' = None) d d'.

(** From [s] to [s'] the Set objects have only lost entries, and the Map has
    only lost keys. *)
Definition only_removals (s s' : Store) : Prop :=
  (forall a, emptied (heap s a) (heap s' a))
  /\ (forall k a, JSMap.get k (jobSubscriptions s') = Some a ->
                  JSMap.get k (jobSubscriptions s) = Some a).

(** What a computation may do while a Set is walked: it returns normally,
    only takes entries out, keeps the registry in order, and leaves the
    wire and the handlers still to run alone. *)
Definition removes_only (c : M unit) : Prop :=
  forall s, Store_ok s ->
    exists s', c s = (Normal tt, s')
               /\ only_removals s s' /\ Store_ok s'
               /\ wire s' = wire s /\ reentries s' = reentries s.

(** The store after the registry part of [subscribeToJob], before the
    acknowledgment is sent. *)
Definition registered (ws : WS) (jobId : string) (s : Store) : Store :=
  match JSMap.get jobId (jobSubscriptions s) with
  | Some a =>
      mkStore (fun a' => if Nat.eqb a' a
                         then SetData_add ws (heap s a) else heap s a')
              (next s) (jobSubscriptions s) (allConnections s)
              (wire s) (console s) (reentries s)
  | None =>
      mkStore (fun a' => if Nat.eqb a' (next s) then [Some ws]
                         else if Nat.eqb a' (next s) then [] else heap s a')
              (S (next s)) (JSMap.set jobId (next s) (jobSubscriptions s))
              (allConnections s) (wire s) (console s) (reentries s)
  end.

(** An event of the bus, its job, and its handler. *)
Inductive BusEvent :=
| StatusEvent (status : StatusMessage.t)
| CompleteEvent (complete : CompleteMessage.t).

Definition event_job_id (ev : BusEvent) : string :=
  match ev with
  | StatusEvent status => StatusMessage.job_id status
  | CompleteEvent complete => CompleteMessage.job_id complete
  end.

Definition event_frame (ev : BusEvent) : WSOutgoingMessage.t :=
  match ev with
  | StatusEvent status => Relay.status_frame status
  | CompleteEvent complete => Relay.complete_frame complete
  end.

Definition handle (net : Relay.Net) (fuel : nat) (ev : BusEvent)
  : Store -> option (Completion unit * Store) :=
  match ev with
  | StatusEvent status => handleStatusUpdate net fuel status
  | CompleteEvent complete => handleCompleteUpdate net fuel complete
  end.

(** The same store, with other handlers for the sends to come to run. *)
Definition with_reentries (rs : list (list Removal)) (s : Store) : Store :=
  mkStore (heap s) (next s) (jobSubscriptions s) (allConnections s)
          (wire s) (console s) rs.

(** The stores the module can be in: any subscriptions, removals and events
    of the bus, in any order, whatever the sends run. *)
Inductive reachable : Store -> Prop :=
| reachable_initial : reachable initial
| reachable_reentries rs s :
    reachable s -> reachable (with_reentries rs s)
| reachable_subscribe net ws jobId s :
    reachable s -> reachable (exec (subscribeToJob net ws jobId) s)
| reachable_removal r s :
    reachable s -> reachable (exec (run_removal r) s)
| reachable_event net fuel ev s s' :
    reachable s ->
    slots (event_job_id ev) s < fuel ->
    handle net fuel ev s = Some (Normal tt, s') ->
    reachable s'.

(** The frames on the wire of [s'] that were not yet on the wire of [s]. *)
Definition frames_since (s s' : Store) : list (WS * WSOutgoingMessage.t) :=
  skipn (List.length (wire s)) (wire s').

(** Example: sockets 5, 7 and 9 watch J1, socket 7 watches J2 as well; the
    send to socket 5 will run the [close] handler of socket 7, and the send
    to socket 9 the [unsubscribe] of socket 9 itself. *)
Definition three_watchers : Store :=
  with_reentries [[Cleanup 7]; [Unsubscribe 9 "J1"]]
    (exec (subscribeToJob Relay.net_open 7 "J2")
       (exec (subscribeToJob Relay.net_open 9 "J1")
          (exec (subscribeToJob Relay.net_open 7 "J1")
             (exec (subscribeToJob Relay.net_open 5 "J1") initial)))).

End Live.

(** ** Regular expressions, as far as [repos.ts] uses them *)

Module Regex.

Inductive t :=
| Void
| Eps
| Cls (p : ascii -> bool)
| Cat (r1 r2 : t)
| Alt (r1 r2 : t)
| Star (r : t).

(** One given character. *)
Definition Chr (c : ascii) : t := Cls (Ascii.eqb c).

(** A literal run of characters. *)
Fixpoint Lit (s : string) : t :=
  match s with
  | EmptyString => Eps
  | String c s' => Cat (Chr c) (Lit s')
  end.

(** [r+] and [(?:r)?] *)
Definition Plus (r : t) : t := Cat r (Star r).

Definition Opt (r : t) : t := Alt r Eps.

Definition between (lo hi c : ascii) : bool :=
  Nat.leb (nat_of_ascii lo) (nat_of_ascii c)
  && Nat.leb (nat_of_ascii c) (nat_of_ascii hi).

(** [\w] *)
Definition word (c : ascii) : bool :=
  between "a" "z" c || between "A" "Z" c || between "0" "9" c
  || Ascii.eqb c "_".

(** [[\w-]] and [[\w.-]] *)
Definition word_dash (c : ascii) : bool := word c || Ascii.eqb c "-".

Definition word_dot_dash (c : ascii) : bool :=
  word c || Ascii.eqb c "." || Ascii.eqb c "-".

Fixpoint nullable (r : t) : bool :=
  match r with
  | Void => false
  | Eps => true
  | Cls _ => false
  | Cat r1 r2 => nullable r1 && nullable r2
  | Alt r1 r2 => nullable r1 || nullable r2
  | Star _ => true
  end.

(** What is left of [r] to match after the character [c]. *)
Fixpoint deriv (c : ascii) (r : t) : t :=
  match r with
  | Void => Void
  | Eps => Void
  | Cls p => if p c then Eps else Void
  | Cat r1 r2 =>
      if nullable r1
      then Alt (Cat (deriv c r1) r2) (deriv c r2)
      else Cat (deriv c r1) r2
  | Alt r1 r2 => Alt (deriv c r1) (deriv c r2)
  | Star r1 => Cat (deriv c r1) (Star r1)
  end.

(** [/^r$/.test(s)] *)
Fixpoint test (r : t) (s : string) : bool :=
  match s with
  | EmptyString => nullable r
  | String c s' => test (deriv c r) s'
  end.

(** [s.match(/r$/)]: the match that starts first; with the [$] it runs to
    the end of [s]. *)
Fixpoint match_to_end (r : t) (s : string) : option string :=
  if test r s then Some s
  else match s with
       | EmptyString => None
       | String _ s' => match_to_end r s'
       end.

(** [s.replace(pattern, replacement)] for a string pattern: the first
    occurrence only. *)
Fixpoint replace (pattern replacement s : string) : string :=
  if String.prefix pattern s
  then String.append replacement
         (String.substring (String.length pattern)
            (String.length s - String.length pattern) s)
  else match s with
       | EmptyString => EmptyString
       | String c s' => String c (replace pattern replacement s')
       end.

End Regex.

(** ** The model catalogue of [models.ts] *)

Module Models.

Inductive Provider := openai | anthropic | ollama | google.

(** [LLMModel], without the description, the price and the capabilities,
    which no route modelled here reads. *)
Record LLMModel := mk {
  id : string;
  name : string;
  provider : Provider;
  maxTokens : Z;
  isLocal : bool
}.

Definition AVAILABLE_MODELS : list LLMModel :=
  [ mk "gpt-4o" "GPT-4o" openai 128000%Z false;
    mk "gpt-4o-mini" "GPT-4o Mini" openai 128000%Z false;
    mk "gpt-4-turbo" "GPT-4 Turbo" openai 128000%Z false;
    mk "claude-3-5-sonnet-20241022" "Claude 3.5 Sonnet" anthropic 200000%Z
       false;
    mk "claude-3-opus-20240229" "Claude 3 Opus" anthropic 200000%Z false;
    mk "claude-3-haiku-20240307" "Claude 3 Haiku" anthropic 200000%Z false;
    mk "gemini-2.0-flash" "Gemini 2.0 Flash" google 1000000%Z false;
    mk "gemini-1.5-pro" "Gemini 1.5 Pro" google 1000000%Z false;
    mk "llama3.2" "Llama 3.2" ollama 128000%Z true;
    mk "codellama" "Code Llama" ollama 16000%Z true;
    mk "deepseek-coder-v2" "DeepSeek Coder V2" ollama 128000%Z true;
    mk "qwen2.5-coder" "Qwen 2.5 Coder" ollama 32000%Z true ].

(** [isValidModel] *)
Definition isValidModel (modelId : string) : bool :=
  existsb (fun m => String.eqb (id m) modelId) AVAILABLE_MODELS.

(** [getDefaultModel], before the [!]. *)
Definition getDefaultModel : option LLMModel :=
  find (fun m => String.eqb (id m) "gpt-4o-mini") AVAILABLE_MODELS.

End Models.

(** ** Submitting a job: [repos.ts] with [redis.ts] and [supabase.ts] *)

Module Submit.

Import Eff.

(** [Job] of [supabase.ts]: a row of the table [jobs]. *)
Module Job.
Record t := mk {
  id : string;
  repo_url : string;
  status : JobStatus;
  selected_model : string;
  result : option string;
  error_message : option string;
  created_at : string;
  updated_at : string
}.
End Job.

(** [JobMessage] of [redis.ts]. *)
Module JobMessage.
Record t := mk {
  job_id : string;
  repo_url : string;
  selected_model : string;
  timestamp : string
}.
End JobMessage.

(** [CHANNELS] *)
Definition JOB_QUEUE : string := "code-indexer:jobs".

Definition JOB_STATUS : string := "code-indexer:status".

Definition JOB_COMPLETE : string := "code-indexer:complete".

(** What is sent over the bus. *)
Inductive BusPayload :=
| JobPayload (job : JobMessage.t)
| StatusPayload (status : StatusMessage.t)
| CompletePayload (complete : CompleteMessage.t).

Definition payload_job_id (p : BusPayload) : string :=
  match p with
  | JobPayload job => JobMessage.job_id job
  | StatusPayload status => StatusMessage.job_id status
  | CompletePayload complete => CompleteMessage.job_id complete
  end.

(** The requests made to the job store. *)
Inductive StoreRequest :=
| Insert (repo_url : string) (status : JobStatus) (selected_model : string)
| Update (jobId : string) (status : JobStatus) (result : option string)
         (error_message : option string).

Inductive ConsoleEntry :=
| ErrorCreatingJob
| ErrorUpdatingJob
| ErrorPublish (e : JSError)
| LogPushed (jobId : string)
| LogPublished (jobId : string).

(** The job store and the bus as this process sees them, and what it has
    asked of them. *)
Record World := mkWorld {
  (** the table [jobs] *)
  jobs : list Job.t;
  (** the answers of the store to the requests to come: [true] for an
      [error]; past the end of the list the store answers well *)
  store_errors : list bool;
  (** the requests made to the store, oldest first *)
  store_requests : list StoreRequest;
  (** [publisherClient]: [null], or a client and whether it takes writes *)
  publisherClient : option bool;
  (** the Redis list [code-indexer:jobs], last push first *)
  queue : list JobMessage.t;
  (** what was published, oldest first, with its channel *)
  published : list (string * BusPayload);
  console : list ConsoleEntry
}.

(** What the outside supplies to one request: the clock, read as one instant
    for the whole request, and the id and the time the store gives to a new
    row. *)
Record Env := mkEnv {
  now : string;
  gen_random_uuid : string;
  store_now : string
}.

Definition M := Eff.M World.

Definition console_push (e : ConsoleEntry) : M unit :=
  modify (fun w => mkWorld (jobs w) (store_errors w) (store_requests w)
                           (publisherClient w) (queue w) (published w)
                           (console w ++ [e])).

(** One request to the store: it is recorded, and the next answer says
    whether it returns an [error]. *)
Definition store_request (r : StoreRequest) : M bool :=
  fun w =>
    (Normal (hd false (store_errors w)),
     mkWorld (jobs w) (tl (store_errors w)) (store_requests w ++ [r])
             (publisherClient w) (queue w) (published w) (console w)).

Definition set_jobs (js : list Job.t) : M unit :=
  modify (fun w => mkWorld js (store_errors w) (store_requests w)
                           (publisherClient w) (queue w) (published w)
                           (console w)).

Section WithEnv.

Variable env : Env.

(** [createJob] *)
Definition createJob (repoUrl selectedModel : string) : M (option Job.t) :=
  error <- store_request (Insert repoUrl pending selectedModel) ;;
  if error then
    console_push ErrorCreatingJob ;;
    ret None
  else
    let data :=
      Job.mk (gen_random_uuid env) repoUrl pending selectedModel None None
             (store_now env) (store_now env) in
    js <- gets jobs ;;
    set_jobs (js ++ [data]) ;;
    ret (Some data).

(** The row after [update(updateData)]. *)
Definition updated (status : JobStatus) (result : option string)
           (errorMessage : option string) (j : Job.t) : Job.t :=
  Job.mk (Job.id j) (Job.repo_url j) status (Job.selected_model j)
         (match result with
          | Some r => Some r
          | None => Job.result j
          end)
         (match errorMessage with
          | Some e => if truthy e then Some e else Job.error_message j
          | None => Job.error_message j
          end)
         (Job.created_at j) (now env).

(** [updateJobStatus] *)
Definition updateJobStatus (jobId : string) (status : JobStatus)
           (result : option string) (errorMessage : option string) : M bool :=
  error <- store_request
             (Update jobId status result
                (match errorMessage with
                 | Some e => if truthy e then Some e else None
                 | None => None
                 end)) ;;
  if error then
    console_push ErrorUpdatingJob ;;
    ret false
  else
    js <- gets jobs ;;
    set_jobs (map (fun j => if String.eqb (Job.id j) jobId
                            then updated status result errorMessage j
                            else j) js) ;;
    ret true.

(** [getPublisher] *)
Definition getPublisher : M bool :=
  client <- gets publisherClient ;;
  match client with
  | None => throw "Redis publisher not initialized. Call initRedis() first."
  | Some writable => ret writable
  end.

(** [pushJobToQueue]: the [lPush] raises when the client takes no write. A
    write that a client without connection keeps waiting is no run of this
    definition: what the client does is a hypothesis of the theorems that
    depend on it. *)
Definition pushJobToQueue (job : JobMessage.t) : M unit :=
  writable <- getPublisher ;;
  (if writable
   then modify (fun w => mkWorld (jobs w) (store_errors w) (store_requests w)
                                 (publisherClient w) (job :: queue w)
                                 (published w) (console w))
   else throw "The client is closed") ;;
  console_push (LogPushed (JobMessage.job_id job)).

(** [publishJob] *)
Definition publishJob (job : JobMessage.t) : M unit :=
  writable <- getPublisher ;;
  (if writable
   then modify (fun w => mkWorld (jobs w) (store_errors w) (store_requests w)
                                 (publisherClient w) (queue w)
                                 (published w ++ [(JOB_QUEUE, JobPayload job)])
                                 (console w))
   else throw "The client is closed") ;;
  console_push (LogPublished (JobMessage.job_id job)).

(** [publishStatus] *)
Definition publishStatus (status : StatusMessage.t) : M unit :=
  writable <- getPublisher ;;
  if writable
  then modify (fun w => mkWorld (jobs w) (store_errors w) (store_requests w)
                                (publisherClient w) (queue w)
                                (published w
                                 ++ [(JOB_STATUS, StatusPayload status)])
                                (console w))
  else throw "The client is closed".

(** The five patterns of [isValidRepoUrl]. *)
Definition owner_and_name (suffix : Regex.t) : Regex.t :=
  Regex.Cat (Regex.Plus (Regex.Cls Regex.word_dash))
    (Regex.Cat (Regex.Chr "/")
       (Regex.Cat (Regex.Plus (Regex.Cls Regex.word_dot_dash)) suffix)).

Definition patterns : list Regex.t :=
  [ Regex.Cat (Regex.Lit "https://github.com/")
      (owner_and_name (Regex.Opt (Regex.Lit ".git")));
    Regex.Cat (Regex.Lit "https://gitlab.com/")
      (owner_and_name (Regex.Opt (Regex.Lit ".git")));
    Regex.Cat (Regex.Lit "https://bitbucket.org/")
      (owner_and_name (Regex.Opt (Regex.Lit ".git")));
    Regex.Cat (Regex.Lit "git@github.com:")
      (owner_and_name (Regex.Lit ".git"));
    Regex.Cat (Regex.Lit "git@gitlab.com:")
      (owner_and_name (Regex.Lit ".git")) ].

(** [isValidRepoUrl] *)
Definition isValidRepoUrl (url : string) : bool :=
  existsb (fun pattern => Regex.test pattern url) patterns.

(** [extractRepoName] *)
Definition extractRepoName (url : string) : string :=
  match Regex.match_to_end (owner_and_name (Regex.Opt (Regex.Lit ".git"))) url
  with
  | Some m => Regex.replace ".git" EmptyString m
  | None => "unknown-repo"
  end.

(** The body of the request and the answer of the route. *)
Record Body := mkBody {
  repo_url : string;
  model_id : option string
}.

Inductive Answer :=
| Failure (error : string)
| Queued (job_id repo_url repo_name selected_model : string)
         (status : JobStatus) (message : string).

(** [set.status] when the handler has assigned it, and what it returns. *)
Record Response := mkResponse {
  set_status : option nat;
  answer : Answer
}.

(** [POST /repos/]: the handler. The route checks the body against its
    schema before the handler runs, see [Intake.route_post_repos]. *)
Definition post_repos (body : Body) : M Response :=
  if negb (isValidRepoUrl (repo_url body)) then
    ret (mkResponse (Some 400)
           (Failure
              "Invalid repository URL. Supported: GitHub, GitLab, Bitbucket"))
  else
    selectedModel <-
      match model_id body with
      | Some model_id =>
          if truthy model_id && Models.isValidModel model_id
          then ret model_id
          else match Models.getDefaultModel with
               | Some m => ret (Models.id m)
               | None => throw "TypeError: undefined is not an object"
               end
      | None =>
          match Models.getDefaultModel with
          | Some m => ret (Models.id m)
          | None => throw "TypeError: undefined is not an object"
          end
      end ;;
    job <- createJob (repo_url body) selectedModel ;;
    match job with
    | None => ret (mkResponse (Some 500) (Failure "Failed to create job"))
    | Some job =>
        updateJobStatus (Job.id job) processing None None ;;
        try_catch
          (pushJobToQueue
             (JobMessage.mk (Job.id job) (repo_url body) selectedModel
                (now env)) ;;
           ret (mkResponse None
                  (Queued (Job.id job) (repo_url body)
                     (extractRepoName (repo_url body)) selectedModel
                     processing "Repository queued for analysis")))
          (fun error =>
             console_push (ErrorPublish error) ;;
             updateJobStatus (Job.id job) failed None
               (Some "Failed to queue job") ;;
             ret (mkResponse (Some 500)
                    (Failure "Failed to queue job for processing")))
    end.

End WithEnv.

(** The events of a job on the status and the completion channel. *)
Definition events_of (jobId : string) (w : World)
  : list (string * BusPayload) :=
  filter (fun p => (String.eqb (fst p) JOB_STATUS
                    || String.eqb (fst p) JOB_COMPLETE)
                   && String.eqb (payload_job_id (snd p)) jobId)
         (published w).

(** The requests put to the store by a computation. *)
Definition requested_by {A} (c : M A) (w : World) : list StoreRequest :=
  skipn (List.length (store_requests w)) (store_requests (exec c w)).

(** Examples: the clock and the store of one request, a world in which Redis
    was never reached, and one in which its client takes no write. *)
Definition env0 : Env :=
  mkEnv "2025-01-01T00:00:00.000Z" "1b4e28ba-2fa1-41d2-883f-0016d3cca427"
        "2025-01-01T00:00:00.000000+00:00".

Definition world_without_redis : World :=
  mkWorld [] [] [] None [] [] [].

Definition world_redis_closed : World :=
  mkWorld [] [] [] (Some false) [] [] [].

Definition world_store_gone_after_insert : World :=
  mkWorld [] [false; true; true] [] (Some false) [] [] [].

Definition body0 : Body :=
  mkBody "https://github.com/MateusMunaro/code-in-backend" None.

End Submit.

(** ** The relay as its clients and the bus drive it *)

Module Gateway.

Import Eff Relay.

(** What reaches the module from outside: the four handlers of the plugin
    and the two listeners of the bus. *)
Inductive Event :=
| Open (ws : WS)
| Message (ws : WS) (message : WSMessage.t)
| Close (ws : WS)
| Error (ws : WS) (error : JSError)
| Status (status : StatusMessage.t)
| Complete (complete : CompleteMessage.t).

Definition on_event (net : Net) (ev : Event) : M unit :=
  match ev with
  | Open ws => ws_open ws
  | Message ws message => ws_message net ws message
  | Close ws => ws_close ws
  | Error ws error => ws_error ws error
  | Status status => handleStatusUpdate net status
  | Complete complete => handleCompleteUpdate net complete
  end.

(** The states the module is in while it serves: any events, in any order,
    whatever the sockets are like at each of them. *)
Inductive served : State -> Prop :=
| served_initial : served initial
| served_event net ev st : served st -> served (exec (on_event net ev) st).

(** A frame as the protocol has it: [status] and [complete] carry the event
    and, beside it, the job id of the event; [subscribed] names the job and
    says so in its message; [pong] carries nothing; nothing is tagged
    [error]. *)
Definition frame_ok (message : WSOutgoingMessage.t) : Prop :=
  match WSOutgoingMessage.type message with
  | Tstatus =>
      exists status,
        message = status_frame status
  | Tcomplete =>
      exists complete,
        message = complete_frame complete
  | Tsubscribed =>
      exists jobId, message = subscribed_frame jobId
  | Tpong => message = pong_frame
  | Terror => False
  end.

(** A client that connects, asks for a job with an empty id, then for J1,
    and pings. *)
Definition one_client : State :=
  exec (on_event net_open (Message 5 (WSMessage.mk Mping None)))
    (exec (on_event net_open (Message 5 (WSMessage.mk Msubscribe (Some "J1"))))
       (exec (on_event net_open
                (Message 5 (WSMessage.mk Msubscribe (Some EmptyString))))
          (exec (on_event net_open (Open 5)) initial))).

(** The completion event of a job that went well. *)
Definition done_event : CompleteMessage.t :=
  CompleteMessage.mk "J1" true (Some "{}") None "2025-01-01T00:05:00.000Z".

End Gateway.

(** ** Looking models up: the rest of [models.ts] *)

Module Catalogue.

Import Models.

Definition Provider_eqb (p q : Provider) : bool :=
  match p, q with
  | openai, openai | anthropic, anthropic | ollama, ollama
  | google, google => true
  | _, _ => false
  end.

(** [getModelById] *)
Definition getModelById (modelId : string) : option LLMModel :=
  find (fun m => String.eqb (id m) modelId) AVAILABLE_MODELS.

(** [getModelsByProvider] *)
Definition getModelsByProvider (provider : Provider) : list LLMModel :=
  filter (fun m => Provider_eqb (Models.provider m) provider)
         AVAILABLE_MODELS.

(** [getLocalModels] *)
Definition getLocalModels : list LLMModel :=
  filter (fun m => isLocal m) AVAILABLE_MODELS.

(** [getCloudModels] *)
Definition getCloudModels : list LLMModel :=
  filter (fun m => negb (isLocal m)) AVAILABLE_MODELS.

(** The providers whose key the route [/:modelId/status] looks at. *)
Definition has_api_key (provider : Provider) : bool :=
  match provider with
  | openai | anthropic | google => true
  | ollama => false
  end.

End Catalogue.

(** ** What a submission leaves behind *)

Module Intake.

Import Eff Submit.

(** The model a submission runs with: the one asked for when it is in the
    catalogue, the default one otherwise. *)
Definition chosen_model (body : Body) : string :=
  match model_id body with
  | Some model_id =>
      if truthy model_id && Models.isValidModel model_id
      then model_id
      else "gpt-4o-mini"
  | None => "gpt-4o-mini"
  end.

(** The row the store makes for a submission. *)
Definition new_row (env : Env) (body : Body) : Job.t :=
  Job.mk (gen_random_uuid env) (repo_url body) pending (chosen_model body)
         None None (store_now env) (store_now env).

(** The descriptor a submission puts on the work list. *)
Definition descriptor (env : Env) (body : Body) : JobMessage.t :=
  JobMessage.mk (gen_random_uuid env) (repo_url body) (chosen_model body)
                (now env).

(** A request of [POST /repos] to the store, as the handler of a submission
    [body] makes them. *)
Definition request_ok (env : Env) (body : Body) (r : StoreRequest) : Prop :=
  match r with
  | Insert repo_url status selected_model =>
      repo_url = Submit.repo_url body /\ status = pending
      /\ selected_model = chosen_model body
      /\ Models.isValidModel selected_model = true
  | Update jobId status result error_message =>
      jobId = gen_random_uuid env /\ result = None
      /\ ((status = processing /\ error_message = None)
          \/ (status = failed
              /\ error_message = Some "Failed to queue job"))
  end.

Definition other_rows (jobId : string) (js : list Job.t) : list Job.t :=
  filter (fun j => negb (String.eqb (Job.id j) jobId)) js.

(** What the route answers: the answer of the handler, or the 422 of the
    framework for a body that fails the schema, in which case the handler
    does not run. *)
Inductive RouteResponse :=
| Unprocessable
| Handled (r : Response).

(** The schema of the body: [repo_url: t.String({ minLength: 1 })]. A
    [model_id], when there is one, is a string by its type here. *)
Definition body_ok (body : Body) : bool :=
  Nat.leb 1 (String.length (repo_url body)).

(** [POST /repos/] with its schema. *)
Definition route_post_repos (env : Env) (body : Body) : M RouteResponse :=
  if body_ok body then
    r <- post_repos env body ;;
    ret (Handled r)
  else
    ret Unprocessable.

(** Examples: a world in which the store and Redis both work, with one job
    of before that has failed; one whose store refuses the next request;
    and two bodies. *)
Definition old_row : Job.t :=
  Job.mk "0a0a0a0a-0000-4000-8000-000000000001"
         "https://gitlab.com/group/project.git" failed "codellama" None
         (Some "Clone failed") "2024-12-31T10:00:00.000000+00:00"
         "2024-12-31T10:05:00.000Z".

Definition world_ready : World :=
  mkWorld [old_row] [] [] (Some true) [] [] [].

Definition world_store_down : World :=
  mkWorld [old_row] [true] [] (Some true) [] [] [].

(** A store that takes the insert and the first update and refuses what
    comes after, with a client of Redis that takes no write. *)
Definition world_store_gone_after_update : World :=
  mkWorld [] [false; false; true] [] (Some false) [] [] [].

Definition body_empty_url : Body := mkBody EmptyString None.

Definition body_http : Body :=
  mkBody "http://github.com/MateusMunaro/code-in-backend" None.

Definition body_claude : Body :=
  mkBody "git@github.com:MateusMunaro/code-in-backend.git"
         (Some "claude-3-haiku-20240307").

Definition body_unknown_model : Body :=
  mkBody "https://github.com/MateusMunaro/code-in-backend" (Some "gpt-5").

End Intake.

(** ** What the patterns of [repos.ts] mean *)

Module Lang.

Import Regex.

(** The strings that a pattern matches from their first to their last
    character. *)
Inductive matches : Regex.t -> string -> Prop :=
| matches_Eps : matches Eps EmptyString
| matches_Cls p c : p c = true -> matches (Cls p) (String c EmptyString)
| matches_Cat r1 r2 s1 s2 :
    matches r1 s1 -> matches r2 s2 -> matches (Cat r1 r2) (s1 ++ s2)
| matches_Alt_l r1 r2 s : matches r1 s -> matches (Alt r1 r2) s
| matches_Alt_r r1 r2 s : matches r2 s -> matches (Alt r1 r2) s
| matches_Star_nil r : matches (Star r) EmptyString
| matches_Star_more r s1 s2 :
    matches r s1 -> matches (Star r) s2 -> matches (Star r) (s1 ++ s2).

(** Every character of [s] is in the class [p]. *)
Fixpoint all (p : ascii -> bool) (s : string) : bool :=
  match s with
  | EmptyString => true
  | String c s' => p c && all p s'
  end.

(** How often [c] occurs in [s]. *)
Fixpoint count (c : ascii) (s : string) : nat :=
  match s with
  | EmptyString => 0
  | String c' s' => (if Ascii.eqb c' c then 1 else 0) + count c s'
  end.

(** An owner and a repository name as the patterns want them. *)
Definition repo_path (owner name : string) : Prop :=
  owner <> EmptyString /\ all word_dash owner = true
  /\ name <> EmptyString /\ all word_dot_dash name = true.

(** The hosts, as the patterns spell them. *)
Definition hosts_https : list string :=
  ["https://github.com/"; "https://gitlab.com/"; "https://bitbucket.org/"].

Definition hosts_ssh : list string :=
  ["git@github.com:"; "git@gitlab.com:"].

(** A character of a path: one of a name, or the slash. *)
Definition path_char (c : ascii) : bool :=
  word_dot_dash c || Ascii.eqb c "/".

End Lang.

(** ** The routes on a job: [jobs.ts] and the retry of [repos.ts] *)

Module Desk.

Import Eff.

(** The requests these routes make to the store themselves, beside those of
    [createJob] and [updateJobStatus]. *)
Inductive Request :=
| SelectJob (jobId : string)
| UpdateModel (jobId selected_model : string).

Inductive ConsoleEntry :=
| ErrorFetchingJob
| ErrorRequeue (e : JSError).

(** The world of a submission, with what these routes add to it. *)
Record World := mkWorld {
  base : Submit.World;
  requests : list Request;
  console : list ConsoleEntry
}.

Definition M := Eff.M World.

(** A call into [supabase.ts] or [redis.ts] as [Submit] has it. *)
Definition lift {A} (c : Submit.M A) : M A :=
  fun w =>
    (fst (c (base w)),
     mkWorld (snd (c (base w))) (requests w) (console w)).

Definition console_push (e : ConsoleEntry) : M unit :=
  modify (fun w => mkWorld (base w) (requests w) (console w ++ [e])).

(** One request to the store: it is recorded, and the next answer of the
    store says whether it returns an [error]. *)
Definition store_request (r : Request) : M bool :=
  fun w =>
    let b := base w in
    (Normal (hd false (Submit.store_errors b)),
     mkWorld
       (Submit.mkWorld (Submit.jobs b) (tl (Submit.store_errors b))
          (Submit.store_requests b) (Submit.publisherClient b)
          (Submit.queue b) (Submit.published b) (Submit.console b))
       (requests w ++ [r]) (console w)).

Definition set_jobs (js : list Submit.Job.t) : M unit :=
  modify (fun w =>
            let b := base w in
            mkWorld
              (Submit.mkWorld js (Submit.store_errors b)
                 (Submit.store_requests b) (Submit.publisherClient b)
                 (Submit.queue b) (Submit.published b) (Submit.console b))
              (requests w) (console w)).

(** [.eq("id", jobId)] *)
Definition rows_with (jobId : string) (js : list Submit.Job.t)
  : list Submit.Job.t :=
  filter (fun j => String.eqb (Submit.Job.id j) jobId) js.

(** [getJob]: with [.single()] it is an [error] of the store as well when
    not exactly one row answers. *)
Definition getJob (jobId : string) : M (option Submit.Job.t) :=
  error <- store_request (SelectJob jobId) ;;
  rows <- gets (fun w => rows_with jobId (Submit.jobs (base w))) ;;
  match error, rows with
  | false, [data] => ret (Some data)
  | _, _ =>
      console_push ErrorFetchingJob ;;
      ret None
  end.

(** What the routes answer. *)
Inductive Answer :=
| Failure (error : string)
| Found (data : Submit.Job.t)
| ModelUpdated (job_id selected_model message : string)
| Cancelled (job_id : string) (status : JobStatus) (message : string)
| Requeued (job_id selected_model : string) (status : JobStatus)
           (message : string).

Record Response := mkResponse {
  set_status : option nat;
  answer : Answer
}.

(** The row after [update({ selected_model: model_id })]; the trigger
    [update_jobs_updated_at] of the schema sets [updated_at]. *)
Definition with_model (env : Submit.Env) (model_id : string)
           (j : Submit.Job.t) : Submit.Job.t :=
  Submit.Job.mk (Submit.Job.id j) (Submit.Job.repo_url j)
    (Submit.Job.status j) model_id (Submit.Job.result j)
    (Submit.Job.error_message j) (Submit.Job.created_at j)
    (Submit.store_now env).

Section WithEnv.

Variable env : Submit.Env.

(** [GET /jobs/:jobId] *)
Definition get_job (jobId : string) : M Response :=
  job <- getJob jobId ;;
  match job with
  | None => ret (mkResponse (Some 404) (Failure "Job not found"))
  | Some job => ret (mkResponse None (Found job))
  end.

(** [PATCH /jobs/:jobId/model] *)
Definition patch_job_model (jobId model_id : string) : M Response :=
  if negb (Models.isValidModel model_id) then
    ret (mkResponse (Some 400) (Failure "Invalid model ID"))
  else
    job <- getJob jobId ;;
    match job with
    | None => ret (mkResponse (Some 404) (Failure "Job not found"))
    | Some job =>
        match Submit.Job.status job with
        | pending | failed =>
            error <- store_request (UpdateModel jobId model_id) ;;
            if error then
              ret (mkResponse (Some 500) (Failure "Failed to update model"))
            else
              js <- gets (fun w => Submit.jobs (base w)) ;;
              set_jobs (map (fun j =>
                               if String.eqb (Submit.Job.id j) jobId
                               then with_model env model_id j
                               else j) js) ;;
              ret (mkResponse None
                     (ModelUpdated jobId model_id
                        "Model updated successfully"))
        | processing | completed =>
            ret (mkResponse (Some 400)
                   (Failure
                      "Cannot change model for a job that is processing or completed"))
        end
    end.

(** [DELETE /jobs/:jobId] *)
Definition delete_job (jobId : string) : M Response :=
  job <- getJob jobId ;;
  match job with
  | None => ret (mkResponse (Some 404) (Failure "Job not found"))
  | Some job =>
      match Submit.Job.status job with
      | completed =>
          ret (mkResponse (Some 400) (Failure "Cannot cancel a completed job"))
      | _ =>
          lift (Submit.updateJobStatus env jobId failed None
                  (Some "Job cancelled by user")) ;;
          ret (mkResponse None
                 (Cancelled jobId failed "Job cancelled successfully"))
      end
  end.

(** [POST /repos/:jobId/retry]; [model_id] is [None] also when the request
    has no body. *)
Definition post_retry (jobId : string) (model_id : option string)
  : M Response :=
  job <- getJob jobId ;;
  match job with
  | None => ret (mkResponse (Some 404) (Failure "Job not found"))
  | Some job =>
      match Submit.Job.status job with
      | failed =>
          let selectedModel :=
            match model_id with
            | Some model_id =>
                if truthy model_id && Models.isValidModel model_id
                then model_id
                else Submit.Job.selected_model job
            | None => Submit.Job.selected_model job
            end in
          lift (Submit.updateJobStatus env jobId processing None None) ;;
          try_catch
            (lift (Submit.pushJobToQueue
                     (Submit.JobMessage.mk jobId (Submit.Job.repo_url job)
                        selectedModel (Submit.now env))) ;;
             ret (mkResponse None
                    (Requeued jobId selectedModel processing
                       "Job re-queued for processing")))
            (fun error =>
               console_push (ErrorRequeue error) ;;
               lift (Submit.updateJobStatus env jobId failed None
                       (Some "Failed to re-queue job")) ;;
               ret (mkResponse (Some 500) (Failure "Failed to re-queue job")))
      | _ =>
          ret (mkResponse (Some 400)
                 (Failure "Only failed jobs can be retried"))
      end
  end.

End WithEnv.

(** The table, the work list and the answers to come, as a route sees
    them. *)
Definition table (w : World) : list Submit.Job.t := Submit.jobs (base w).

Definition work_list (w : World) : list Submit.JobMessage.t :=
  Submit.queue (base w).

Definition answers (w : World) : list bool := Submit.store_errors (base w).

(** The model a retry runs with. *)
Definition retry_model (model_id : option string) (job : Submit.Job.t)
  : string :=
  match model_id with
  | Some model_id =>
      if truthy model_id && Models.isValidModel model_id
      then model_id
      else Submit.Job.selected_model job
  | None => Submit.Job.selected_model job
  end.

(** [getJob] finds [job]: the store answers, with this one row. *)
Definition finds (jobId : string) (w : World) (job : Submit.Job.t) : Prop :=
  hd false (answers w) = false /\ rows_with jobId (table w) = [job].

(** What the client of the work list raises on a write. *)
Definition push_error (client : option bool) : JSError :=
  match client with
  | None => "Redis publisher not initialized. Call initRedis() first."
  | Some _ => "The client is closed"
  end.

(** A world at the start of a request. *)
Definition at_start (b : Submit.World) : World := mkWorld b [] [].

(** A job that waits on the work list. *)
Definition pending_row : Submit.Job.t :=
  Submit.Job.mk "j-1" "https://github.com/a/b" pending "gpt-4o" None None
    "2025-01-01T00:00:00.000000+00:00" "2025-01-01T00:00:00.000000+00:00".

Definition world_one_pending : Submit.World :=
  Submit.mkWorld [pending_row] [] [] (Some true)
    [Submit.JobMessage.mk "j-1" "https://github.com/a/b" "gpt-4o"
       "2025-01-01T00:00:00.000Z"] [] [].

(** The store with one failed job, and a client of Redis that takes no
    write. *)
Definition world_redis_closed_later : Submit.World :=
  Submit.mkWorld [Intake.old_row] [] [] (Some false) [] [] [].

End Desk.

(** * Properties *)

(** ** Sets and Maps *)

Module JSSetFacts.

Lemma has_In ws s : JSSet.has ws s = true <-> In ws s.
Proof.
  unfold JSSet.has. rewrite existsb_exists. split.
  - intros [x [Hx Heq]]. apply Nat.eqb_eq in Heq. now subst.
  - intros H. exists ws. split; [assumption | apply Nat.eqb_refl].
Qed.

Lemma has_false ws s : JSSet.has ws s = false <-> ~ In ws s.
Proof.
  rewrite <- has_In. destruct (JSSet.has ws s); split; congruence.
Qed.

Lemma In_add x ws s : In x (JSSet.add ws s) <-> x = ws \/ In x s.
Proof.
  unfold JSSet.add. destruct (JSSet.has ws s) eqn:E.
  - apply has_In in E. split; [tauto | intros [-> | H]; assumption].
  - rewrite in_app_iff. simpl. intuition congruence.
Qed.

Lemma NoDup_add ws s : NoDup s -> NoDup (JSSet.add ws s).
Proof.
  intros H. unfold JSSet.add. destruct (JSSet.has ws s) eqn:E; [assumption|].
  apply has_false in E.
  apply NoDup_app; [assumption | repeat constructor; simpl; tauto |].
  intros x Hx [-> | []]. contradiction.
Qed.

Lemma add_nonempty ws s : JSSet.add ws s <> [].
Proof.
  unfold JSSet.add. destruct (JSSet.has ws s) eqn:E.
  - apply has_In in E. destruct s; [contradiction | discriminate].
  - destruct s; discriminate.
Qed.

Lemma add_member ws s : In ws s -> JSSet.add ws s = s.
Proof.
  intros H. unfold JSSet.add. apply has_In in H. now rewrite H.
Qed.

Lemma add_add ws s : JSSet.add ws (JSSet.add ws s) = JSSet.add ws s.
Proof.
  apply add_member. apply In_add. now left.
Qed.

Lemma In_Set_delete x ws s : In x (JSSet.delete ws s) <-> In x s /\ x <> ws.
Proof.
  unfold JSSet.delete. rewrite filter_In, negb_true_iff, Nat.eqb_neq. tauto.
Qed.

Lemma NoDup_delete ws s : NoDup s -> NoDup (JSSet.delete ws s).
Proof.
  apply NoDup_filter.
Qed.

Lemma Set_delete_absent ws s : ~ In ws s -> JSSet.delete ws s = s.
Proof.
  intros H. unfold JSSet.delete.
  induction s as [|x s IH]; simpl; [reflexivity|].
  destruct (Nat.eqb_spec x ws) as [->|Hne]; simpl.
  - exfalso. apply H. now left.
  - f_equal. apply IH. intros Hin. apply H. now right.
Qed.

Lemma delete_delete ws s :
  JSSet.delete ws (JSSet.delete ws s) = JSSet.delete ws s.
Proof.
  apply Set_delete_absent. rewrite In_Set_delete. tauto.
Qed.

Lemma size_0 s : Nat.eqb (JSSet.size s) 0 = true <-> s = [].
Proof.
  unfold JSSet.size. destruct s; simpl; split; congruence.
Qed.

Lemma count_occ_NoDup_In (s : list WS) ws :
  NoDup s -> In ws s -> count_occ Nat.eq_dec s ws = 1.
Proof.
  intros Hnd Hin.
  pose proof (proj1 (NoDup_count_occ Nat.eq_dec s) Hnd ws) as Hle.
  pose proof (proj1 (count_occ_In Nat.eq_dec s ws) Hin) as Hgt.
  lia.
Qed.

End JSSetFacts.

Module JSMapFacts.

Section WithValue.

Context {V : Type}.

Implicit Types (m : JSMap.t V) (v : V).

Lemma get_In_keys k m : JSMap.get k m <> None <-> In k (JSMap.keys m).
Proof.
  induction m as [|[k' v] m IH]; simpl.
  - tauto.
  - destruct (String.eqb_spec k k') as [->|Hne].
    + split; [now left | discriminate].
    + rewrite IH. split; [now right | intros [H|H]; congruence].
Qed.

Lemma get_None_keys k m : JSMap.get k m = None <-> ~ In k (JSMap.keys m).
Proof.
  rewrite <- get_In_keys. destruct (JSMap.get k m); split; try congruence.
  intros H. exfalso. apply H. discriminate.
Qed.

Lemma get_Some_In k v m : JSMap.get k m = Some v -> In (k, v) m.
Proof.
  induction m as [|[k' v'] m IH]; simpl; [discriminate|].
  destruct (String.eqb_spec k k') as [->|Hne].
  - intros [= ->]. now left.
  - intros H. right. now apply IH.
Qed.

Lemma In_get k v m :
  NoDup (JSMap.keys m) -> In (k, v) m -> JSMap.get k m = Some v.
Proof.
  induction m as [|[k' v'] m IH]; simpl; [tauto|].
  intros Hnd [Heq | Hin].
  - inversion Heq; subst. now rewrite String.eqb_refl.
  - inversion Hnd as [|? ? Hnotin Hnd']; subst.
    destruct (String.eqb_spec k k') as [->|Hne].
    + exfalso. apply Hnotin. change k' with (fst (k', v)). now apply in_map.
    + now apply IH.
Qed.

Lemma get_set_same k v m : JSMap.get k (JSMap.set k v m) = Some v.
Proof.
  induction m as [|[k' v'] m IH]; simpl.
  - now rewrite String.eqb_refl.
  - destruct (String.eqb_spec k k') as [->|Hne]; simpl.
    + now rewrite String.eqb_refl.
    + destruct (String.eqb_spec k k'); [contradiction | assumption].
Qed.

Lemma get_set_other k k' v m :
  k' <> k -> JSMap.get k' (JSMap.set k v m) = JSMap.get k' m.
Proof.
  intros Hne. induction m as [|[k0 v0] m IH]; simpl.
  - destruct (String.eqb_spec k' k); [contradiction | reflexivity].
  - destruct (String.eqb_spec k k0) as [->|Hne0]; simpl.
    + destruct (String.eqb_spec k' k0); [contradiction | reflexivity].
    + destruct (String.eqb_spec k' k0); [reflexivity | assumption].
Qed.

Lemma set_same_value k v m : JSMap.get k m = Some v -> JSMap.set k v m = m.
Proof.
  induction m as [|[k' v'] m IH]; simpl; [discriminate|].
  destruct (String.eqb_spec k k') as [->|Hne].
  - now intros [= ->].
  - intros H. f_equal. now apply IH.
Qed.

Lemma set_set k v v' m :
  JSMap.set k v' (JSMap.set k v m) = JSMap.set k v' m.
Proof.
  induction m as [|[k0 v0] m IH]; simpl.
  - now rewrite String.eqb_refl.
  - destruct (String.eqb_spec k k0) as [->|Hne]; simpl.
    + now rewrite String.eqb_refl.
    + destruct (String.eqb_spec k k0); [contradiction | now f_equal].
Qed.

Lemma keys_set_present k v m :
  JSMap.get k m <> None -> JSMap.keys (JSMap.set k v m) = JSMap.keys m.
Proof.
  induction m as [|[k0 v0] m IH]; simpl; [congruence|].
  destruct (String.eqb_spec k k0) as [->|Hne]; simpl; [reflexivity|].
  intros H. f_equal. now apply IH.
Qed.

Lemma keys_set_absent k v m :
  JSMap.get k m = None -> JSMap.keys (JSMap.set k v m) = JSMap.keys m ++ [k].
Proof.
  induction m as [|[k0 v0] m IH]; simpl; [reflexivity|].
  destruct (String.eqb_spec k k0) as [->|Hne]; simpl; [discriminate|].
  intros H. f_equal. now apply IH.
Qed.

Lemma set_absent k v m :
  JSMap.get k m = None -> JSMap.set k v m = m ++ [(k, v)].
Proof.
  induction m as [|[k0 v0] m IH]; simpl; [reflexivity|].
  destruct (String.eqb_spec k k0) as [->|Hne]; simpl; [discriminate|].
  intros H. f_equal. now apply IH.
Qed.

Lemma In_set e k v m :
  In e (JSMap.set k v m) -> e = (k, v) \/ In e m.
Proof.
  induction m as [|[k0 v0] m IH]; simpl.
  - intros [H|[]]. now left.
  - destruct (String.eqb_spec k k0) as [->|Hne]; simpl.
    + intros [H|H]; [left; now symmetry | right; now right].
    + intros [H|H]; [right; now left|].
      destruct (IH H); [now left | right; now right].
Qed.

Lemma get_delete_same k m : JSMap.get k (JSMap.delete k m) = None.
Proof.
  apply get_None_keys. unfold JSMap.delete, JSMap.keys. rewrite in_map_iff.
  intros [[k' v] [Heq Hin]]. simpl in Heq. subst k'.
  apply filter_In in Hin. destruct Hin as [_ H]. simpl in H.
  now rewrite String.eqb_refl in H.
Qed.

Lemma get_delete_other k k' m :
  k' <> k -> JSMap.get k' (JSMap.delete k m) = JSMap.get k' m.
Proof.
  intros Hne. induction m as [|[k0 v0] m IH]; simpl; [reflexivity|].
  destruct (String.eqb_spec k0 k) as [->|Hne0]; simpl.
  - destruct (String.eqb_spec k' k); [contradiction | assumption].
  - destruct (String.eqb_spec k' k0); [reflexivity | assumption].
Qed.

Lemma Map_delete_absent k m : JSMap.get k m = None -> JSMap.delete k m = m.
Proof.
  induction m as [|[k0 v0] m IH]; simpl; [reflexivity|].
  destruct (String.eqb_spec k k0) as [->|Hne]; [discriminate|].
  intros H. destruct (String.eqb_spec k0 k); [congruence|]. simpl.
  f_equal. now apply IH.
Qed.

Lemma In_Map_delete e k m : In e (JSMap.delete k m) -> In e m.
Proof.
  unfold JSMap.delete. rewrite filter_In. tauto.
Qed.

Lemma keys_delete k m :
  JSMap.keys (JSMap.delete k m)
  = filter (fun k' => negb (String.eqb k' k)) (JSMap.keys m).
Proof.
  induction m as [|[k0 v0] m IH]; simpl; [reflexivity|].
  destruct (String.eqb k0 k); simpl; now rewrite IH.
Qed.

Lemma NoDup_keys_set k v m :
  NoDup (JSMap.keys m) -> NoDup (JSMap.keys (JSMap.set k v m)).
Proof.
  intros H. destruct (JSMap.get k m) eqn:E.
  - rewrite keys_set_present; [assumption | congruence].
  - rewrite keys_set_absent by assumption.
    apply NoDup_app; [assumption | repeat constructor; simpl; tauto |].
    intros x Hx [<- | []]. now apply get_None_keys in E.
Qed.

Lemma NoDup_keys_delete k m :
  NoDup (JSMap.keys m) -> NoDup (JSMap.keys (JSMap.delete k m)).
Proof.
  rewrite keys_delete. apply NoDup_filter.
Qed.

Lemma keys_app m1 m2 : JSMap.keys (m1 ++ m2) = JSMap.keys m1 ++ JSMap.keys m2.
Proof.
  apply map_app.
Qed.

Lemma get_app_absent k m1 m2 :
  ~ In k (JSMap.keys m1) -> JSMap.get k (m1 ++ m2) = JSMap.get k m2.
Proof.
  induction m1 as [|[k0 v0] m1 IH]; simpl; [reflexivity|].
  intros H. destruct (String.eqb_spec k k0) as [->|Hne].
  - exfalso. apply H. now left.
  - apply IH. intros Hin. apply H. now right.
Qed.

Lemma set_app_absent k v m1 m2 :
  ~ In k (JSMap.keys m1) -> JSMap.set k v (m1 ++ m2) = m1 ++ JSMap.set k v m2.
Proof.
  induction m1 as [|[k0 v0] m1 IH]; simpl; [reflexivity|].
  intros H. destruct (String.eqb_spec k k0) as [->|Hne].
  - exfalso. apply H. now left.
  - f_equal. apply IH. intros Hin. apply H. now right.
Qed.

Lemma delete_app k m1 m2 :
  JSMap.delete k (m1 ++ m2) = JSMap.delete k m1 ++ JSMap.delete k m2.
Proof.
  apply filter_app.
Qed.

Lemma delete_not_in_keys k m : ~ In k (JSMap.keys m) -> JSMap.delete k m = m.
Proof.
  intros H. apply Map_delete_absent. now apply get_None_keys.
Qed.

End WithValue.

End JSMapFacts.

(** ** The relay *)

Module RelayFacts.

Import Eff Relay.

(** *** What each call computes *)

Lemma sendMessage_run net ws message st :
  sendMessage net ws message st = (Normal tt, after_send net ws message st).
Proof.
  unfold sendMessage, try_catch, after_send, ws_send.
  destruct (Z.eqb (readyState net ws) 1); [|reflexivity].
  destruct (send_raises net ws message); reflexivity.
Qed.

Lemma after_send_jobSubscriptions net ws message st :
  jobSubscriptions (after_send net ws message st) = jobSubscriptions st.
Proof.
  unfold after_send. destruct (Z.eqb _ _); [|reflexivity].
  destruct (send_raises _ _ _); reflexivity.
Qed.

Lemma after_send_allConnections net ws message st :
  allConnections (after_send net ws message st) = allConnections st.
Proof.
  unfold after_send. destruct (Z.eqb _ _); [|reflexivity].
  destruct (send_raises _ _ _); reflexivity.
Qed.

Lemma after_send_wire net ws message st :
  wire (after_send net ws message st)
  = wire st ++ (if accepts net ws message then [(ws, message)] else []).
Proof.
  unfold after_send, accepts. destruct (Z.eqb _ _); simpl.
  - destruct (send_raises _ _ _); simpl; [now rewrite app_nil_r | reflexivity].
  - now rewrite app_nil_r.
Qed.

(** The state after [sendMessage] was called on each socket of [s] in
    turn. *)
Lemma Set_forEach_send_run net message s st :
  Set_forEach s (fun ws => sendMessage net ws message) st
  = (Normal tt, fold_left (fun st ws => after_send net ws message st) s st).
Proof.
  revert st. induction s as [|ws s IH]; intros st; simpl; [reflexivity|].
  unfold bind. rewrite sendMessage_run. apply IH.
Qed.

Lemma fold_send_jobSubscriptions net message s st :
  jobSubscriptions (fold_left (fun st ws => after_send net ws message st) s st)
  = jobSubscriptions st.
Proof.
  revert st. induction s as [|ws s IH]; intros st; simpl; [reflexivity|].
  rewrite IH. apply after_send_jobSubscriptions.
Qed.

Lemma fold_send_allConnections net message s st :
  allConnections (fold_left (fun st ws => after_send net ws message st) s st)
  = allConnections st.
Proof.
  revert st. induction s as [|ws s IH]; intros st; simpl; [reflexivity|].
  rewrite IH. apply after_send_allConnections.
Qed.

Lemma fold_send_wire net message s st :
  wire (fold_left (fun st ws => after_send net ws message st) s st)
  = wire st
    ++ map (fun ws => (ws, message))
           (filter (fun ws => accepts net ws message) s).
Proof.
  revert st. induction s as [|ws s IH]; intros st; simpl.
  - now rewrite app_nil_r.
  - rewrite IH, after_send_wire, <- app_assoc.
    destruct (accepts net ws message); reflexivity.
Qed.

Lemma broadcastToJob_run net jobId message st :
  broadcastToJob net jobId message st
  = (Normal tt,
     fold_left (fun st ws => after_send net ws message st)
               (observers jobId st) st).
Proof.
  unfold broadcastToJob, bind, gets, observers.
  destruct (JSMap.get jobId (jobSubscriptions st)).
  - apply Set_forEach_send_run.
  - reflexivity.
Qed.

Lemma subscribeToJob_run net ws jobId st :
  subscribeToJob net ws jobId st
  = (Normal tt,
     after_send net ws
       (WSOutgoingMessage.mk Tsubscribed (Some jobId) None
          (Some (String.append "Subscribed to job " jobId)))
       (with_jobSubscriptions
          (JSMap.set jobId (JSSet.add ws (observers jobId st))
             (jobSubscriptions st))
          st)).
Proof.
  unfold subscribeToJob, bind, gets, modify, observers, JSMap.has.
  destruct (JSMap.get jobId (jobSubscriptions st)) as [s|] eqn:E; simpl.
  - rewrite E. rewrite sendMessage_run. reflexivity.
  - rewrite JSMapFacts.get_set_same. rewrite sendMessage_run.
    unfold with_jobSubscriptions; simpl. now rewrite JSMapFacts.set_set.
Qed.

Lemma unsubscribeFromJob_run ws jobId st :
  unsubscribeFromJob ws jobId st
  = (Normal tt,
     with_jobSubscriptions (unsubscribed ws jobId (jobSubscriptions st)) st).
Proof.
  unfold unsubscribeFromJob, delete_from, unsubscribed, bind, gets, modify.
  destruct st as [m conns w c]; unfold with_jobSubscriptions; simpl.
  destruct (JSMap.get jobId m) as [s|]; [|reflexivity].
  destruct (Nat.eqb (JSSet.size (JSSet.delete ws s)) 0); reflexivity.
Qed.

Lemma purged_cons ws k v m :
  purged ws ((k, v) :: m)
  = if Nat.eqb (JSSet.size (JSSet.delete ws v)) 0
    then purged ws m
    else (k, JSSet.delete ws v) :: purged ws m.
Proof.
  unfold purged. simpl. destruct (Nat.eqb _ 0); reflexivity.
Qed.

Lemma delete_from_run ws subscribers jobId st :
  delete_from ws subscribers jobId st
  = (Normal tt,
     with_jobSubscriptions
       (if Nat.eqb (JSSet.size (JSSet.delete ws subscribers)) 0
        then JSMap.delete jobId
               (JSMap.set jobId (JSSet.delete ws subscribers)
                  (jobSubscriptions st))
        else JSMap.set jobId (JSSet.delete ws subscribers)
               (jobSubscriptions st))
       st).
Proof.
  unfold delete_from, bind, gets, modify.
  destruct st as [m conns w c]; unfold with_jobSubscriptions; simpl.
  destruct (Nat.eqb (JSSet.size (JSSet.delete ws subscribers)) 0); reflexivity.
Qed.

Lemma Map_forEach_from_cons k ks f st :
  Map_forEach_from (k :: ks) f st
  = match JSMap.get k (jobSubscriptions st) with
    | Some v =>
        match f v k st with
        | (Normal _, st') => Map_forEach_from ks f st'
        | (Throw e, st') => (Throw e, st')
        end
    | None => Map_forEach_from ks f st
    end.
Proof.
  cbn [Map_forEach_from]. unfold bind, gets.
  destruct (JSMap.get k (jobSubscriptions st)); [|reflexivity].
  destruct (f t k st) as [[a|e] st']; reflexivity.
Qed.

(** The loop of [cleanupConnection], started after the entries [pre] have had
    their turn. *)
Lemma Map_forEach_from_delete ws suf : forall pre conns w c,
  NoDup (JSMap.keys (pre ++ suf)) ->
  Map_forEach_from (JSMap.keys suf)
    (fun subscribers jobId => delete_from ws subscribers jobId)
    (mkState (pre ++ suf) conns w c)
  = (Normal tt, mkState (pre ++ purged ws suf) conns w c).
Proof.
  induction suf as [|[k v] suf IH]; intros pre conns w c Hnd.
  - reflexivity.
  - assert (Hk : ~ In k (JSMap.keys pre) /\ ~ In k (JSMap.keys suf)).
    { rewrite JSMapFacts.keys_app in Hnd. simpl in Hnd.
      apply NoDup_remove_2 in Hnd. rewrite in_app_iff in Hnd. tauto. }
    destruct Hk as [Hpre Hsuf].
    assert (Hnd' : NoDup (JSMap.keys (pre ++ suf))).
    { rewrite JSMapFacts.keys_app in *. simpl in Hnd.
      now apply NoDup_remove_1 in Hnd. }
    rewrite purged_cons.
    change (JSMap.keys ((k, v) :: suf)) with (k :: JSMap.keys suf).
    rewrite Map_forEach_from_cons. cbn [jobSubscriptions].
    rewrite JSMapFacts.get_app_absent by assumption.
    cbn [JSMap.get]. rewrite String.eqb_refl.
    rewrite delete_from_run. unfold with_jobSubscriptions.
    cbn [jobSubscriptions allConnections wire console].
    rewrite JSMapFacts.set_app_absent by assumption.
    cbn [JSMap.set]. rewrite String.eqb_refl.
    destruct (Nat.eqb (JSSet.size (JSSet.delete ws v)) 0) eqn:E.
    + rewrite JSMapFacts.delete_app.
      rewrite (JSMapFacts.delete_not_in_keys k pre) by assumption.
      unfold JSMap.delete at 1. cbn [filter fst]. rewrite String.eqb_refl.
      cbn [negb]. fold (JSMap.delete k suf).
      rewrite (JSMapFacts.delete_not_in_keys k suf) by assumption.
      apply IH. assumption.
    + change (pre ++ (k, JSSet.delete ws v) :: suf)
        with (pre ++ [(k, JSSet.delete ws v)] ++ suf).
      rewrite app_assoc.
      rewrite (IH (pre ++ [(k, JSSet.delete ws v)]) conns w c).
      * now rewrite <- app_assoc.
      * rewrite <- app_assoc. rewrite JSMapFacts.keys_app in *. exact Hnd.
Qed.

Lemma cleanupConnection_run ws st :
  NoDup (JSMap.keys (jobSubscriptions st)) ->
  cleanupConnection ws st
  = (Normal tt,
     mkState (purged ws (jobSubscriptions st))
             (JSSet.delete ws (allConnections st)) (wire st) (console st)).
Proof.
  intros Hnd. unfold cleanupConnection, Map_forEach.
  unfold bind at 1, gets at 1. unfold bind at 1, modify at 1.
  unfold bind at 1, gets at 1, with_allConnections.
  cbn [jobSubscriptions allConnections wire console].
  apply (Map_forEach_from_delete ws (jobSubscriptions st) []). exact Hnd.
Qed.

(** *** The Map after each call *)

Lemma keys_purged_incl ws k m :
  In k (JSMap.keys (purged ws m)) -> In k (JSMap.keys m).
Proof.
  induction m as [|[k0 v0] m IH]; [tauto|].
  rewrite purged_cons. destruct (Nat.eqb _ 0); simpl; intuition.
Qed.

Lemma get_purged ws k m :
  NoDup (JSMap.keys m) ->
  JSMap.get k (purged ws m)
  = match JSMap.get k m with
    | Some s =>
        if Nat.eqb (JSSet.size (JSSet.delete ws s)) 0
        then None else Some (JSSet.delete ws s)
    | None => None
    end.
Proof.
  induction m as [|[k0 v0] m IH]; intros Hnd; [reflexivity|].
  inversion Hnd as [|? ? Hnotin Hnd']; subst.
  rewrite purged_cons. cbn [JSMap.get].
  destruct (String.eqb_spec k k0) as [->|Hne].
  - destruct (Nat.eqb (JSSet.size (JSSet.delete ws v0)) 0) eqn:E.
    + apply JSMapFacts.get_None_keys. intros H.
      apply Hnotin. now apply keys_purged_incl in H.
    + cbn [JSMap.get]. now rewrite String.eqb_refl.
  - destruct (Nat.eqb (JSSet.size (JSSet.delete ws v0)) 0).
    + now apply IH.
    + cbn [JSMap.get]. destruct (String.eqb_spec k k0); [contradiction|].
      now apply IH.
Qed.

Lemma get_unsubscribed_same ws jobId m :
  JSMap.get jobId (unsubscribed ws jobId m)
  = match JSMap.get jobId m with
    | Some s =>
        if Nat.eqb (JSSet.size (JSSet.delete ws s)) 0
        then None else Some (JSSet.delete ws s)
    | None => None
    end.
Proof.
  unfold unsubscribed. destruct (JSMap.get jobId m) as [s|] eqn:E.
  - destruct (Nat.eqb _ 0).
    + apply JSMapFacts.get_delete_same.
    + apply JSMapFacts.get_set_same.
  - assumption.
Qed.

Lemma get_unsubscribed_other ws jobId k m :
  k <> jobId -> JSMap.get k (unsubscribed ws jobId m) = JSMap.get k m.
Proof.
  intros Hne. unfold unsubscribed. destruct (JSMap.get jobId m) as [s|] eqn:E.
  - destruct (Nat.eqb _ 0).
    + rewrite JSMapFacts.get_delete_other by assumption.
      now apply JSMapFacts.get_set_other.
    + now apply JSMapFacts.get_set_other.
  - reflexivity.
Qed.

(** *** The invariants *)

Lemma well_formed_set k v m :
  well_formed m -> NoDup v -> well_formed (JSMap.set k v m).
Proof.
  intros [Hk Hs] Hv. split.
  - now apply JSMapFacts.NoDup_keys_set.
  - apply Forall_forall. intros e He.
    apply JSMapFacts.In_set in He. destruct He as [-> | He]; [assumption|].
    rewrite Forall_forall in Hs. now apply Hs.
Qed.

Lemma well_formed_delete k m : well_formed m -> well_formed (JSMap.delete k m).
Proof.
  intros [Hk Hs]. split.
  - now apply JSMapFacts.NoDup_keys_delete.
  - apply Forall_forall. intros e He. apply JSMapFacts.In_Map_delete in He.
    rewrite Forall_forall in Hs. now apply Hs.
Qed.

Lemma well_formed_get k s m :
  well_formed m -> JSMap.get k m = Some s -> NoDup s.
Proof.
  intros [_ Hs] H. apply JSMapFacts.get_Some_In in H.
  rewrite Forall_forall in Hs. now apply (Hs (k, s)).
Qed.

Lemma no_empty_set_get k s m :
  no_empty_set m -> JSMap.get k m = Some s -> s <> [].
Proof.
  intros Hs H. apply JSMapFacts.get_Some_In in H.
  unfold no_empty_set in Hs. rewrite Forall_forall in Hs. now apply (Hs (k, s)).
Qed.

Lemma no_empty_set_set k v m :
  no_empty_set m -> v <> [] -> no_empty_set (JSMap.set k v m).
Proof.
  intros Hs Hv. apply Forall_forall. intros e He.
  apply JSMapFacts.In_set in He. destruct He as [-> | He]; [assumption|].
  unfold no_empty_set in Hs. rewrite Forall_forall in Hs. now apply Hs.
Qed.

Lemma well_formed_unsubscribed ws jobId m :
  well_formed m -> well_formed (unsubscribed ws jobId m).
Proof.
  intros Hwf. unfold unsubscribed.
  destruct (JSMap.get jobId m) as [s|] eqn:E; [|assumption].
  assert (Hs : NoDup (JSSet.delete ws s)).
  { apply JSSetFacts.NoDup_delete. eapply well_formed_get; eassumption. }
  destruct (Nat.eqb _ 0).
  - apply well_formed_delete. now apply well_formed_set.
  - now apply well_formed_set.
Qed.

Lemma no_empty_set_unsubscribed ws jobId m :
  no_empty_set m -> no_empty_set (unsubscribed ws jobId m).
Proof.
  intros Hne. unfold unsubscribed.
  destruct (JSMap.get jobId m) as [s|] eqn:E; [|assumption].
  destruct (Nat.eqb (JSSet.size (JSSet.delete ws s)) 0) eqn:Esz.
  - apply Forall_forall. intros [k v] He. simpl.
    unfold JSMap.delete in He. apply filter_In in He.
    destruct He as [He Hk]. simpl in Hk.
    apply JSMapFacts.In_set in He. destruct He as [He | He].
    + inversion He; subst. now rewrite String.eqb_refl in Hk.
    + unfold no_empty_set in Hne. rewrite Forall_forall in Hne.
      now apply (Hne (k, v)).
  - apply no_empty_set_set; [assumption|].
    intros H. apply JSSetFacts.size_0 in H. congruence.
Qed.

Lemma well_formed_purged ws m : well_formed m -> well_formed (purged ws m).
Proof.
  induction m as [|[k v] m IH]; intros [Hk Hs]; [split; constructor|].
  inversion Hk as [|? ? Hnotin Hk']; subst.
  inversion Hs as [|? ? Hv Hs']; subst. simpl in Hv.
  destruct (IH (conj Hk' Hs')) as [IHk IHs].
  rewrite purged_cons. destruct (Nat.eqb _ 0); [now split|].
  split.
  - simpl. constructor; [|assumption].
    intros H. apply Hnotin. now apply keys_purged_incl in H.
  - constructor; [|assumption]. simpl. now apply JSSetFacts.NoDup_delete.
Qed.

Lemma no_empty_set_purged ws m : no_empty_set (purged ws m).
Proof.
  apply Forall_forall. intros e He. unfold purged in He.
  apply filter_In in He. destruct He as [_ He].
  destruct e as [k v]. simpl in *. intros ->. discriminate.
Qed.

Lemma ws_close_run ws st :
  NoDup (JSMap.keys (jobSubscriptions st)) ->
  ws_close ws st
  = (Normal tt,
     mkState (purged ws (jobSubscriptions st))
             (JSSet.delete ws (allConnections st)) (wire st)
             (console st
              ++ [LogDisconnected
                    (JSSet.size (JSSet.delete ws (allConnections st)))])).
Proof.
  intros Hnd. unfold ws_close, bind.
  now rewrite cleanupConnection_run by assumption.
Qed.

Lemma ws_error_run ws error st :
  NoDup (JSMap.keys (jobSubscriptions st)) ->
  ws_error ws error st
  = (Normal tt,
     mkState (purged ws (jobSubscriptions st))
             (JSSet.delete ws (allConnections st)) (wire st)
             (console st ++ [ErrorWebSocket error])).
Proof.
  intros Hnd. unfold ws_error, bind, console_push, modify.
  now rewrite cleanupConnection_run by assumption.
Qed.

Lemma subscribeToJob_invariant net ws jobId st :
  well_formed (jobSubscriptions st) ->
  no_empty_set (jobSubscriptions st) ->
  well_formed (jobSubscriptions (snd (subscribeToJob net ws jobId st)))
  /\ no_empty_set (jobSubscriptions (snd (subscribeToJob net ws jobId st))).
Proof.
  intros Hwf Hne. rewrite subscribeToJob_run. cbn [snd].
  rewrite after_send_jobSubscriptions.
  cbn [with_jobSubscriptions jobSubscriptions]. split.
  - apply well_formed_set; [assumption|]. apply JSSetFacts.NoDup_add.
    unfold observers. destruct (JSMap.get jobId (jobSubscriptions st)) eqn:E.
    + eapply well_formed_get; eassumption.
    + constructor.
  - apply no_empty_set_set; [assumption | apply JSSetFacts.add_nonempty].
Qed.

Lemma unsubscribeFromJob_invariant ws jobId st :
  well_formed (jobSubscriptions st) ->
  no_empty_set (jobSubscriptions st) ->
  well_formed (jobSubscriptions (snd (unsubscribeFromJob ws jobId st)))
  /\ no_empty_set (jobSubscriptions (snd (unsubscribeFromJob ws jobId st))).
Proof.
  intros Hwf Hne. rewrite unsubscribeFromJob_run.
  cbn [snd with_jobSubscriptions jobSubscriptions].
  split; [now apply well_formed_unsubscribed
         | now apply no_empty_set_unsubscribed].
Qed.

(** Every call leaves the Map well formed and without an empty Set. *)
Lemma run_call_invariant net c st :
  well_formed (jobSubscriptions st) ->
  no_empty_set (jobSubscriptions st) ->
  well_formed (jobSubscriptions (exec (run_call net c) st))
  /\ no_empty_set (jobSubscriptions (exec (run_call net c) st)).
Proof.
  intros Hwf Hne. unfold exec.
  destruct c as [ws|ws message|ws|ws e|s|cm|ws j|ws j|ws]; cbn [run_call].
  - now split.
  - unfold ws_message.
    destruct (WSMessage.type message);
      [destruct (WSMessage.job_id message) as [j|];
       [destruct (truthy j)|]..|].
    + now apply subscribeToJob_invariant.
    + now split.
    + now split.
    + now apply unsubscribeFromJob_invariant.
    + now split.
    + now split.
    + rewrite sendMessage_run. cbn [snd].
      rewrite after_send_jobSubscriptions. now split.
  - rewrite ws_close_run by apply Hwf. cbn [snd jobSubscriptions].
    split; [now apply well_formed_purged | apply no_empty_set_purged].
  - rewrite ws_error_run by apply Hwf. cbn [snd jobSubscriptions].
    split; [now apply well_formed_purged | apply no_empty_set_purged].
  - unfold handleStatusUpdate. rewrite broadcastToJob_run. cbn [snd].
    rewrite fold_send_jobSubscriptions. now split.
  - unfold handleCompleteUpdate. rewrite broadcastToJob_run. cbn [snd].
    rewrite fold_send_jobSubscriptions. now split.
  - now apply subscribeToJob_invariant.
  - now apply unsubscribeFromJob_invariant.
  - rewrite cleanupConnection_run by apply Hwf. cbn [snd jobSubscriptions].
    split; [now apply well_formed_purged | apply no_empty_set_purged].
Qed.

Lemma reachable_invariant st :
  reachable st ->
  well_formed (jobSubscriptions st) /\ no_empty_set (jobSubscriptions st).
Proof.
  induction 1 as [|net c st Hr [Hwf Hne]].
  - split; [split|]; constructor.
  - now apply run_call_invariant.
Qed.

Lemma reachable_two_jobs : reachable two_jobs.
Proof.
  unfold two_jobs. repeat apply reachable_call. apply reachable_initial.
Qed.

Lemma skipn_length_app {A} (l d : list A) : skipn (List.length l) (l ++ d) = d.
Proof.
  induction l as [|x l IH]; [reflexivity | exact IH].
Qed.

Lemma sent_by_app {A} (c : M A) st d :
  wire (exec c st) = wire st ++ d -> sent_by c st = d.
Proof.
  intros H. unfold sent_by. rewrite H. apply skipn_length_app.
Qed.

(** *** The outbound send *)

(** C6. [sendMessage] always returns normally, whatever the state of the
    socket and whether or not the underlying send raises; and on a socket
    that is not open it changes nothing: no frame, no console line. *)
Theorem sendMessage_best_effort net ws message st :
  outcome (sendMessage net ws message) st = Normal tt
  /\ (readyState net ws <> 1%Z ->
      exec (sendMessage net ws message) st = st).
Proof.
  unfold outcome, exec. rewrite sendMessage_run. split; [reflexivity|].
  intros H. cbn [snd]. unfold after_send.
  destruct (Z.eqb_spec (readyState net ws) 1); [contradiction | reflexivity].
Qed.

Lemma sendMessage_best_effort_witness :
  readyState net_closing 7 <> 1%Z
  /\ exec (sendMessage net_closing 7 pong_frame) two_jobs = two_jobs
  /\ outcome (sendMessage net_broken 7 pong_frame) two_jobs = Normal tt.
Proof.
  split; [discriminate|]. split.
  - apply (proj2 (sendMessage_best_effort net_closing 7 pong_frame two_jobs)).
    discriminate.
  - apply (proj1 (sendMessage_best_effort net_broken 7 pong_frame two_jobs)).
Defined.

(** *** Subscribing *)

Lemma observers_subscribe net ws jobId st :
  observers jobId (exec (subscribeToJob net ws jobId) st)
  = JSSet.add ws (observers jobId st).
Proof.
  unfold exec. rewrite subscribeToJob_run. cbn [snd]. unfold observers at 1.
  rewrite after_send_jobSubscriptions.
  cbn [with_jobSubscriptions jobSubscriptions].
  now rewrite JSMapFacts.get_set_same.
Qed.

Lemma jobSubscriptions_subscribe net ws jobId st :
  jobSubscriptions (exec (subscribeToJob net ws jobId) st)
  = JSMap.set jobId (JSSet.add ws (observers jobId st)) (jobSubscriptions st).
Proof.
  unfold exec. rewrite subscribeToJob_run. cbn [snd].
  now rewrite after_send_jobSubscriptions.
Qed.

Lemma allConnections_subscribe net ws jobId st :
  allConnections (exec (subscribeToJob net ws jobId) st) = allConnections st.
Proof.
  unfold exec. rewrite subscribeToJob_run. cbn [snd].
  now rewrite after_send_allConnections.
Qed.

Lemma NoDup_observers jobId st :
  well_formed (jobSubscriptions st) -> NoDup (observers jobId st).
Proof.
  intros Hwf. unfold observers.
  destruct (JSMap.get jobId (jobSubscriptions st)) eqn:E.
  - eapply well_formed_get; eassumption.
  - constructor.
Qed.

(** C3. Subscribing the same socket to the same job a second time leaves the
    Map (and the connection set) as the first call left them; the socket
    then occurs exactly once in the job's Set, which is the singleton when
    nobody else, or only the socket itself, was subscribed; and a job
    without an entry gets one. *)
Theorem subscribe_idempotent net1 net2 ws jobId st :
  well_formed (jobSubscriptions st) ->
  let st1 := exec (subscribeToJob net1 ws jobId) st in
  let st2 := exec (subscribeToJob net2 ws jobId) st1 in
  jobSubscriptions st2 = jobSubscriptions st1
  /\ allConnections st2 = allConnections st1
  /\ count_occ Nat.eq_dec (observers jobId st2) ws = 1
  /\ ((observers jobId st = [] \/ observers jobId st = [ws]) ->
      observers jobId st2 = [ws] /\ JSSet.size (observers jobId st2) = 1)
  /\ (JSMap.has jobId (jobSubscriptions st) = false ->
      JSMap.has jobId (jobSubscriptions st1) = true
      /\ observers jobId st1 = [ws]).
Proof.
  intros Hwf st1 st2. subst st2 st1.
  assert (Hobs : observers jobId
                   (exec (subscribeToJob net2 ws jobId)
                      (exec (subscribeToJob net1 ws jobId) st))
                 = JSSet.add ws (observers jobId st)).
  { rewrite !observers_subscribe. apply JSSetFacts.add_add. }
  repeat split.
  - rewrite (jobSubscriptions_subscribe net2).
    apply JSMapFacts.set_same_value.
    rewrite observers_subscribe, JSSetFacts.add_add.
    rewrite jobSubscriptions_subscribe. apply JSMapFacts.get_set_same.
  - now rewrite !allConnections_subscribe.
  - rewrite Hobs. apply JSSetFacts.count_occ_NoDup_In.
    + apply JSSetFacts.NoDup_add. now apply NoDup_observers.
    + apply JSSetFacts.In_add. now left.
  - rewrite Hobs. destruct H as [-> | ->]; [reflexivity|].
    unfold JSSet.add, JSSet.has. simpl. now rewrite Nat.eqb_refl.
  - rewrite Hobs. destruct H as [-> | ->]; [reflexivity|].
    unfold JSSet.add, JSSet.has. simpl. now rewrite Nat.eqb_refl.
  - rewrite jobSubscriptions_subscribe. unfold JSMap.has.
    now rewrite JSMapFacts.get_set_same.
  - rewrite observers_subscribe. unfold observers, JSMap.has in *.
    destruct (JSMap.get jobId (jobSubscriptions st)); [discriminate|].
    reflexivity.
Qed.

Lemma well_formed_two_jobs : well_formed (jobSubscriptions two_jobs).
Proof.
  apply reachable_invariant, reachable_two_jobs.
Qed.

Lemma subscribe_idempotent_witness :
  well_formed (jobSubscriptions two_jobs)
  /\ jobSubscriptions
       (exec (subscribeToJob net_closing 9 "J3")
          (exec (subscribeToJob net_open 9 "J3") two_jobs))
     = jobSubscriptions (exec (subscribeToJob net_open 9 "J3") two_jobs).
Proof.
  split; [exact well_formed_two_jobs|].
  apply (subscribe_idempotent net_open net_closing 9 "J3" two_jobs).
  exact well_formed_two_jobs.
Defined.

(** C10. [subscribeToJob] puts the socket into the job's Set whatever its
    [readyState]; only the [subscribed] acknowledgment depends on the socket:
    it is the one frame sent when the socket is open and the send goes
    through, and for a socket that is not open nothing is sent or logged.
    The state with the closed socket in the registry is a reachable one. *)
Theorem subscribe_registers_closed_socket net ws jobId st :
  let st' := exec (subscribeToJob net ws jobId) st in
  outcome (subscribeToJob net ws jobId) st = Normal tt
  /\ In ws (observers jobId st')
  /\ sent_by (subscribeToJob net ws jobId) st
     = (if accepts net ws (subscribed_frame jobId)
        then [(ws, subscribed_frame jobId)] else [])
  /\ (readyState net ws <> 1%Z ->
      wire st' = wire st /\ console st' = console st)
  /\ (reachable st -> reachable st').
Proof.
  intros st'. subst st'. repeat split.
  - unfold outcome. now rewrite subscribeToJob_run.
  - rewrite observers_subscribe. apply JSSetFacts.In_add. now left.
  - apply sent_by_app. unfold exec. rewrite subscribeToJob_run. cbn [snd].
    now rewrite after_send_wire.
  - unfold exec. rewrite subscribeToJob_run. cbn [snd]. unfold after_send.
    destruct (Z.eqb_spec (readyState net ws) 1); [contradiction | reflexivity].
  - unfold exec. rewrite subscribeToJob_run. cbn [snd]. unfold after_send.
    destruct (Z.eqb_spec (readyState net ws) 1); [contradiction | reflexivity].
  - intros Hr. apply (reachable_call net (CallSubscribe ws jobId) st Hr).
Qed.

Lemma subscribe_registers_closed_socket_witness :
  readyState net_closing 9 <> 1%Z
  /\ reachable two_jobs
  /\ In 9 (observers "J1" (exec (subscribeToJob net_closing 9 "J1") two_jobs))
  /\ wire (exec (subscribeToJob net_closing 9 "J1") two_jobs) = wire two_jobs
  /\ reachable (exec (subscribeToJob net_closing 9 "J1") two_jobs).
Proof.
  pose proof (subscribe_registers_closed_socket net_closing 9 "J1" two_jobs)
    as (_ & Hin & _ & Hquiet & Hreach).
  split; [discriminate|].
  split; [exact reachable_two_jobs|].
  split; [exact Hin|].
  split; [apply Hquiet; discriminate|].
  apply Hreach. exact reachable_two_jobs.
Defined.

(** *** The invariant of the registry *)

Lemma has_observers jobId st :
  no_empty_set (jobSubscriptions st) ->
  (JSMap.has jobId (jobSubscriptions st) = true <-> observers jobId st <> []).
Proof.
  intros Hne. unfold JSMap.has, observers.
  destruct (JSMap.get jobId (jobSubscriptions st)) as [s|] eqn:E.
  - split; [|reflexivity]. intros _. eapply no_empty_set_get; eassumption.
  - split; [discriminate | congruence].
Qed.

Lemma observers_unsubscribe ws jobId st :
  observers jobId (exec (unsubscribeFromJob ws jobId) st)
  = JSSet.delete ws (observers jobId st).
Proof.
  unfold exec. rewrite unsubscribeFromJob_run. cbn [snd]. unfold observers.
  cbn [with_jobSubscriptions jobSubscriptions].
  rewrite get_unsubscribed_same.
  destruct (JSMap.get jobId (jobSubscriptions st)) as [s|]; [|reflexivity].
  destruct (Nat.eqb (JSSet.size (JSSet.delete ws s)) 0) eqn:E; [|reflexivity].
  apply JSSetFacts.size_0 in E. now rewrite E.
Qed.

(** C2. In every reachable state a job id is a key of the Map exactly when
    its Set of observers is not empty; and when [unsubscribeFromJob] takes
    the last observer out of a job's Set, the job id is no longer a key. *)
Theorem registry_has_no_dangling_key st :
  reachable st ->
  (forall jobId,
      JSMap.has jobId (jobSubscriptions st) = true
      <-> observers jobId st <> [])
  /\ (forall ws jobId,
         JSSet.delete ws (observers jobId st) = [] ->
         JSMap.has jobId
           (jobSubscriptions (exec (unsubscribeFromJob ws jobId) st))
         = false).
Proof.
  intros Hr. split.
  - intros jobId. apply has_observers. now apply reachable_invariant.
  - intros ws jobId Hempty.
    pose proof (observers_unsubscribe ws jobId st) as Hobs.
    rewrite Hempty in Hobs.
    assert (Hr' : reachable (exec (unsubscribeFromJob ws jobId) st))
      by apply (reachable_call net_open (CallUnsubscribe ws jobId) st Hr).
    apply reachable_invariant in Hr'. destruct Hr' as [_ Hne].
    pose proof (has_observers jobId _ Hne) as Hiff.
    destruct (JSMap.has jobId _); [|reflexivity].
    exfalso. now apply (proj1 Hiff).
Qed.

Lemma registry_has_no_dangling_key_witness :
  reachable two_jobs
  /\ JSSet.delete 7 (observers "J2" two_jobs) = []
  /\ JSMap.has "J2"
       (jobSubscriptions (exec (unsubscribeFromJob 7 "J2") two_jobs))
     = false.
Proof.
  split; [exact reachable_two_jobs|]. split; [reflexivity|].
  apply (proj2 (registry_has_no_dangling_key two_jobs reachable_two_jobs)).
  reflexivity.
Defined.

(** *** Unsubscribing somebody who is not subscribed *)

(** C8. In a reachable state, [unsubscribeFromJob] for a job without an entry,
    or for a socket that is not in the job's Set, returns normally and leaves
    the whole state as it was: the Map and the connection set are unchanged
    and nothing is sent. The [unsubscribe] message of a client does the
    same. *)
Theorem unsubscribe_of_non_member_is_noop net ws jobId st :
  reachable st ->
  JSMap.get jobId (jobSubscriptions st) = None
  \/ ~ In ws (observers jobId st) ->
  outcome (unsubscribeFromJob ws jobId) st = Normal tt
  /\ exec (unsubscribeFromJob ws jobId) st = st
  /\ sent_by (unsubscribeFromJob ws jobId) st = []
  /\ exec (ws_message net ws (WSMessage.mk Munsubscribe (Some jobId))) st = st.
Proof.
  intros Hr Hcase.
  assert (Hrun : unsubscribeFromJob ws jobId st = (Normal tt, st)).
  { rewrite unsubscribeFromJob_run. f_equal.
    destruct st as [m conns w c]. unfold with_jobSubscriptions. simpl.
    f_equal. unfold unsubscribed. unfold observers in Hcase.
    cbn [jobSubscriptions] in Hcase.
    destruct (JSMap.get jobId m) as [s|] eqn:E; [|reflexivity].
    destruct Hcase as [Hcase | Hcase]; [discriminate|].
    rewrite (JSSetFacts.Set_delete_absent ws s Hcase).
    apply reachable_invariant in Hr. destruct Hr as [_ Hne]. simpl in Hne.
    pose proof (no_empty_set_get jobId s m Hne E) as Hs.
    destruct (Nat.eqb (JSSet.size s) 0) eqn:Esz.
    - apply JSSetFacts.size_0 in Esz. contradiction.
    - now apply JSMapFacts.set_same_value. }
  unfold outcome, exec, sent_by, exec. rewrite Hrun. cbn [fst snd].
  repeat split.
  - replace (wire st) with (wire st ++ []) at 2 by apply app_nil_r.
    apply skipn_length_app.
  - unfold ws_message. cbn [WSMessage.type WSMessage.job_id].
    destruct (truthy jobId); [now rewrite Hrun | reflexivity].
Qed.

Lemma unsubscribe_of_non_member_is_noop_witness :
  reachable two_jobs
  /\ ~ In 5 (observers "J2" two_jobs)
  /\ exec (unsubscribeFromJob 5 "J2") two_jobs = two_jobs.
Proof.
  assert (H : ~ In 5 (observers "J2" two_jobs)).
  { simpl. intros [H | []]. discriminate. }
  split; [exact reachable_two_jobs|]. split; [exact H|].
  apply (unsubscribe_of_non_member_is_noop net_open 5 "J2" two_jobs
           reachable_two_jobs (or_intror H)).
Defined.

(** *** Cleaning up after a connection *)

Lemma observers_cleanup ws jobId st :
  NoDup (JSMap.keys (jobSubscriptions st)) ->
  observers jobId (exec (cleanupConnection ws) st)
  = JSSet.delete ws (observers jobId st).
Proof.
  intros Hnd. unfold exec. rewrite cleanupConnection_run by assumption.
  cbn [snd]. unfold observers. cbn [jobSubscriptions].
  rewrite get_purged by assumption.
  destruct (JSMap.get jobId (jobSubscriptions st)) as [s|]; [|reflexivity].
  destruct (Nat.eqb (JSSet.size (JSSet.delete ws s)) 0) eqn:E; [|reflexivity].
  apply JSSetFacts.size_0 in E. now rewrite E.
Qed.

Lemma purged_noop ws m :
  no_empty_set m ->
  (forall e, In e m -> ~ In ws (snd e)) ->
  purged ws m = m.
Proof.
  induction m as [|[k v] m IH]; intros Hne Hout; [reflexivity|].
  inversion Hne as [|? ? Hv Hne']; subst. simpl in Hv.
  rewrite purged_cons.
  rewrite (JSSetFacts.Set_delete_absent ws v)
    by (apply (Hout (k, v)); now left).
  destruct (Nat.eqb (JSSet.size v) 0) eqn:E.
  - apply JSSetFacts.size_0 in E. contradiction.
  - f_equal. apply IH; [assumption|]. intros e He. apply Hout. now right.
Qed.

Lemma purged_members ws m e : In e (purged ws m) -> ~ In ws (snd e).
Proof.
  unfold purged. rewrite filter_In, in_map_iff.
  intros [[[k v] [<- _]] _]. simpl. rewrite JSSetFacts.In_Set_delete. tauto.
Qed.

Lemma purged_purged ws m : purged ws (purged ws m) = purged ws m.
Proof.
  apply purged_noop; [apply no_empty_set_purged|].
  intros e. apply purged_members.
Qed.

(** C5. One call of [cleanupConnection] returns normally, takes the socket
    out of the Set of every job (the other observers stay, in their order),
    and leaves a job id as a key exactly when somebody else is still
    subscribed to it; for a socket with no subscription the Map is left as it
    was. The [close] handler leaves the same Map. *)
Theorem cleanup_removes_observer_everywhere ws st :
  reachable st ->
  let st' := exec (cleanupConnection ws) st in
  outcome (cleanupConnection ws) st = Normal tt
  /\ (forall jobId,
         observers jobId st' = JSSet.delete ws (observers jobId st))
  /\ (forall jobId, ~ In ws (observers jobId st'))
  /\ (forall jobId,
         JSMap.has jobId (jobSubscriptions st') = true
         <-> JSSet.delete ws (observers jobId st) <> [])
  /\ ((forall jobId, ~ In ws (observers jobId st)) ->
      jobSubscriptions st' = jobSubscriptions st)
  /\ jobSubscriptions (exec (ws_close ws) st) = jobSubscriptions st'.
Proof.
  intros Hr st'. subst st'.
  destruct (reachable_invariant st Hr) as [[Hnd Hsets] Hne].
  assert (Hobs : forall jobId,
             observers jobId (exec (cleanupConnection ws) st)
             = JSSet.delete ws (observers jobId st))
    by (intros; now apply observers_cleanup).
  split; [|split; [|split; [|split; [|split]]]].
  - unfold outcome. now rewrite cleanupConnection_run.
  - exact Hobs.
  - intros jobId. rewrite Hobs, JSSetFacts.In_Set_delete. tauto.
  - intros jobId. rewrite <- Hobs. apply has_observers.
    unfold exec. rewrite cleanupConnection_run by assumption.
    apply no_empty_set_purged.
  - intros Hout. unfold exec. rewrite cleanupConnection_run by assumption.
    cbn [snd jobSubscriptions]. apply purged_noop; [assumption|].
    intros [k v] He. simpl. specialize (Hout k). unfold observers in Hout.
    now rewrite (JSMapFacts.In_get k v _ Hnd He) in Hout.
  - unfold exec, ws_close, bind, gets, console_push, modify.
    rewrite cleanupConnection_run by assumption. reflexivity.
Qed.

Lemma cleanup_removes_observer_everywhere_witness :
  reachable two_jobs
  /\ observers "J1" (exec (cleanupConnection 7) two_jobs) = [5]
  /\ JSMap.has "J2" (jobSubscriptions (exec (cleanupConnection 7) two_jobs))
     = false.
Proof.
  pose proof (cleanup_removes_observer_everywhere 7 two_jobs
                reachable_two_jobs) as (_ & Hobs & _ & Hhas & _).
  split; [exact reachable_two_jobs|]. split.
  - rewrite Hobs. reflexivity.
  - specialize (Hhas "J2").
    destruct (JSMap.has "J2" _); [|reflexivity].
    exfalso. apply (proj1 Hhas eq_refl). reflexivity.
Defined.

(** C9. Cleaning up after the same socket a second time changes nothing:
    the Map, the connection set, the wire and the console are as the first
    cleanup left them. So when both the [close] and the [error] handler of a
    connection run, in either order, the Map and the connection set are those
    left by the first of them. *)
Theorem cleanup_idempotent ws error st :
  well_formed (jobSubscriptions st) ->
  let st1 := exec (cleanupConnection ws) st in
  exec (cleanupConnection ws) st1 = st1
  /\ (let st2 := exec (ws_error ws error) (exec (ws_close ws) st) in
      jobSubscriptions st2 = jobSubscriptions (exec (ws_close ws) st)
      /\ allConnections st2 = allConnections (exec (ws_close ws) st))
  /\ (let st2 := exec (ws_close ws) (exec (ws_error ws error) st) in
      jobSubscriptions st2 = jobSubscriptions (exec (ws_error ws error) st)
      /\ allConnections st2 = allConnections (exec (ws_error ws error) st)).
Proof.
  intros [Hnd Hsets].
  assert (Hnd' : NoDup (JSMap.keys (purged ws (jobSubscriptions st))))
    by (apply well_formed_purged; now split).
  cbv zeta. unfold exec.
  rewrite (cleanupConnection_run ws st), (ws_close_run ws st),
    (ws_error_run ws error st) by assumption.
  cbn [snd].
  rewrite cleanupConnection_run, ws_close_run, ws_error_run
    by (cbn [jobSubscriptions]; assumption).
  cbn [snd jobSubscriptions allConnections wire console].
  rewrite purged_purged, JSSetFacts.delete_delete. repeat split.
Qed.

Lemma cleanup_idempotent_witness :
  well_formed (jobSubscriptions two_jobs)
  /\ exec (cleanupConnection 7) (exec (cleanupConnection 7) two_jobs)
     = exec (cleanupConnection 7) two_jobs.
Proof.
  split; [exact well_formed_two_jobs|].
  apply (cleanup_idempotent 7 "ECONNRESET" two_jobs well_formed_two_jobs).
Defined.

(** *** Forwarding a bus event *)

Lemma count_frames_fanout ws ty jobId message l :
  WSOutgoingMessage.type message = ty ->
  WSOutgoingMessage.job_id message = Some jobId ->
  count_frames ws ty jobId (map (fun w => (w, message)) l)
  = count_occ Nat.eq_dec l ws.
Proof.
  intros Hty Hjob. unfold count_frames, job_id_is.
  induction l as [|w l IH]; [reflexivity|].
  cbn [map filter fst snd count_occ]. rewrite Hty, Hjob, String.eqb_refl.
  assert (Hrefl : WSOutgoingType_eqb ty ty = true)
    by (destruct ty; reflexivity).
  rewrite Hrefl, !andb_true_r.
  destruct (Nat.eq_dec w ws) as [->|Hne].
  - rewrite Nat.eqb_refl. simpl. now rewrite IH.
  - destruct (Nat.eqb_spec w ws); [contradiction | assumption].
Qed.

Lemma count_occ_filter_NoDup (p : WS -> bool) s ws :
  NoDup s ->
  count_occ Nat.eq_dec (filter p s) ws
  = if JSSet.has ws s && p ws then 1 else 0.
Proof.
  intros Hnd.
  destruct (JSSet.has ws s && p ws) eqn:E.
  - apply andb_true_iff in E. destruct E as [Hin Hp].
    apply JSSetFacts.has_In in Hin.
    apply JSSetFacts.count_occ_NoDup_In; [now apply NoDup_filter|].
    apply filter_In. now split.
  - apply count_occ_not_In. rewrite filter_In. intros [Hin Hp].
    apply JSSetFacts.has_In in Hin. rewrite Hin, Hp in E. discriminate.
Qed.

Lemma broadcastToJob_sent net jobId message st :
  sent_by (broadcastToJob net jobId message) st
  = map (fun ws => (ws, message))
        (filter (fun ws => accepts net ws message) (observers jobId st)).
Proof.
  apply sent_by_app. unfold exec. rewrite broadcastToJob_run. cbn [snd].
  apply fold_send_wire.
Qed.

(** C1, as the code has it. A status event for job J makes the relay call
    [sendMessage] once for each observer in J's Set, in insertion order; a
    frame goes out for those whose socket is open and whose send does not
    raise. So each observer registered for J with such a socket gets exactly
    one [status] frame naming J, an observer registered for J whose socket is
    not open gets none, and so does every socket that is not registered for
    J. The Map is left as it was. *)
Theorem status_forwarded_to_open_observers net status st :
  reachable st ->
  let jobId := StatusMessage.job_id status in
  let frames := sent_by (handleStatusUpdate net status) st in
  outcome (handleStatusUpdate net status) st = Normal tt
  /\ exec (handleStatusUpdate net status) st
     = fold_left (fun st ws => after_send net ws (status_frame status) st)
                 (observers jobId st) st
  /\ frames
     = map (fun ws => (ws, status_frame status))
           (filter (fun ws => accepts net ws (status_frame status))
                   (observers jobId st))
  /\ (forall ws,
         count_frames ws Tstatus jobId frames
         = if JSSet.has ws (observers jobId st)
              && accepts net ws (status_frame status)
           then 1 else 0)
  /\ jobSubscriptions (exec (handleStatusUpdate net status) st)
     = jobSubscriptions st.
Proof.
  intros Hr jobId frames. subst jobId frames.
  apply reachable_invariant in Hr. destruct Hr as [Hwf _].
  unfold handleStatusUpdate. fold (status_frame status).
  rewrite broadcastToJob_sent.
  split; [|split; [|split; [|split]]].
  - unfold outcome. now rewrite broadcastToJob_run.
  - unfold exec. now rewrite broadcastToJob_run.
  - reflexivity.
  - intros ws.
    rewrite (count_frames_fanout ws Tstatus (StatusMessage.job_id status))
      by reflexivity.
    apply count_occ_filter_NoDup. now apply NoDup_observers.
  - unfold exec. rewrite broadcastToJob_run. cbn [snd].
    apply fold_send_jobSubscriptions.
Qed.

Lemma status_forwarded_to_open_observers_witness :
  reachable two_jobs
  /\ count_frames 5 Tstatus "J1"
       (sent_by (handleStatusUpdate net_7_closed progress_event) two_jobs)
     = 1
  /\ count_frames 7 Tstatus "J1"
       (sent_by (handleStatusUpdate net_7_closed progress_event) two_jobs)
     = 0.
Proof.
  pose proof (status_forwarded_to_open_observers net_7_closed progress_event
                two_jobs reachable_two_jobs) as (_ & _ & _ & Hcount & _).
  split; [exact reachable_two_jobs|]. split.
  - etransitivity; [exact (Hcount 5) | reflexivity].
  - etransitivity; [exact (Hcount 7) | reflexivity].
Defined.

(** C1, as stated, fails: socket 7 is registered for J1 in a reachable state,
    its connection has closed and its [close] handler has not run yet; the
    status event for J1 puts no frame for it on the wire. *)
Lemma status_not_forwarded_to_closed_observer :
  reachable two_jobs
  /\ In 7 (observers "J1" two_jobs)
  /\ count_frames 7 Tstatus "J1"
       (sent_by (handleStatusUpdate net_7_closed progress_event) two_jobs)
     = 0.
Proof.
  split; [exact reachable_two_jobs|]. split.
  - simpl. tauto.
  - reflexivity.
Qed.

End RelayFacts.



(** ** Submitting a job *)

Module SubmitFacts.

Import Eff Submit.

(** The world after the store has taken a request. *)
Lemma store_request_run r w :
  store_request r w
  = (Normal (hd false (store_errors w)),
     mkWorld (jobs w) (tl (store_errors w)) (store_requests w ++ [r])
             (publisherClient w) (queue w) (published w) (console w)).
Proof.
  reflexivity.
Qed.

Lemma getDefaultModel_id :
  exists m, Models.getDefaultModel = Some m /\ Models.id m = "gpt-4o-mini".
Proof.
  eexists. split; reflexivity.
Qed.

(** A failed write to the bus leaves the list, the channels and the store
    alone, and raises. *)
Lemma pushJobToQueue_raises job w :
  publisherClient w <> Some true ->
  exists e, pushJobToQueue job w = (Throw e, w).
Proof.
  intros H. unfold pushJobToQueue, getPublisher, bind, gets, throw.
  destruct (publisherClient w) as [[|]|]; [congruence | |];
    eexists; reflexivity.
Qed.

Lemma updated_rows env jobId status result message js j :
  In j (map (fun j => if String.eqb (Job.id j) jobId
                      then updated env status result (Some message) j
                      else j) js) ->
  Job.id j = jobId ->
  truthy message = true ->
  Job.status j = status /\ Job.error_message j = Some message.
Proof.
  intros Hin Hid Htruthy. apply in_map_iff in Hin.
  destruct Hin as [j0 [Hj0 _]].
  destruct (String.eqb_spec (Job.id j0) jobId) as [Heq|Hne].
  - subst j. unfold updated. simpl. now rewrite Htruthy.
  - subst j. contradiction.
Qed.

Lemma updateJobStatus_run env jobId status result errorMessage w :
  updateJobStatus env jobId status result errorMessage w
  = let r := Update jobId status result
               (match errorMessage with
                | Some e => if truthy e then Some e else None
                | None => None
                end) in
    if hd false (store_errors w)
    then (Normal false,
          mkWorld (jobs w) (tl (store_errors w)) (store_requests w ++ [r])
                  (publisherClient w) (queue w) (published w)
                  (console w ++ [ErrorUpdatingJob]))
    else (Normal true,
          mkWorld (map (fun j => if String.eqb (Job.id j) jobId
                                 then updated env status result errorMessage j
                                 else j) (jobs w))
                  (tl (store_errors w)) (store_requests w ++ [r])
                  (publisherClient w) (queue w) (published w) (console w)).
Proof.
  unfold updateJobStatus, bind. rewrite store_request_run.
  destruct (hd false (store_errors w)); reflexivity.
Qed.

Lemma createJob_run env repoUrl selectedModel w :
  createJob env repoUrl selectedModel w
  = let r := Insert repoUrl pending selectedModel in
    let data := Job.mk (gen_random_uuid env) repoUrl pending selectedModel
                       None None (store_now env) (store_now env) in
    if hd false (store_errors w)
    then (Normal None,
          mkWorld (jobs w) (tl (store_errors w)) (store_requests w ++ [r])
                  (publisherClient w) (queue w) (published w)
                  (console w ++ [ErrorCreatingJob]))
    else (Normal (Some data),
          mkWorld (jobs w ++ [data]) (tl (store_errors w))
                  (store_requests w ++ [r])
                  (publisherClient w) (queue w) (published w) (console w)).
Proof.
  unfold createJob, bind. rewrite store_request_run.
  destruct (hd false (store_errors w)); reflexivity.
Qed.

(** The handler once the URL has passed and a model has been chosen. *)
Lemma post_repos_valid env body w :
  isValidRepoUrl (repo_url body) = true ->
  exists selectedModel,
    post_repos env body w
    = bind (createJob env (repo_url body) selectedModel)
        (fun job =>
           match job with
           | None =>
               ret (mkResponse (Some 500) (Failure "Failed to create job"))
           | Some job =>
               updateJobStatus env (Job.id job) processing None None ;;
               try_catch
                 (pushJobToQueue
                    (JobMessage.mk (Job.id job) (repo_url body) selectedModel
                       (now env)) ;;
                  ret (mkResponse None
                         (Queued (Job.id job) (repo_url body)
                            (extractRepoName (repo_url body)) selectedModel
                            processing "Repository queued for analysis")))
                 (fun error =>
                    console_push (ErrorPublish error) ;;
                    updateJobStatus env (Job.id job) failed None
                      (Some "Failed to queue job") ;;
                    ret (mkResponse (Some 500)
                           (Failure "Failed to queue job for processing")))
           end) w.
Proof.
  intros Hvalid. unfold post_repos. rewrite Hvalid. cbn [negb].
  destruct getDefaultModel_id as [m [Hm _]]. rewrite Hm.
  destruct (model_id body) as [mid|];
    [destruct (truthy mid && Models.isValidModel mid)|];
    eexists; reflexivity.
Qed.

Ltac world_simpl :=
  cbn [jobs store_errors store_requests publisherClient queue published
       console fst snd Job.id].

Ltac world_simpl_in H :=
  cbn [jobs store_errors store_requests publisherClient queue published
       console fst snd Job.id] in H.

Lemma nth_2_hd {A} (l : list A) d : nth 2 l d = hd d (tl (tl l)).
Proof.
  destruct l as [|a [|b [|c l]]]; reflexivity.
Qed.

(** C4. When the write to the work list raises (no client, or a client that
    takes no write) for a job that the store has created, the handler
    returns normally with status 500 and an error answer; the requests it
    put to the store end with the update of the job to [failed] with the
    message [Failed to queue job]; when the store accepts that update, the
    row of the job is in status [failed] with this message, which is not
    empty; and the work list and the channels are as they were, so nothing
    was published for the job. *)
Theorem enqueue_failure_marks_job_failed env body w :
  isValidRepoUrl (repo_url body) = true ->
  hd false (store_errors w) = false ->
  publisherClient w <> Some true ->
  let jobId := gen_random_uuid env in
  let w' := exec (post_repos env body) w in
  outcome (post_repos env body) w
  = Normal (mkResponse (Some 500)
              (Failure "Failed to queue job for processing"))
  /\ (exists selectedModel,
         requested_by (post_repos env body) w
         = [ Insert (repo_url body) pending selectedModel;
             Update jobId processing None None;
             Update jobId failed None (Some "Failed to queue job") ])
  /\ (nth 2 (store_errors w) false = false ->
      (exists j, In j (jobs w') /\ Job.id j = jobId)
      /\ (forall j, In j (jobs w') -> Job.id j = jobId ->
                    Job.status j = failed
                    /\ Job.error_message j = Some "Failed to queue job"))
  /\ truthy "Failed to queue job" = true
  /\ queue w' = queue w
  /\ published w' = published w
  /\ events_of jobId w' = events_of jobId w.
Proof.
  intros Hvalid Hcreated Hbus jobId w'. subst jobId w'.
  destruct (post_repos_valid env body w Hvalid) as [model Hrun].
  unfold bind at 1 in Hrun. rewrite createJob_run in Hrun.
  cbv zeta in Hrun. rewrite Hcreated in Hrun.
  unfold bind at 1 in Hrun. rewrite updateJobStatus_run in Hrun.
  cbv zeta in Hrun. world_simpl_in Hrun.
  set (data := Job.mk (gen_random_uuid env) (repo_url body) pending model
                      None None (store_now env) (store_now env)) in *.
  rewrite nth_2_hd.
  destruct (hd false (tl (store_errors w))) eqn:E2.
  all: unfold try_catch, bind at 1 in Hrun.
  all: match type of Hrun with
       | context [pushJobToQueue ?job ?w0] =>
           destruct (pushJobToQueue_raises job w0 Hbus) as [e He];
           rewrite He in Hrun; clear He
       end.
  all: unfold bind at 1, console_push at 1, modify at 1 in Hrun;
    world_simpl_in Hrun.
  all: unfold bind at 1 in Hrun; rewrite updateJobStatus_run in Hrun;
    cbv zeta in Hrun; world_simpl_in Hrun.
  all: destruct (hd false (tl (tl (store_errors w)))) eqn:E3.
  all: unfold ret in Hrun; world_simpl_in Hrun.
  all: unfold outcome, exec, requested_by, exec, events_of; rewrite Hrun;
    world_simpl.
  all: rewrite <- !app_assoc; cbn [app]; rewrite RelayFacts.skipn_length_app.
  all: split; [reflexivity|].
  all: split; [exists model; reflexivity|].
  all: split; [|repeat split].
  all: try discriminate.
  all: intros _; split.
  all: try (intros j Hin Hid;
            apply (updated_rows env (gen_random_uuid env) failed None
                     "Failed to queue job" _ j Hin Hid eq_refl)).
  - exists (updated env failed None (Some "Failed to queue job") data).
    split; [|reflexivity]. rewrite map_app, in_app_iff. right. simpl.
    rewrite String.eqb_refl. now left.
  - exists (updated env failed None (Some "Failed to queue job")
              (updated env processing None None data)).
    split; [|reflexivity].
    apply in_map_iff. exists (updated env processing None None data). split.
    + simpl. now rewrite String.eqb_refl.
    + apply in_map_iff. exists data. split.
      * simpl. now rewrite String.eqb_refl.
      * apply in_app_iff. right. now left.
Qed.

Lemma enqueue_failure_marks_job_failed_witness :
  isValidRepoUrl (repo_url body0) = true
  /\ hd false (store_errors world_redis_closed) = false
  /\ publisherClient world_redis_closed <> Some true
  /\ outcome (post_repos env0 body0) world_redis_closed
     = Normal (mkResponse (Some 500)
                 (Failure "Failed to queue job for processing"))
  /\ published (exec (post_repos env0 body0) world_redis_closed) = [].
Proof.
  assert (H1 : isValidRepoUrl (repo_url body0) = true) by reflexivity.
  assert (H2 : hd false (store_errors world_redis_closed) = false)
    by reflexivity.
  assert (H3 : publisherClient world_redis_closed <> Some true)
    by discriminate.
  pose proof (enqueue_failure_marks_job_failed env0 body0 world_redis_closed
                H1 H2 H3) as (Hout & _ & _ & _ & _ & Hpub & _).
  split; [exact H1|]. split; [exact H2|]. split; [exact H3|].
  split; [exact Hout | exact Hpub].
Defined.

(** The same failure when the store no longer answers after the insert:
    the submitter still gets the error answer and the update to [failed] is
    still requested, but the row stays as it was created. *)
Lemma enqueue_failure_with_store_gone :
  outcome (post_repos env0 body0) world_store_gone_after_insert
  = Normal (mkResponse (Some 500)
              (Failure "Failed to queue job for processing"))
  /\ map Job.status
       (jobs (exec (post_repos env0 body0) world_store_gone_after_insert))
     = [pending]
  /\ requested_by (post_repos env0 body0) world_store_gone_after_insert
     = [ Insert (repo_url body0) pending "gpt-4o-mini";
         Update (gen_random_uuid env0) processing None None;
         Update (gen_random_uuid env0) failed None
           (Some "Failed to queue job") ].
Proof.
  repeat split; reflexivity.
Qed.

(** Without a Redis client at all, [getPublisher] raises inside the [try]
    and the job is marked the same way. *)
Lemma enqueue_failure_without_redis :
  outcome (post_repos env0 body0) world_without_redis
  = Normal (mkResponse (Some 500)
              (Failure "Failed to queue job for processing"))
  /\ map (fun j => (Job.status j, Job.error_message j))
       (jobs (exec (post_repos env0 body0) world_without_redis))
     = [(failed, Some "Failed to queue job")].
Proof.
  split; reflexivity.
Qed.

End SubmitFacts.


(** ** The relay over shared Set objects *)

Module LiveFacts.

Import Eff Live.

(** *** Set objects *)

Lemma SetData_has_members ws d : SetData_has ws d = JSSet.has ws (members d).
Proof.
  unfold SetData_has, JSSet.has.
  induction d as [|[x|] d IH]; simpl; [reflexivity | | assumption].
  rewrite IH. f_equal. apply Nat.eqb_sym.
Qed.

Lemma members_app d1 d2 : members (d1 ++ d2) = members d1 ++ members d2.
Proof.
  induction d1 as [|[x|] d1 IH]; simpl;
    [reflexivity | now f_equal | assumption].
Qed.

Lemma members_add ws d :
  members (SetData_add ws d) = JSSet.add ws (members d).
Proof.
  unfold SetData_add, JSSet.add. rewrite SetData_has_members.
  destruct (JSSet.has ws (members d)); [reflexivity|].
  now rewrite members_app.
Qed.

Lemma members_delete ws d :
  members (SetData_delete ws d) = JSSet.delete ws (members d).
Proof.
  unfold SetData_delete, JSSet.delete.
  induction d as [|[x|] d IH]; simpl; [reflexivity | | assumption].
  destruct (Nat.eqb x ws); simpl; [assumption | now f_equal].
Qed.

Lemma members_In ws d : In ws (members d) <-> In (Some ws) d.
Proof.
  induction d as [|[x|] d IH]; simpl.
  - tauto.
  - rewrite IH. split; intros [H|H]; try (now right).
    + left. now f_equal.
    + left. now inversion H.
  - rewrite IH. split; [now right | intros [H|H]; [discriminate | assumption]].
Qed.

Lemma emptied_refl d : emptied d d.
Proof.
  induction d; constructor; [now left | assumption].
Qed.

Lemma emptied_trans d1 d2 d3 : emptied d1 d2 -> emptied d2 d3 -> emptied d1 d3.
Proof.
  intros H12. revert d3.
  induction H12 as [|e1 e2 d1 d2 He H12 IH]; intros d3 H23.
  - inversion H23. constructor.
  - inversion H23 as [|? e3 ? d3' He' H23']; subst. constructor.
    + destruct He' as [-> | ->]; [assumption | now right].
    + now apply IH.
Qed.

Lemma emptied_delete ws d : emptied d (SetData_delete ws d).
Proof.
  induction d as [|e d IH]; simpl; constructor; [|assumption].
  destruct (is_entry ws e); [now right | now left].
Qed.

Lemma emptied_length d d' : emptied d d' -> List.length d' = List.length d.
Proof.
  intros H. symmetry. eapply Forall2_length. exact H.
Qed.

(** An entry that is still there was there before, in the same slot. *)
Lemma emptied_nth d d' i ws :
  emptied d d' -> nth i d' None = Some ws -> nth i d None = Some ws.
Proof.
  intros H. revert i. induction H as [|e e' d d' He H IH]; intros i Hi.
  - destruct i; discriminate.
  - destruct i as [|i]; simpl in *.
    + destruct He as [-> | ->]; [assumption | discriminate].
    + now apply IH.
Qed.

Lemma nth_members d i ws : nth i d None = Some ws -> In ws (members d).
Proof.
  intros H. apply members_In. rewrite <- H. apply nth_In.
  destruct (Nat.lt_ge_cases i (List.length d)) as [Hlt|Hge]; [assumption|].
  rewrite nth_overflow in H by assumption. discriminate.
Qed.

(** In a Set without a double member, an entry has one slot only. *)
Lemma NoDup_members_slot d : forall i j ws,
  NoDup (members d) ->
  nth i d None = Some ws -> nth j d None = Some ws -> i = j.
Proof.
  induction d as [|e d IH]; intros i j ws Hnd Hi Hj.
  - destruct i; discriminate.
  - destruct i as [|i], j as [|j]; simpl in *.
    + reflexivity.
    + subst e. simpl in Hnd. inversion Hnd as [|? ? Hnotin _]; subst.
      exfalso. apply Hnotin. eapply nth_members. exact Hj.
    + subst e. simpl in Hnd. inversion Hnd as [|? ? Hnotin _]; subst.
      exfalso. apply Hnotin. eapply nth_members. exact Hi.
    + f_equal. apply (IH i j ws); [|assumption..].
      destruct e; simpl in Hnd; [now inversion Hnd | assumption].
Qed.

Lemma only_removals_refl s : only_removals s s.
Proof.
  split; [intros a; apply emptied_refl | trivial].
Qed.

Lemma only_removals_trans s1 s2 s3 :
  only_removals s1 s2 -> only_removals s2 s3 -> only_removals s1 s3.
Proof.
  intros [H12 K12] [H23 K23]. split.
  - intros a. eapply emptied_trans; [apply H12 | apply H23].
  - intros k a H. apply K12, K23, H.
Qed.

(** *** What the removals do *)

(** Two entries of the Map that hold the same Set object are one entry. *)
Lemma one_key_per_address (m : JSMap.t addr) e1 e2 :
  NoDup (map snd m) -> In e1 m -> In e2 m -> snd e1 = snd e2 -> e1 = e2.
Proof.
  induction m as [|e m IH]; intros Hnd H1 H2 Heq; [destruct H1|].
  cbn [map] in Hnd. apply NoDup_cons_iff in Hnd. destruct Hnd as [Hnew Hnd].
  destruct H1 as [<- | H1], H2 as [<- | H2]; [reflexivity | | | now apply IH];
    exfalso; apply Hnew.
  - rewrite Heq. now apply in_map.
  - rewrite <- Heq. now apply in_map.
Qed.

Lemma NoDup_addresses_delete (m : JSMap.t addr) k :
  NoDup (map snd m) -> NoDup (map snd (JSMap.delete k m)).
Proof.
  unfold JSMap.delete. induction m as [|e m IH]; intros Hnd; [exact Hnd|].
  cbn [map] in Hnd. apply NoDup_cons_iff in Hnd. destruct Hnd as [Hnew Hnd].
  cbn [filter]. destruct (negb (String.eqb (fst e) k)); [|now apply IH].
  cbn [map]. apply NoDup_cons; [|now apply IH].
  intros Hin. apply Hnew. apply in_map_iff in Hin.
  destruct Hin as (e' & <- & He'). apply in_map.
  now apply filter_In in He'.
Qed.

Lemma store_delete_from_run ws a jobId s :
  delete_from ws a jobId s
  = (Normal tt,
     mkStore (fun a' => if Nat.eqb a' a
                        then SetData_delete ws (heap s a) else heap s a')
             (next s)
             (if Nat.eqb (SetData_size (SetData_delete ws (heap s a))) 0
              then JSMap.delete jobId (jobSubscriptions s)
              else jobSubscriptions s)
             (allConnections s) (wire s) (console s) (reentries s)).
Proof.
  unfold delete_from, bind, deref, assign, gets, modify, set_jobSubscriptions.
  cbn [heap next jobSubscriptions allConnections wire console reentries].
  rewrite Nat.eqb_refl.
  destruct (Nat.eqb (SetData_size (SetData_delete ws (heap s a))) 0);
    reflexivity.
Qed.

Lemma delete_from_only_removals ws a jobId s :
  only_removals s (exec (delete_from ws a jobId) s).
Proof.
  unfold exec. rewrite store_delete_from_run. split.
  - intros a'. cbn [snd heap].
    destruct (Nat.eqb_spec a' a) as [->|Hne];
      [apply emptied_delete | apply emptied_refl].
  - intros k a'. cbn [snd jobSubscriptions].
    destruct (Nat.eqb (SetData_size (SetData_delete ws (heap s a))) 0);
      [|trivial].
    destruct (String.eqb_spec k jobId) as [->|Hne].
    + now rewrite JSMapFacts.get_delete_same.
    + now rewrite JSMapFacts.get_delete_other.
Qed.

Lemma delete_from_ok ws a jobId s :
  Store_ok s ->
  JSMap.get jobId (jobSubscriptions s) = Some a ->
  Store_ok (exec (delete_from ws a jobId) s).
Proof.
  intros (Hkeys & Haddrs & Hall) Hget.
  assert (Hin : In (jobId, a) (jobSubscriptions s))
    by now apply JSMapFacts.get_Some_In.
  assert (Hother : forall e, In e (jobSubscriptions s) ->
                             fst e <> jobId -> Nat.eqb (snd e) a = false).
  { intros e He Hne. apply Nat.eqb_neq. intros Heq.
    apply Hne. change jobId with (fst (jobId, a)). f_equal.
    now apply (one_key_per_address (jobSubscriptions s)). }
  rewrite Forall_forall in Hall.
  unfold exec. rewrite store_delete_from_run. unfold Store_ok.
  cbn [snd heap next jobSubscriptions].
  destruct (Nat.eqb (SetData_size (SetData_delete ws (heap s a))) 0) eqn:Esz.
  - split; [now apply JSMapFacts.NoDup_keys_delete|].
    split; [now apply NoDup_addresses_delete|].
    apply Forall_forall. intros e He.
    unfold JSMap.delete in He. apply filter_In in He. destruct He as [He Hk].
    apply negb_true_iff in Hk. apply String.eqb_neq in Hk.
    rewrite (Hother e He Hk). now apply Hall.
  - split; [assumption|]. split; [assumption|].
    apply Forall_forall. intros e He. specialize (Hall e He).
    destruct (Nat.eqb_spec (snd e) a) as [Heq|Hne]; [|assumption].
    destruct Hall as (Hlt & Hnd & _). rewrite Heq in Hnd.
    split; [assumption|]. rewrite members_delete. split.
    + now apply JSSetFacts.NoDup_delete.
    + intros Hempty. unfold SetData_size in Esz.
      rewrite members_delete, Hempty in Esz. discriminate.
Qed.

Lemma removes_only_ret : removes_only (ret tt).
Proof.
  intros s Hok. exists s. split; [reflexivity|].
  split; [apply only_removals_refl|]. split; [assumption|]. now split.
Qed.

Lemma removes_only_bind c1 c2 :
  removes_only c1 -> removes_only c2 -> removes_only (c1 ;; c2).
Proof.
  intros H1 H2 s Hok.
  destruct (H1 s Hok) as (s1 & Hrun1 & Hrem1 & Hok1 & Hw1 & Hr1).
  destruct (H2 s1 Hok1) as (s2 & Hrun2 & Hrem2 & Hok2 & Hw2 & Hr2).
  exists s2. unfold bind. rewrite Hrun1, Hrun2.
  split; [reflexivity|].
  split; [eapply only_removals_trans; eassumption|].
  split; [assumption|]. split; congruence.
Qed.

Lemma removes_only_delete_from ws jobId s a :
  Store_ok s ->
  JSMap.get jobId (jobSubscriptions s) = Some a ->
  exists s', delete_from ws a jobId s = (Normal tt, s')
             /\ only_removals s s' /\ Store_ok s'
             /\ wire s' = wire s /\ reentries s' = reentries s.
Proof.
  intros Hok Hget. exists (exec (delete_from ws a jobId) s).
  split; [unfold exec; now rewrite store_delete_from_run|].
  split; [apply delete_from_only_removals|].
  split; [now apply delete_from_ok|].
  unfold exec. rewrite store_delete_from_run. split; reflexivity.
Qed.

Lemma removes_only_unsubscribeFromJob ws jobId :
  removes_only (unsubscribeFromJob ws jobId).
Proof.
  intros s Hok. unfold unsubscribeFromJob, bind, gets.
  destruct (JSMap.get jobId (jobSubscriptions s)) as [a|] eqn:E.
  - now apply removes_only_delete_from.
  - now apply removes_only_ret.
Qed.

Lemma removes_only_Map_forEach_from ws ks :
  removes_only
    (Map_forEach_from ks
       (fun subscribers jobId => delete_from ws subscribers jobId)).
Proof.
  induction ks as [|k ks IH]; [apply removes_only_ret|].
  cbn [Map_forEach_from]. intros s Hok. unfold bind at 1, gets at 1.
  revert s Hok. apply removes_only_bind; [|assumption].
  intros s Hok.
  destruct (JSMap.get k (jobSubscriptions s)) as [a|] eqn:E.
  - now apply removes_only_delete_from.
  - now apply removes_only_ret.
Qed.

Lemma Store_ok_same s s' :
  heap s' = heap s -> next s' = next s ->
  jobSubscriptions s' = jobSubscriptions s ->
  Store_ok s -> Store_ok s'.
Proof.
  unfold Store_ok. intros -> -> ->. trivial.
Qed.

Lemma removes_only_cleanupConnection ws :
  removes_only (cleanupConnection ws).
Proof.
  intros s Hok. unfold cleanupConnection, Map_forEach.
  unfold bind at 1, gets at 1. unfold bind at 1, set_allConnections, modify.
  unfold bind at 1, gets at 1. cbn [jobSubscriptions].
  set (s1 := mkStore (heap s) (next s) (jobSubscriptions s)
                     (JSSet.delete ws (allConnections s)) (wire s)
                     (console s) (reentries s)).
  assert (Hok1 : Store_ok s1) by (now apply (Store_ok_same s)).
  destruct (removes_only_Map_forEach_from ws
              (JSMap.keys (jobSubscriptions s)) s1 Hok1)
    as (s' & Hrun & Hrem & Hok' & Hw & Hr).
  exists s'. split; [assumption|]. split; [assumption|].
  split; [assumption|]. split; assumption.
Qed.

Lemma removes_only_run_removals rs : removes_only (run_removals rs).
Proof.
  induction rs as [|r rs IH]; [apply removes_only_ret|].
  cbn [run_removals]. apply removes_only_bind; [|assumption].
  destruct r as [ws jobId | ws];
    [apply removes_only_unsubscribeFromJob
    | apply removes_only_cleanupConnection].
Qed.

Lemma emptied_In_members d d' ws :
  emptied d d' -> In ws (members d') -> In ws (members d).
Proof.
  intros H Hin. apply members_In in Hin. apply In_nth with (d := None) in Hin.
  destruct Hin as (i & _ & Hi). eapply nth_members, emptied_nth; eassumption.
Qed.

Lemma emptied_NoDup_members d d' :
  emptied d d' -> NoDup (members d) -> NoDup (members d').
Proof.
  induction 1 as [|e e' d d' He H IH]; intros Hnd; [constructor|].
  destruct He as [-> | ->].
  - destruct e as [x|]; simpl in *; [|now apply IH].
    inversion Hnd as [|? ? Hnotin Hnd']; subst. constructor; [|now apply IH].
    intros Hin. apply Hnotin. eapply emptied_In_members; eassumption.
  - simpl. apply IH. destruct e; simpl in Hnd; [now inversion Hnd | assumption].
Qed.

(** *** One send, with the handlers it runs *)

Lemma sendMessage_effect net ws message s :
  Store_ok s ->
  exists s',
    sendMessage net ws message s = (Normal tt, s')
    /\ only_removals s s' /\ Store_ok s'
    /\ wire s'
       = wire s
         ++ (if Relay.accepts net ws message then [(ws, message)] else []).
Proof.
  intros Hok. unfold sendMessage, try_catch, Relay.accepts.
  destruct (Z.eqb (Relay.readyState net ws) 1).
  - unfold ws_send, bind at 1, next_reentry.
    set (s0 := mkStore (heap s) (next s) (jobSubscriptions s)
                       (allConnections s) (wire s) (console s)
                       (tl (reentries s))).
    assert (Hok0 : Store_ok s0) by (now apply (Store_ok_same s)).
    destruct (removes_only_run_removals (hd [] (reentries s)) s0 Hok0)
      as (s1 & Hrun & Hrem & Hok1 & Hw & _).
    unfold bind. rewrite Hrun. cbn [andb].
    destruct (Relay.send_raises net ws message) as [e|].
    + unfold throw, console_push, modify. eexists. split; [reflexivity|].
      split; [exact Hrem|]. split; [now apply (Store_ok_same s1)|].
      cbn [wire]. now rewrite Hw, app_nil_r.
    + unfold modify. eexists. split; [reflexivity|].
      split; [exact Hrem|]. split; [now apply (Store_ok_same s1)|].
      cbn [wire]. now rewrite Hw.
  - exists s. split; [reflexivity|]. split; [apply only_removals_refl|].
    split; [assumption|]. cbn [andb]. now rewrite app_nil_r.
Qed.

(** *** Walking a Set while its entries are taken out *)

Lemma Set_forEach_from_walk net message a n :
  forall index fuel s,
    Store_ok s ->
    NoDup (members (heap s a)) ->
    List.length (heap s a) = index + n ->
    n < fuel ->
    exists s' recipients,
      Set_forEach_from fuel a index (fun ws => sendMessage net ws message) s
      = Some (Normal tt, s')
      /\ only_removals s s' /\ Store_ok s'
      /\ wire s' = wire s ++ map (fun ws => (ws, message)) recipients
      /\ NoDup recipients
      /\ (forall ws, In ws recipients ->
            Relay.accepts net ws message = true
            /\ exists i, index <= i /\ nth i (heap s a) None = Some ws)
      /\ (forall i ws, index <= i ->
            nth i (heap s' a) None = Some ws ->
            Relay.accepts net ws message = true ->
            In ws recipients).
Proof.
  induction n as [|n IH]; intros index fuel s Hok Hnd Hlen Hfuel.
  - destruct fuel as [|fuel]; [lia|]. cbn [Set_forEach_from].
    assert (Hltb : Nat.ltb index (List.length (heap s a)) = false)
      by (apply Nat.ltb_ge; lia).
    rewrite Hltb. exists s, []. split; [reflexivity|].
    split; [apply only_removals_refl|]. split; [assumption|].
    split; [simpl; now rewrite app_nil_r|]. split; [constructor|].
    split; [intros ws []|].
    intros i ws Hi Hnth _. rewrite nth_overflow in Hnth by lia. discriminate.
  - destruct fuel as [|fuel]; [lia|]. cbn [Set_forEach_from].
    assert (Hltb : Nat.ltb index (List.length (heap s a)) = true)
      by (apply Nat.ltb_lt; lia).
    rewrite Hltb.
    destruct (nth index (heap s a) None) as [e|] eqn:Hentry.
    + destruct (sendMessage_effect net e message s Hok)
        as (s1 & Hsend & Hrem1 & Hok1 & Hwire1).
      rewrite Hsend.
      destruct (IH (S index) fuel s1 Hok1)
        as (s' & rec & Hrun & Hrem & Hok' & Hwire & Hnodup & Hfrom & Hall).
      { eapply emptied_NoDup_members; [apply (proj1 Hrem1) | exact Hnd]. }
      { rewrite (emptied_length _ _ (proj1 Hrem1 a)). lia. }
      { lia. }
      exists s', ((if Relay.accepts net e message then [e] else []) ++ rec).
      split; [exact Hrun|].
      split; [eapply only_removals_trans; eassumption|].
      split; [assumption|].
      assert (Hfresh : ~ In e rec).
      { intros Hin. destruct (Hfrom e Hin) as (_ & i & Hi & Hnth).
        apply (emptied_nth _ _ _ _ (proj1 Hrem1 a)) in Hnth.
        pose proof (NoDup_members_slot _ _ _ _ Hnd Hentry Hnth). lia. }
      split; [|split; [|split]].
      * rewrite Hwire, Hwire1, <- app_assoc, map_app. f_equal. f_equal.
        destruct (Relay.accepts net e message); reflexivity.
      * destruct (Relay.accepts net e message); [|assumption].
        simpl. now constructor.
      * intros ws Hin. apply in_app_iff in Hin. destruct Hin as [Hin | Hin].
        -- destruct (Relay.accepts net e message) eqn:Hacc; [|destruct Hin].
           destruct Hin as [<- | []]. split; [assumption|].
           exists index. split; [lia | assumption].
        -- destruct (Hfrom ws Hin) as (Hacc & i & Hi & Hnth).
           split; [assumption|]. exists i. split; [lia|].
           now apply (emptied_nth _ _ _ _ (proj1 Hrem1 a)).
      * intros i ws Hi Hnth Hacc. apply in_app_iff.
        destruct (Nat.eq_dec i index) as [->|Hne].
        -- left. apply (emptied_nth _ _ _ _ (proj1 Hrem a)) in Hnth.
           apply (emptied_nth _ _ _ _ (proj1 Hrem1 a)) in Hnth.
           rewrite Hentry in Hnth. inversion Hnth; subst.
           rewrite Hacc. now left.
        -- right. apply (Hall i ws); [lia | assumption..].
    + destruct (IH (S index) fuel s Hok Hnd)
        as (s' & rec & Hrun & Hrem & Hok' & Hwire & Hnodup & Hfrom & Hall);
        [lia | lia |].
      exists s', rec. split; [exact Hrun|]. split; [assumption|].
      split; [assumption|]. split; [assumption|]. split; [assumption|].
      split.
      * intros ws Hin. destruct (Hfrom ws Hin) as (Hacc & i & Hi & Hnth).
        split; [assumption|]. exists i. split; [lia | assumption].
      * intros i ws Hi Hnth Hacc.
        destruct (Nat.eq_dec i index) as [->|Hne].
        -- apply (emptied_nth _ _ _ _ (proj1 Hrem a)) in Hnth. congruence.
        -- apply (Hall i ws); [lia | assumption..].
Qed.

Lemma frames_since_app s s' d :
  wire s' = wire s ++ d -> frames_since s s' = d.
Proof.
  intros H. unfold frames_since. rewrite H. apply RelayFacts.skipn_length_app.
Qed.

Lemma Store_ok_observers jobId s : Store_ok s -> NoDup (observers jobId s).
Proof.
  intros (_ & _ & Hall). unfold observers.
  destruct (JSMap.get jobId (jobSubscriptions s)) as [a|] eqn:E; [|constructor].
  apply JSMapFacts.get_Some_In in E. rewrite Forall_forall in Hall.
  apply (Hall (jobId, a) E).
Qed.

(** [broadcastToJob] while the sends run handlers that unsubscribe and clean
    up: the sockets that get the frame, in the order of the sends. *)
Lemma broadcastToJob_walk net jobId message s fuel :
  Store_ok s ->
  slots jobId s < fuel ->
  exists s' recipients,
    broadcastToJob net fuel jobId message s = Some (Normal tt, s')
    /\ only_removals s s' /\ Store_ok s'
    /\ frames_since s s' = map (fun ws => (ws, message)) recipients
    /\ NoDup recipients
    /\ (forall ws, In ws recipients ->
          Relay.accepts net ws message = true /\ In ws (observers jobId s))
    /\ (forall ws, In ws (observers jobId s') ->
          Relay.accepts net ws message = true -> In ws recipients).
Proof.
  intros Hok Hfuel. unfold broadcastToJob, slots, observers in *.
  destruct (JSMap.get jobId (jobSubscriptions s)) as [a|] eqn:Hget.
  - destruct (Set_forEach_from_walk net message a (List.length (heap s a))
                0 fuel s Hok)
      as (s' & rec & Hrun & Hrem & Hok' & Hwire & Hnodup & Hfrom & Hall);
      [|reflexivity | assumption |].
    { pose proof (Store_ok_observers jobId s Hok) as H.
      unfold observers in H. now rewrite Hget in H. }
    exists s', rec. split; [assumption|]. split; [assumption|].
    split; [assumption|]. split; [now apply frames_since_app|].
    split; [assumption|]. split.
    + intros ws Hin. destruct (Hfrom ws Hin) as (Hacc & i & _ & Hnth).
      split; [assumption|]. eapply nth_members. exact Hnth.
    + intros ws Hin Hacc.
      destruct (JSMap.get jobId (jobSubscriptions s')) as [a'|] eqn:Hget';
        [|destruct Hin].
      apply (proj2 Hrem) in Hget'. rewrite Hget in Hget'.
      inversion Hget'; subst a'.
      apply members_In, In_nth with (d := None) in Hin.
      destruct Hin as (i & _ & Hnth). apply (Hall i ws); [lia | assumption..].
  - exists s, []. split; [reflexivity|]. split; [apply only_removals_refl|].
    split; [assumption|].
    split; [apply frames_since_app; simpl; now rewrite app_nil_r|].
    split; [constructor|]. rewrite Hget. split; [intros ws [] | intros ws []].
Qed.

(** C7. [broadcastToJob] walks the Set object of the job itself, not a copy,
    and the walk is safe: whatever [unsubscribe] and cleanup calls the sends
    run on the registry while it goes on, the walk ends normally once it has
    looked at every slot of the Set, the registry is still in order and has
    only lost entries, every frame put on the wire is the frame of the event,
    with the job id of the event, and goes to a socket that was registered
    for that job when the event came in, no socket gets it twice, and no
    socket that is still registered for the job at the end and takes the
    frame was passed over. *)
Theorem forwarding_tolerates_removals net ev s fuel :
  Store_ok s ->
  slots (event_job_id ev) s < fuel ->
  exists s',
    handle net fuel ev s = Some (Normal tt, s')
    /\ Store_ok s'
    /\ only_removals s s'
    /\ (forall f, In f (frames_since s s') ->
          snd f = event_frame ev
          /\ WSOutgoingMessage.job_id (snd f) = Some (event_job_id ev)
          /\ In (fst f) (observers (event_job_id ev) s))
    /\ NoDup (map fst (frames_since s s'))
    /\ (forall ws,
          In ws (observers (event_job_id ev) s') ->
          Relay.accepts net ws (event_frame ev) = true ->
          In (ws, event_frame ev) (frames_since s s')).
Proof.
  intros Hok Hfuel.
  assert (Hhandle : handle net fuel ev
                    = broadcastToJob net fuel (event_job_id ev)
                        (event_frame ev))
    by (destruct ev; reflexivity).
  assert (Hjob : WSOutgoingMessage.job_id (event_frame ev)
                 = Some (event_job_id ev))
    by (destruct ev; reflexivity).
  destruct (broadcastToJob_walk net (event_job_id ev) (event_frame ev) s fuel
              Hok Hfuel)
    as (s' & rec & Hrun & Hrem & Hok' & Hframes & Hnodup & Hfrom & Hall).
  exists s'. rewrite Hhandle, Hframes.
  split; [assumption|]. split; [assumption|]. split; [assumption|].
  split; [|split].
  - intros f Hin. apply in_map_iff in Hin. destruct Hin as (ws & <- & Hin).
    cbn [fst snd]. split; [reflexivity|]. split; [assumption|].
    now apply Hfrom.
  - rewrite map_map. cbn [fst]. now rewrite map_id.
  - intros ws Hin Hacc. apply in_map_iff. exists ws.
    split; [reflexivity | now apply Hall].
Qed.

Lemma Store_ok_initial : Store_ok initial.
Proof.
  repeat split; constructor.
Qed.

Lemma run_removal_ok r s : Store_ok s -> Store_ok (exec (run_removal r) s).
Proof.
  intros Hok.
  assert (H : removes_only (run_removal r)).
  { destruct r; [apply removes_only_unsubscribeFromJob
                | apply removes_only_cleanupConnection]. }
  destruct (H s Hok) as (s' & Hrun & _ & Hok' & _).
  unfold exec. now rewrite Hrun.
Qed.

Lemma Store_ok_three_watchers : Store_ok three_watchers.
Proof.
  unfold Store_ok. cbn.
  repeat split; repeat constructor; cbn; try lia;
    try discriminate; intuition (discriminate || lia).
Qed.

Lemma forwarding_tolerates_removals_witness :
  Store_ok three_watchers
  /\ slots (event_job_id (StatusEvent Relay.progress_event)) three_watchers < 4
  /\ exists s',
       handle Relay.net_open 4 (StatusEvent Relay.progress_event)
         three_watchers
       = Some (Normal tt, s')
       /\ Store_ok s'
       /\ NoDup (map fst (frames_since three_watchers s')).
Proof.
  assert (Hslots : slots (event_job_id (StatusEvent Relay.progress_event))
                     three_watchers < 4) by (cbn; lia).
  split; [exact Store_ok_three_watchers|]. split; [exact Hslots|].
  destruct (forwarding_tolerates_removals Relay.net_open
              (StatusEvent Relay.progress_event) three_watchers 4
              Store_ok_three_watchers Hslots)
    as (s' & Hrun & Hok & _ & _ & Hnodup & _).
  exists s'. split; [exact Hrun|]. split; [exact Hok | exact Hnodup].
Defined.

(** *** The store and the state it stands for *)

Section Abstraction.

Variables (A B : Type) (f : A -> B).

Implicit Types (m : JSMap.t A).

Lemma get_lift k m :
  JSMap.get k (map (fun e => (fst e, f (snd e))) m)
  = option_map f (JSMap.get k m).
Proof.
  induction m as [|[k0 v0] m IH]; simpl; [reflexivity|].
  destruct (String.eqb k k0); [reflexivity | assumption].
Qed.

Lemma set_lift k v m :
  map (fun e => (fst e, f (snd e))) (JSMap.set k v m)
  = JSMap.set k (f v) (map (fun e => (fst e, f (snd e))) m).
Proof.
  induction m as [|[k0 v0] m IH]; simpl; [reflexivity|].
  destruct (String.eqb k k0); simpl; [reflexivity | now f_equal].
Qed.

Lemma delete_lift k m :
  map (fun e => (fst e, f (snd e))) (JSMap.delete k m)
  = JSMap.delete k (map (fun e => (fst e, f (snd e))) m).
Proof.
  induction m as [|[k0 v0] m IH]; simpl; [reflexivity|].
  destruct (String.eqb k0 k); simpl; [assumption | now f_equal].
Qed.

Lemma keys_lift m :
  JSMap.keys (map (fun e => (fst e, f (snd e))) m) = JSMap.keys m.
Proof.
  unfold JSMap.keys. rewrite map_map. reflexivity.
Qed.

End Abstraction.

(** Writing to the Set object of one key is writing to the Set of that key. *)
Lemma lift_assign (F : addr -> JSSet.t) (m : JSMap.t addr) j a x :
  NoDup (map snd m) ->
  JSMap.get j m = Some a ->
  map (fun e => (fst e, if Nat.eqb (snd e) a then x else F (snd e))) m
  = JSMap.set j x (map (fun e => (fst e, F (snd e))) m).
Proof.
  induction m as [|[k0 a0] m IH]; intros Hnd Hget; [discriminate|].
  simpl in *. inversion Hnd as [|? ? Hnotin Hnd']; subst.
  destruct (String.eqb_spec j k0) as [->|Hne].
  - inversion Hget; subst a0. rewrite Nat.eqb_refl. f_equal.
    apply map_ext_in. intros [k1 a1] Hin. simpl.
    destruct (Nat.eqb_spec a1 a) as [->|]; [|reflexivity].
    exfalso. apply Hnotin. change a with (snd (k1, a)). now apply in_map.
  - destruct (Nat.eqb_spec a0 a) as [->|Hne'].
    + exfalso. apply Hnotin. apply JSMapFacts.get_Some_In in Hget.
      change a with (snd (j, a)). now apply in_map.
    + f_equal. now apply IH.
Qed.

Lemma abstract_get k s :
  JSMap.get k (Relay.jobSubscriptions (abstract s))
  = option_map (fun a => members (heap s a))
      (JSMap.get k (jobSubscriptions s)).
Proof.
  apply (get_lift _ _ (fun a => members (heap s a))).
Qed.

Lemma abstract_observers jobId s :
  Relay.observers jobId (abstract s) = observers jobId s.
Proof.
  unfold Relay.observers, observers. rewrite abstract_get.
  destruct (JSMap.get jobId (jobSubscriptions s)); reflexivity.
Qed.

Lemma abstract_delete_from ws a jobId s :
  NoDup (map snd (jobSubscriptions s)) ->
  JSMap.get jobId (jobSubscriptions s) = Some a ->
  abstract (exec (delete_from ws a jobId) s)
  = exec (Relay.delete_from ws (members (heap s a)) jobId) (abstract s).
Proof.
  intros Hnd Hget. unfold exec.
  rewrite store_delete_from_run, RelayFacts.delete_from_run.
  unfold abstract, Relay.with_jobSubscriptions.
  cbn [snd heap next jobSubscriptions allConnections wire console
       Relay.jobSubscriptions Relay.allConnections Relay.wire Relay.console].
  unfold SetData_size, JSSet.size. rewrite members_delete. f_equal.
  destruct (Nat.eqb (List.length (JSSet.delete ws (members (heap s a)))) 0).
  - rewrite (delete_lift _ _
               (fun a' => members (if Nat.eqb a' a
                                   then SetData_delete ws (heap s a)
                                   else heap s a'))).
    f_equal. rewrite <- members_delete.
    rewrite <- (lift_assign (fun a' => members (heap s a')) _ jobId a)
      by assumption.
    apply map_ext. intros [k a']. simpl. now destruct (Nat.eqb a' a).
  - rewrite <- members_delete.
    rewrite <- (lift_assign (fun a' => members (heap s a')) _ jobId a)
      by assumption.
    apply map_ext. intros [k a']. simpl. now destruct (Nat.eqb a' a).
Qed.

(** [unsubscribeFromJob] on the store is [unsubscribeFromJob] of the relay
    above. *)
Lemma abstract_unsubscribeFromJob ws jobId s :
  Store_ok s ->
  abstract (exec (unsubscribeFromJob ws jobId) s)
  = exec (Relay.unsubscribeFromJob ws jobId) (abstract s).
Proof.
  intros (_ & Hnd & _).
  unfold exec at 1, unsubscribeFromJob, bind, gets.
  unfold exec at 1, Relay.unsubscribeFromJob, bind, gets.
  rewrite abstract_get.
  destruct (JSMap.get jobId (jobSubscriptions s)) as [a|] eqn:E;
    [|reflexivity].
  cbn [option_map]. now apply abstract_delete_from.
Qed.

Lemma abstract_Map_forEach_from ws ks : forall s,
  Store_ok s ->
  abstract
    (exec (Map_forEach_from ks
             (fun subscribers jobId => delete_from ws subscribers jobId)) s)
  = exec (Relay.Map_forEach_from ks
            (fun subscribers jobId => Relay.delete_from ws subscribers jobId))
      (abstract s).
Proof.
  induction ks as [|k ks IH]; intros s Hok; [reflexivity|].
  unfold exec at 2. rewrite RelayFacts.Map_forEach_from_cons.
  rewrite abstract_get.
  unfold exec at 1. cbn [Map_forEach_from]. unfold bind at 1, gets at 1.
  unfold bind at 1.
  destruct (JSMap.get k (jobSubscriptions s)) as [a|] eqn:E; cbn [option_map].
  - rewrite store_delete_from_run.
    pose proof (abstract_delete_from ws a k s (proj1 (proj2 Hok)) E) as Hstep.
    unfold exec in Hstep. rewrite store_delete_from_run in Hstep.
    cbn [snd] in Hstep.
    rewrite RelayFacts.delete_from_run in *. cbn [snd] in Hstep.
    rewrite <- Hstep. apply IH.
    pose proof (delete_from_ok ws a k s Hok E) as Hok'.
    unfold exec in Hok'. now rewrite store_delete_from_run in Hok'.
  - now apply IH.
Qed.

(** [cleanupConnection] on the store is [cleanupConnection] of the relay
    above. *)
Lemma abstract_cleanupConnection ws s :
  Store_ok s ->
  abstract (exec (cleanupConnection ws) s)
  = exec (Relay.cleanupConnection ws) (abstract s).
Proof.
  intros Hok.
  unfold exec at 1, cleanupConnection, Map_forEach.
  unfold bind at 1, gets at 1. unfold bind at 1, set_allConnections, modify.
  unfold bind at 1, gets at 1. cbn [jobSubscriptions].
  unfold exec at 1, Relay.cleanupConnection, Relay.Map_forEach.
  unfold bind at 1, gets at 1. unfold bind at 1, modify at 1.
  unfold bind at 1, gets at 1, Relay.with_allConnections.
  cbn [Relay.jobSubscriptions Relay.allConnections Relay.wire Relay.console
       abstract].
  rewrite (keys_lift _ _ (fun a => members (heap s a))).
  apply (abstract_Map_forEach_from ws (JSMap.keys (jobSubscriptions s))
           (mkStore (heap s) (next s) (jobSubscriptions s)
                    (JSSet.delete ws (allConnections s)) (wire s)
                    (console s) (reentries s))).
  now apply (Store_ok_same s).
Qed.

(** *** Without handlers run inside a send *)

Lemma sendMessage_quiet net ws message h n m c w co :
  sendMessage net ws message (mkStore h n m c w co [])
  = (Normal tt,
     let st := Relay.after_send net ws message
                 (Relay.mkState
                    (map (fun e => (fst e, members (h (snd e)))) m) c w co) in
     mkStore h n m c (Relay.wire st) (Relay.console st) []).
Proof.
  unfold sendMessage, try_catch, Relay.after_send, ws_send, bind,
    next_reentry. cbn.
  destruct (Z.eqb (Relay.readyState net ws) 1); [|reflexivity].
  destruct (Relay.send_raises net ws message); reflexivity.
Qed.

Lemma skipn_nth {A} (l : list A) i d :
  i < List.length l -> skipn i l = nth i l d :: skipn (S i) l.
Proof.
  revert i. induction l as [|x l IH]; intros i Hi; simpl in Hi; [lia|].
  destruct i as [|i]; [reflexivity|]. simpl. apply IH. lia.
Qed.

Lemma after_send_same_fields net ws message m c w co :
  Relay.mkState m c
    (Relay.wire (Relay.after_send net ws message (Relay.mkState m c w co)))
    (Relay.console (Relay.after_send net ws message (Relay.mkState m c w co)))
  = Relay.after_send net ws message (Relay.mkState m c w co).
Proof.
  unfold Relay.after_send. cbn.
  destruct (Z.eqb (Relay.readyState net ws) 1); [|reflexivity].
  destruct (Relay.send_raises net ws message); reflexivity.
Qed.

Lemma Set_forEach_from_quiet net message h n m c a k :
  forall index fuel w co,
    List.length (h a) = index + k ->
    k < fuel ->
    Set_forEach_from fuel a index (fun ws => sendMessage net ws message)
      (mkStore h n m c w co [])
    = Some
        (Normal tt,
         let st := fold_left
                     (fun st ws => Relay.after_send net ws message st)
                     (members (skipn index (h a)))
                     (Relay.mkState
                        (map (fun e => (fst e, members (h (snd e)))) m)
                        c w co) in
         mkStore h n m c (Relay.wire st) (Relay.console st) []).
Proof.
  induction k as [|k IH]; intros index fuel w co Hlen Hfuel.
  - destruct fuel as [|fuel]; [lia|]. cbn [Set_forEach_from heap].
    assert (Hltb : Nat.ltb index (List.length (h a)) = false)
      by (apply Nat.ltb_ge; lia).
    rewrite Hltb, skipn_all2 by lia. reflexivity.
  - destruct fuel as [|fuel]; [lia|]. cbn [Set_forEach_from heap].
    assert (Hltb : Nat.ltb index (List.length (h a)) = true)
      by (apply Nat.ltb_lt; lia).
    rewrite Hltb, (skipn_nth (h a) index None) by lia.
    destruct (nth index (h a) None) as [e|].
    + rewrite sendMessage_quiet. cbv zeta.
      rewrite IH by lia. cbn [members fold_left].
      now rewrite after_send_same_fields.
    + rewrite IH by lia. reflexivity.
Qed.

(** When no send runs a handler, [broadcastToJob] on the store is
    [broadcastToJob] of the relay above, and the store keeps its Sets. *)
Lemma abstract_broadcastToJob net fuel jobId message s :
  reentries s = [] ->
  slots jobId s < fuel ->
  exists s',
    broadcastToJob net fuel jobId message s = Some (Normal tt, s')
    /\ abstract s' = exec (Relay.broadcastToJob net jobId message) (abstract s)
    /\ heap s' = heap s
    /\ jobSubscriptions s' = jobSubscriptions s.
Proof.
  intros Hquiet Hfuel. unfold exec. rewrite RelayFacts.broadcastToJob_run.
  rewrite abstract_observers. unfold broadcastToJob, slots, observers in *.
  destruct s as [h n m c w co r]. cbn in Hquiet. subst r.
  cbn [jobSubscriptions heap snd] in *.
  destruct (JSMap.get jobId m) as [a|].
  - rewrite (Set_forEach_from_quiet net message h n m c a
               (List.length (h a)) 0 fuel w co) by (reflexivity || assumption).
    eexists. split; [reflexivity|]. cbv zeta. cbn [skipn].
    split; [|split; reflexivity].
    unfold abstract at 1.
    cbn [heap jobSubscriptions allConnections wire console].
    set (st := fold_left _ _ _).
    assert (Hm : Relay.jobSubscriptions st
                 = map (fun e => (fst e, members (h (snd e)))) m)
      by apply RelayFacts.fold_send_jobSubscriptions.
    assert (Hc : Relay.allConnections st = c)
      by apply RelayFacts.fold_send_allConnections.
    rewrite <- Hm, <- Hc. now destruct st.
  - eexists. split; [reflexivity|]. split; [|split]; reflexivity.
Qed.

(** *** Subscribing *)

Lemma store_subscribeToJob_run net ws jobId s :
  subscribeToJob net ws jobId s
  = sendMessage net ws (Relay.subscribed_frame jobId) (registered ws jobId s).
Proof.
  unfold subscribeToJob, registered, JSMap.has, bind at 1, gets at 1.
  destruct (JSMap.get jobId (jobSubscriptions s)) as [a|] eqn:E.
  - cbn [negb]. unfold bind at 1, ret at 1, bind at 1, gets at 1. rewrite E.
    unfold bind at 1, bind at 1, deref, gets, assign, modify. reflexivity.
  - cbn [negb]. unfold bind at 1, bind at 1, new_Set, set_jobSubscriptions,
      modify.
    unfold bind at 1, gets at 1. cbn [jobSubscriptions].
    rewrite JSMapFacts.get_set_same.
    unfold bind at 1, bind at 1, deref, gets, assign, modify.
    cbn [heap next jobSubscriptions allConnections wire console reentries].
    rewrite Nat.eqb_refl. reflexivity.
Qed.

Lemma registered_ok ws jobId s : Store_ok s -> Store_ok (registered ws jobId s).
Proof.
  intros (Hkeys & Haddrs & Hall). unfold registered.
  destruct (JSMap.get jobId (jobSubscriptions s)) as [a|] eqn:E;
    unfold Store_ok; cbn [heap next jobSubscriptions].
  - split; [assumption|]. split; [assumption|].
    rewrite Forall_forall in *. intros e He. specialize (Hall e He).
    destruct (Nat.eqb_spec (snd e) a) as [Heq|Hne]; [|assumption].
    destruct Hall as (Hlt & Hnd & _). rewrite Heq in Hnd.
    split; [assumption|]. rewrite members_add.
    split; [now apply JSSetFacts.NoDup_add | apply JSSetFacts.add_nonempty].
  - rewrite (JSMapFacts.set_absent jobId (next s) _ E).
    assert (Hfresh : forall e, In e (jobSubscriptions s) ->
                               Nat.eqb (snd e) (next s) = false).
    { intros e He. rewrite Forall_forall in Hall.
      apply Nat.eqb_neq. specialize (Hall e He). lia. }
    split; [|split].
    + rewrite <- (JSMapFacts.set_absent jobId (next s) _ E).
      now apply JSMapFacts.NoDup_keys_set.
    + rewrite map_app. cbn [map snd].
      apply NoDup_app; [assumption | repeat constructor; simpl; tauto |].
      intros a Ha [<- | []]. apply in_map_iff in Ha.
      destruct Ha as (e & Hsnd & He). specialize (Hfresh e He).
      rewrite Hsnd, Nat.eqb_refl in Hfresh. discriminate.
    + apply Forall_app. split.
      * rewrite Forall_forall in *. intros e He.
        rewrite (Hfresh e He). specialize (Hall e He). intuition lia.
      * constructor; [|constructor]. cbn [snd]. rewrite Nat.eqb_refl.
        split; [lia|]. split; [repeat constructor; simpl; tauto | discriminate].
Qed.

(** [subscribeToJob] keeps the registry in order, whatever the send of the
    acknowledgment runs. *)
Lemma subscribeToJob_ok net ws jobId s :
  Store_ok s -> Store_ok (exec (subscribeToJob net ws jobId) s).
Proof.
  intros Hok. unfold exec. rewrite store_subscribeToJob_run.
  destruct (sendMessage_effect net ws (Relay.subscribed_frame jobId)
              (registered ws jobId s) (registered_ok ws jobId s Hok))
    as (s' & Hrun & _ & Hok' & _).
  now rewrite Hrun.
Qed.

Lemma abstract_registered ws jobId s :
  Store_ok s ->
  abstract (registered ws jobId s)
  = Relay.with_jobSubscriptions
      (JSMap.set jobId (JSSet.add ws (Relay.observers jobId (abstract s)))
         (Relay.jobSubscriptions (abstract s)))
      (abstract s).
Proof.
  intros (Hkeys & Haddrs & Hall). rewrite abstract_observers.
  unfold registered, observers, abstract at 1, Relay.with_jobSubscriptions.
  destruct (JSMap.get jobId (jobSubscriptions s)) as [a|] eqn:E;
    cbn [heap next jobSubscriptions allConnections wire console abstract
         Relay.jobSubscriptions Relay.allConnections Relay.wire
         Relay.console];
    f_equal.
  - rewrite <- members_add.
    rewrite <- (lift_assign (fun a' => members (heap s a')) _ jobId a)
      by assumption.
    apply map_ext. intros [k a']. simpl. now destruct (Nat.eqb a' a).
  - rewrite (JSMapFacts.set_absent jobId (next s) _ E).
    rewrite JSMapFacts.set_absent.
    + rewrite map_app. cbn [map fst snd]. rewrite Nat.eqb_refl. f_equal.
      apply map_ext_in. intros e He. rewrite Forall_forall in Hall.
      specialize (Hall e He).
      destruct (Nat.eqb_spec (snd e) (next s)); [lia | reflexivity].
    + rewrite (get_lift _ _ (fun a => members (heap s a))). now rewrite E.
Qed.

(** When the send of the acknowledgment runs no handler, [subscribeToJob] on
    the store is [subscribeToJob] of the relay above. *)
Lemma abstract_subscribeToJob net ws jobId s :
  Store_ok s ->
  reentries s = [] ->
  abstract (exec (subscribeToJob net ws jobId) s)
  = exec (Relay.subscribeToJob net ws jobId) (abstract s).
Proof.
  intros Hok Hquiet. unfold exec.
  rewrite store_subscribeToJob_run, RelayFacts.subscribeToJob_run. cbn [snd].
  fold (Relay.subscribed_frame jobId).
  rewrite <- (abstract_registered ws jobId s Hok).
  assert (Hquiet' : reentries (registered ws jobId s) = []).
  { unfold registered.
    destruct (JSMap.get jobId (jobSubscriptions s)); exact Hquiet. }
  destruct (registered ws jobId s) as [h n m c w co r].
  cbn in Hquiet'. subst r. rewrite sendMessage_quiet. cbv zeta. cbn [snd].
  unfold abstract. cbn [heap jobSubscriptions allConnections wire console].
  now rewrite after_send_same_fields.
Qed.

(** Every store the module can be in is in order. *)
Lemma reachable_ok s : reachable s -> Store_ok s.
Proof.
  induction 1 as [|rs s Hr IH|net ws jobId s Hr IH|r s Hr IH
                 |net fuel ev s s' Hr IH Hfuel Hrun].
  - apply Store_ok_initial.
  - now apply (Store_ok_same s).
  - now apply subscribeToJob_ok.
  - now apply run_removal_ok.
  - assert (Hhandle : handle net fuel ev
                      = broadcastToJob net fuel (event_job_id ev)
                          (event_frame ev))
      by (destruct ev; reflexivity).
    destruct (broadcastToJob_walk net (event_job_id ev) (event_frame ev) s
                fuel IH Hfuel) as (s'' & rec & Hrun' & _ & Hok & _).
    rewrite Hhandle, Hrun' in Hrun. inversion Hrun; subst. assumption.
Qed.

End LiveFacts.

(** ** The relay as its clients and the bus drive it *)

Module GatewayFacts.

Import Eff Relay RelayFacts Gateway.

Lemma served_reachable st : served st -> reachable st.
Proof.
  induction 1 as [|net ev st Hs IH]; [apply reachable_initial|].
  destruct ev as [ws|ws message|ws|ws e|status|complete].
  - apply (reachable_call net (CallOpen ws) st IH).
  - apply (reachable_call net (CallMessage ws message) st IH).
  - apply (reachable_call net (CallClose ws) st IH).
  - apply (reachable_call net (CallError ws e) st IH).
  - apply (reachable_call net (CallStatus status) st IH).
  - apply (reachable_call net (CallComplete complete) st IH).
Qed.

Lemma count_frames_other_tag ws ty ty' jobId message l :
  WSOutgoingMessage.type message = ty' ->
  ty' <> ty ->
  count_frames ws ty jobId (map (fun w => (w, message)) l) = 0.
Proof.
  intros Hty Hne. unfold count_frames.
  induction l as [|w l IH]; [reflexivity|].
  cbn [map filter fst snd]. rewrite Hty.
  assert (H : WSOutgoingType_eqb ty' ty = false)
    by (destruct ty', ty; try reflexivity; contradiction).
  rewrite H, andb_false_r. exact IH.
Qed.

(** X1. A completion event for job J puts one [complete] frame naming J on
    the wire for each observer of J whose socket is open and whose send goes
    through, in the order in which they subscribed, and nothing else: no
    frame for any other socket, no frame with the [status] tag. The Map and
    the connection set stay as they were, and the handler returns
    normally. *)
Theorem complete_forwarded_to_open_observers net complete st :
  reachable st ->
  let jobId := CompleteMessage.job_id complete in
  let frames := sent_by (handleCompleteUpdate net complete) st in
  outcome (handleCompleteUpdate net complete) st = Normal tt
  /\ frames
     = map (fun ws => (ws, complete_frame complete))
           (filter (fun ws => accepts net ws (complete_frame complete))
                   (observers jobId st))
  /\ (forall ws,
         count_frames ws Tcomplete jobId frames
         = if JSSet.has ws (observers jobId st)
              && accepts net ws (complete_frame complete)
           then 1 else 0)
  /\ (forall ws anyJob, count_frames ws Tstatus anyJob frames = 0)
  /\ jobSubscriptions (exec (handleCompleteUpdate net complete) st)
     = jobSubscriptions st
  /\ allConnections (exec (handleCompleteUpdate net complete) st)
     = allConnections st.
Proof.
  intros Hr jobId frames. subst jobId frames.
  apply reachable_invariant in Hr. destruct Hr as [Hwf _].
  unfold handleCompleteUpdate. fold (complete_frame complete).
  rewrite broadcastToJob_sent.
  split; [|split; [|split; [|split; [|split]]]].
  - unfold outcome. now rewrite broadcastToJob_run.
  - reflexivity.
  - intros ws.
    rewrite (count_frames_fanout ws Tcomplete
               (CompleteMessage.job_id complete)) by reflexivity.
    apply count_occ_filter_NoDup. now apply NoDup_observers.
  - intros ws anyJob.
    apply (count_frames_other_tag ws Tstatus Tcomplete); [reflexivity|].
    discriminate.
  - unfold exec. rewrite broadcastToJob_run. cbn [snd].
    apply fold_send_jobSubscriptions.
  - unfold exec. rewrite broadcastToJob_run. cbn [snd].
    apply fold_send_allConnections.
Qed.

Lemma complete_forwarded_to_open_observers_witness :
  reachable two_jobs
  /\ sent_by (handleCompleteUpdate net_7_closed done_event) two_jobs
     = [(5, complete_frame done_event)].
Proof.
  split; [exact reachable_two_jobs|].
  etransitivity;
    [exact (proj1 (proj2 (complete_forwarded_to_open_observers net_7_closed
                            done_event two_jobs reachable_two_jobs)))
    | reflexivity].
Defined.

(** *** What the module puts on the wire *)

Lemma frame_ok_status status : frame_ok (status_frame status).
Proof.
  now exists status.
Qed.

Lemma frame_ok_complete complete : frame_ok (complete_frame complete).
Proof.
  now exists complete.
Qed.

Lemma frame_ok_subscribed jobId : frame_ok (subscribed_frame jobId).
Proof.
  now exists jobId.
Qed.

Lemma Forall_fanout (P : WS * WSOutgoingMessage.t -> Prop) message l :
  (forall ws, P (ws, message)) ->
  Forall P (map (fun ws : WS => (ws, message)) l).
Proof.
  intros H. apply Forall_forall. intros f Hin. apply in_map_iff in Hin.
  destruct Hin as (ws & <- & _). apply H.
Qed.

(** The loop of [cleanupConnection] in any state: it ends normally and
    touches neither the wire, nor the console, nor the connection set. *)
Lemma Map_forEach_from_quiet ws ks : forall st,
  exists st',
    Map_forEach_from ks
      (fun subscribers jobId => delete_from ws subscribers jobId) st
    = (Normal tt, st')
    /\ wire st' = wire st /\ console st' = console st
    /\ allConnections st' = allConnections st.
Proof.
  induction ks as [|k ks IH]; intros st.
  - exists st. repeat split.
  - rewrite Map_forEach_from_cons.
    destruct (JSMap.get k (jobSubscriptions st)) as [v|]; [|apply IH].
    rewrite delete_from_run.
    destruct (IH (with_jobSubscriptions
                    (if Nat.eqb (JSSet.size (JSSet.delete ws v)) 0
                     then JSMap.delete k
                            (JSMap.set k (JSSet.delete ws v)
                               (jobSubscriptions st))
                     else JSMap.set k (JSSet.delete ws v)
                            (jobSubscriptions st)) st))
      as (st' & Hrun & Hw & Hc & Ha).
    exists st'. split; [exact Hrun|]. split; [exact Hw|].
    split; [exact Hc | exact Ha].
Qed.

Lemma cleanupConnection_quiet ws st :
  exists st',
    cleanupConnection ws st = (Normal tt, st')
    /\ wire st' = wire st /\ console st' = console st
    /\ allConnections st' = JSSet.delete ws (allConnections st).
Proof.
  unfold cleanupConnection, Map_forEach.
  unfold bind at 1, gets at 1. unfold bind at 1, modify at 1.
  unfold bind at 1, gets at 1.
  destruct (Map_forEach_from_quiet ws
              (JSMap.keys
                 (jobSubscriptions
                    (with_allConnections
                       (JSSet.delete ws (allConnections st)) st)))
              (with_allConnections (JSSet.delete ws (allConnections st)) st))
    as (st' & Hrun & Hw & Hc & Ha).
  exists st'. split; [exact Hrun|]. split; [exact Hw|].
  split; [exact Hc | exact Ha].
Qed.

Lemma wire_same_sent {A} (c : M A) st :
  wire (exec c st) = wire st -> sent_by c st = [].
Proof.
  intros H. apply sent_by_app. now rewrite app_nil_r.
Qed.

(** X2. The operations that take observers out are silent and cannot fail:
    in any state, [unsubscribeFromJob], [cleanupConnection] and the [close]
    and [error] handlers return normally and put no frame on the wire, not
    even an acknowledgment for the socket that unsubscribed. *)
Theorem removals_are_silent ws jobId error st :
  (outcome (unsubscribeFromJob ws jobId) st = Normal tt
   /\ sent_by (unsubscribeFromJob ws jobId) st = [])
  /\ (outcome (cleanupConnection ws) st = Normal tt
      /\ sent_by (cleanupConnection ws) st = [])
  /\ (outcome (ws_close ws) st = Normal tt
      /\ sent_by (ws_close ws) st = [])
  /\ (outcome (ws_error ws error) st = Normal tt
      /\ sent_by (ws_error ws error) st = []).
Proof.
  split; [|split; [|split]].
  - unfold outcome. rewrite unsubscribeFromJob_run. split; [reflexivity|].
    apply wire_same_sent. unfold exec. now rewrite unsubscribeFromJob_run.
  - destruct (cleanupConnection_quiet ws st) as (st' & Hrun & Hw & _).
    unfold outcome. rewrite Hrun. split; [reflexivity|].
    apply wire_same_sent. unfold exec. now rewrite Hrun.
  - destruct (cleanupConnection_quiet ws st) as (st' & Hrun & Hw & _).
    assert (Hclose : ws_close ws st
                     = (Normal tt,
                        mkState (jobSubscriptions st') (allConnections st')
                          (wire st')
                          (console st'
                           ++ [LogDisconnected
                                 (JSSet.size (allConnections st'))]))).
    { unfold ws_close, bind. now rewrite Hrun. }
    unfold outcome. rewrite Hclose. split; [reflexivity|].
    apply wire_same_sent. unfold exec. now rewrite Hclose.
  - unfold ws_error, bind, console_push, modify.
    destruct (cleanupConnection_quiet ws
                (mkState (jobSubscriptions st) (allConnections st) (wire st)
                   (console st ++ [ErrorWebSocket error])))
      as (st' & Hrun & Hw & _).
    unfold outcome. rewrite Hrun. split; [reflexivity|].
    apply wire_same_sent. unfold exec. now rewrite Hrun.
Qed.

(** Every call adds to the wire only frames that the protocol has. *)
Lemma run_call_wire net c st :
  reachable st ->
  exists d,
    wire (exec (run_call net c) st) = wire st ++ d
    /\ Forall (fun f => frame_ok (snd f)) d.
Proof.
  intros Hr.
  assert (Hsend : forall ws message st0,
             frame_ok message ->
             exists d, wire (after_send net ws message st0) = wire st0 ++ d
                       /\ Forall (fun f => frame_ok (snd f)) d).
  { intros ws message st0 Hok. rewrite after_send_wire. eexists.
    split; [reflexivity|].
    destruct (accepts net ws message); repeat constructor. exact Hok. }
  assert (Hnone : forall st', wire st' = wire st ->
                    exists d, wire st' = wire st ++ d
                              /\ Forall (fun f => frame_ok (snd f)) d).
  { intros st' H. exists []. rewrite app_nil_r. split; [exact H|constructor]. }
  assert (Hcast : forall jobId message,
             (frame_ok message) ->
             exists d,
               wire (exec (broadcastToJob net jobId message) st) = wire st ++ d
               /\ Forall (fun f => frame_ok (snd f)) d).
  { intros jobId message Hok. unfold exec. rewrite broadcastToJob_run.
    cbn [snd]. rewrite fold_send_wire. eexists. split; [reflexivity|].
    apply Forall_fanout. intros ws. exact Hok. }
  unfold exec.
  destruct c as [ws|ws message|ws|ws e|status|complete|ws j|ws j|ws];
    cbn [run_call].
  - apply Hnone. reflexivity.
  - unfold ws_message.
    destruct (WSMessage.type message);
      [destruct (WSMessage.job_id message) as [j|];
       [destruct (truthy j)|]..|].
    + rewrite subscribeToJob_run. cbn [snd].
      destruct (Hsend ws (subscribed_frame j)
                  (with_jobSubscriptions
                     (JSMap.set j (JSSet.add ws (observers j st))
                        (jobSubscriptions st)) st)
                  (frame_ok_subscribed j)) as (d & Hd & Hok).
      exists d. split; [exact Hd | exact Hok].
    + apply Hnone. reflexivity.
    + apply Hnone. reflexivity.
    + apply Hnone. now rewrite unsubscribeFromJob_run.
    + apply Hnone. reflexivity.
    + apply Hnone. reflexivity.
    + rewrite sendMessage_run. cbn [snd].
      apply (Hsend ws pong_frame st). reflexivity.
  - apply Hnone.
    rewrite ws_close_run by (apply reachable_invariant; exact Hr).
    reflexivity.
  - apply Hnone.
    rewrite ws_error_run by (apply reachable_invariant; exact Hr).
    reflexivity.
  - apply (Hcast (StatusMessage.job_id status) (status_frame status)).
    apply frame_ok_status.
  - apply (Hcast (CompleteMessage.job_id complete) (complete_frame complete)).
    apply frame_ok_complete.
  - rewrite subscribeToJob_run. cbn [snd].
    destruct (Hsend ws (subscribed_frame j)
                (with_jobSubscriptions
                   (JSMap.set j (JSSet.add ws (observers j st))
                      (jobSubscriptions st)) st)
                (frame_ok_subscribed j)) as (d & Hd & Hok).
    exists d. split; [exact Hd | exact Hok].
  - apply Hnone. now rewrite unsubscribeFromJob_run.
  - apply Hnone.
    rewrite cleanupConnection_run by (apply reachable_invariant; exact Hr).
    reflexivity.
Qed.

(** X3. Whatever the module has ever put on the wire is a frame of the
    protocol: a [status] or [complete] frame carries its event and, beside
    it, the job id of that event; a [subscribed] frame names a job and says
    so in its message; a [pong] carries nothing; and no frame is tagged
    [error]. *)
Theorem wire_holds_protocol_frames st :
  reachable st ->
  Forall (fun f => frame_ok (snd f)) (wire st)
  /\ (forall f, In f (wire st) ->
        WSOutgoingMessage.type (snd f) <> Terror
        /\ (WSOutgoingMessage.type (snd f) = Tpong <->
            WSOutgoingMessage.job_id (snd f) = None)).
Proof.
  intros Hr.
  assert (Hall : Forall (fun f => frame_ok (snd f)) (wire st)).
  { induction Hr as [|net c st Hr IH]; [constructor|].
    destruct (run_call_wire net c st Hr) as (d & Hd & Hok).
    rewrite Hd. apply Forall_app. now split. }
  split; [exact Hall|].
  intros f Hin. rewrite Forall_forall in Hall. specialize (Hall f Hin).
  unfold frame_ok in Hall.
  destruct (WSOutgoingMessage.type (snd f)) eqn:Hty.
  - destruct Hall as [status ->]. split; [discriminate|].
    split; discriminate.
  - destruct Hall as [complete ->]. split; [discriminate|].
    split; discriminate.
  - contradiction.
  - destruct Hall as [jobId ->]. split; [discriminate|].
    split; discriminate.
  - rewrite Hall. split; [discriminate|]. split; reflexivity.
Qed.

Lemma wire_holds_protocol_frames_witness :
  reachable two_jobs
  /\ Forall (fun f => frame_ok (snd f)) (wire two_jobs).
Proof.
  split; [exact reachable_two_jobs|].
  exact (proj1 (wire_holds_protocol_frames two_jobs reachable_two_jobs)).
Defined.

(** *** Subscribing and unsubscribing *)

Lemma unsubscribed_absent ws jobId m :
  no_empty_set m ->
  (forall s, JSMap.get jobId m = Some s -> ~ In ws s) ->
  unsubscribed ws jobId m = m.
Proof.
  intros Hne Hout. unfold unsubscribed.
  destruct (JSMap.get jobId m) as [s|] eqn:E; [|reflexivity].
  rewrite (JSSetFacts.Set_delete_absent ws s) by now apply Hout.
  destruct (Nat.eqb (JSSet.size s) 0) eqn:Esz.
  - apply JSSetFacts.size_0 in Esz.
    exfalso. now apply (no_empty_set_get jobId s m Hne E).
  - now apply JSMapFacts.set_same_value.
Qed.

Lemma delete_add_new ws s : ~ In ws s -> JSSet.delete ws (JSSet.add ws s) = s.
Proof.
  intros H. unfold JSSet.add.
  rewrite (proj2 (JSSetFacts.has_false ws s) H).
  unfold JSSet.delete. rewrite filter_app. cbn [filter].
  rewrite Nat.eqb_refl. cbn [negb]. rewrite app_nil_r.
  now apply JSSetFacts.Set_delete_absent.
Qed.

Lemma exec_unsubscribeFromJob ws jobId st :
  exec (unsubscribeFromJob ws jobId) st
  = with_jobSubscriptions (unsubscribed ws jobId (jobSubscriptions st)) st.
Proof.
  unfold exec. now rewrite unsubscribeFromJob_run.
Qed.

(** X4. Subscribing a socket to a job it does not watch and then
    unsubscribing it gives back the Map exactly as it was, keys and members
    in their old order, whether or not the job had an entry before; the
    connection set is untouched and the only frame sent is the
    acknowledgment of the subscription. *)
Theorem subscribe_then_unsubscribe_restores net ws jobId st :
  reachable st ->
  ~ In ws (observers jobId st) ->
  let st' := exec (unsubscribeFromJob ws jobId)
               (exec (subscribeToJob net ws jobId) st) in
  jobSubscriptions st' = jobSubscriptions st
  /\ allConnections st' = allConnections st
  /\ wire st'
     = wire st
       ++ (if accepts net ws (subscribed_frame jobId)
           then [(ws, subscribed_frame jobId)] else []).
Proof.
  intros Hr Hout st'. subst st'.
  destruct (reachable_invariant st Hr) as [Hwf Hne].
  rewrite exec_unsubscribeFromJob.
  cbn [with_jobSubscriptions jobSubscriptions allConnections wire].
  rewrite jobSubscriptions_subscribe, allConnections_subscribe.
  split; [|split; [reflexivity|]].
  - unfold unsubscribed. rewrite JSMapFacts.get_set_same.
    rewrite delete_add_new by assumption. rewrite JSMapFacts.set_set.
    unfold observers in *.
    destruct (JSMap.get jobId (jobSubscriptions st)) as [s|] eqn:E.
    + destruct (Nat.eqb (JSSet.size s) 0) eqn:Esz.
      * apply JSSetFacts.size_0 in Esz.
        exfalso. now apply (no_empty_set_get jobId s _ Hne E).
      * now apply JSMapFacts.set_same_value.
    + cbn [JSSet.size List.length Nat.eqb].
      rewrite (JSMapFacts.set_absent jobId _ _ E).
      rewrite JSMapFacts.delete_app.
      rewrite (JSMapFacts.Map_delete_absent jobId _ E).
      unfold JSMap.delete. cbn [filter fst]. rewrite String.eqb_refl.
      cbn [negb]. apply app_nil_r.
  - unfold exec. rewrite subscribeToJob_run. cbn [snd].
    now rewrite after_send_wire.
Qed.

Lemma subscribe_then_unsubscribe_restores_witness :
  reachable two_jobs
  /\ ~ In 5 (observers "J2" two_jobs)
  /\ jobSubscriptions
       (exec (unsubscribeFromJob 5 "J2")
          (exec (subscribeToJob net_open 5 "J2") two_jobs))
     = jobSubscriptions two_jobs.
Proof.
  assert (H : ~ In 5 (observers "J2" two_jobs)).
  { simpl. intros [H | []]. discriminate. }
  split; [exact reachable_two_jobs|]. split; [exact H|].
  exact (proj1 (subscribe_then_unsubscribe_restores net_open 5 "J2" two_jobs
                  reachable_two_jobs H)).
Defined.

(** X5. [unsubscribeFromJob] takes exactly that socket out of exactly that
    job: the other observers of the job stay, in their order, the observers
    of every other job and the connection set are as before, and in a
    reachable state a second call changes nothing more. *)
Theorem unsubscribe_removes_one_membership ws jobId st :
  reachable st ->
  let st' := exec (unsubscribeFromJob ws jobId) st in
  observers jobId st' = JSSet.delete ws (observers jobId st)
  /\ (forall other, other <> ws ->
         (In other (observers jobId st') <-> In other (observers jobId st)))
  /\ (forall otherJob, otherJob <> jobId ->
         observers otherJob st' = observers otherJob st)
  /\ allConnections st' = allConnections st
  /\ exec (unsubscribeFromJob ws jobId) st' = st'.
Proof.
  intros Hr st'. subst st'.
  split; [apply observers_unsubscribe|].
  split; [|split; [|split]].
  - intros other Hne. rewrite observers_unsubscribe, JSSetFacts.In_Set_delete.
    tauto.
  - intros otherJob Hne. rewrite exec_unsubscribeFromJob. unfold observers.
    cbn [with_jobSubscriptions jobSubscriptions].
    now rewrite get_unsubscribed_other.
  - now rewrite exec_unsubscribeFromJob.
  - assert (Hr' : reachable (exec (unsubscribeFromJob ws jobId) st))
      by apply (reachable_call net_open (CallUnsubscribe ws jobId) st Hr).
    destruct (reachable_invariant _ Hr') as [_ Hne].
    pose proof (observers_unsubscribe ws jobId st) as Hobs.
    rewrite (exec_unsubscribeFromJob ws jobId
               (exec (unsubscribeFromJob ws jobId) st)).
    rewrite unsubscribed_absent; [now destruct (exec _ st)| exact Hne |].
    intros s Hs Hin. unfold observers in Hobs at 1. rewrite Hs in Hobs.
    rewrite Hobs in Hin. apply JSSetFacts.In_Set_delete in Hin. tauto.
Qed.

Lemma unsubscribe_removes_one_membership_witness :
  reachable two_jobs
  /\ observers "J1" (exec (unsubscribeFromJob 5 "J1") two_jobs) = [7]
  /\ observers "J2" (exec (unsubscribeFromJob 5 "J1") two_jobs)
     = observers "J2" two_jobs.
Proof.
  pose proof (unsubscribe_removes_one_membership 5 "J1" two_jobs
                reachable_two_jobs) as (Hobs & _ & Hother & _).
  split; [exact reachable_two_jobs|]. split.
  - etransitivity; [exact Hobs | reflexivity].
  - apply Hother. discriminate.
Defined.

(** X6. [subscribeToJob] only adds: the socket goes last in the job's Set
    when it is new there and the Set stays as it is when it is not, nobody is
    taken out of any Set, the observers of every other job and the connection
    set are as before, and the keys of the Map keep their order, with the job
    added last when it had no entry. *)
Theorem subscribe_only_adds net ws jobId st :
  let st' := exec (subscribeToJob net ws jobId) st in
  (~ In ws (observers jobId st) ->
   observers jobId st' = observers jobId st ++ [ws])
  /\ (In ws (observers jobId st) ->
      jobSubscriptions st' = jobSubscriptions st)
  /\ (forall otherJob, otherJob <> jobId ->
         observers otherJob st' = observers otherJob st)
  /\ (forall anyJob other,
         In other (observers anyJob st) -> In other (observers anyJob st'))
  /\ allConnections st' = allConnections st
  /\ JSMap.keys (jobSubscriptions st')
     = JSMap.keys (jobSubscriptions st)
       ++ (if JSMap.has jobId (jobSubscriptions st) then [] else [jobId]).
Proof.
  intros st'. subst st'.
  assert (Hother : forall otherJob, otherJob <> jobId ->
             observers otherJob (exec (subscribeToJob net ws jobId) st)
             = observers otherJob st).
  { intros otherJob Hne. unfold observers.
    rewrite jobSubscriptions_subscribe.
    now rewrite JSMapFacts.get_set_other. }
  split; [|split; [|split; [|split; [|split]]]].
  - intros Hout. rewrite observers_subscribe. unfold JSSet.add.
    now rewrite (proj2 (JSSetFacts.has_false ws _) Hout).
  - intros Hin. rewrite jobSubscriptions_subscribe.
    rewrite (JSSetFacts.add_member ws _ Hin).
    apply JSMapFacts.set_same_value. unfold observers in *.
    destruct (JSMap.get jobId (jobSubscriptions st)); [reflexivity|].
    destruct Hin.
  - exact Hother.
  - intros anyJob other Hin.
    destruct (String.eqb_spec anyJob jobId) as [->|Hne].
    + rewrite observers_subscribe. apply JSSetFacts.In_add. now right.
    + now rewrite Hother.
  - apply allConnections_subscribe.
  - rewrite jobSubscriptions_subscribe. unfold JSMap.has.
    destruct (JSMap.get jobId (jobSubscriptions st)) eqn:E.
    + rewrite JSMapFacts.keys_set_present by congruence.
      now rewrite app_nil_r.
    + now apply JSMapFacts.keys_set_absent.
Qed.

Lemma subscribe_only_adds_witness :
  ~ In 9 (observers "J1" two_jobs)
  /\ observers "J1" (exec (subscribeToJob net_closing 9 "J1") two_jobs)
     = [5; 7; 9].
Proof.
  assert (H : ~ In 9 (observers "J1" two_jobs)).
  { simpl. intros [H | [H | []]]; discriminate. }
  split; [exact H|].
  etransitivity;
    [exact (proj1 (subscribe_only_adds net_closing 9 "J1" two_jobs) H)
    | reflexivity].
Defined.

(** *** The message handler *)

Lemma keys_unsubscribed_incl ws jobId (m : JSMap.t JSSet.t) k :
  In k (JSMap.keys (unsubscribed ws jobId m)) -> In k (JSMap.keys m).
Proof.
  unfold unsubscribed. destruct (JSMap.get jobId m) as [s|] eqn:E; [|trivial].
  assert (Hset : JSMap.keys (JSMap.set jobId (JSSet.delete ws s) m)
                 = JSMap.keys m)
    by (apply JSMapFacts.keys_set_present; congruence).
  destruct (Nat.eqb _ 0).
  - rewrite JSMapFacts.keys_delete, filter_In, Hset. tauto.
  - now rewrite Hset.
Qed.

(** While the module serves, the empty string is no key of the Map. *)
Lemma served_no_empty_key st :
  served st -> ~ In EmptyString (JSMap.keys (jobSubscriptions st)).
Proof.
  induction 1 as [|net ev st Hs IH]; [intros []|].
  pose proof (proj1 (proj1 (reachable_invariant st (served_reachable st Hs))))
    as Hnd.
  unfold exec.
  destruct ev as [ws|ws message|ws|ws e|status|complete]; cbn [on_event].
  - exact IH.
  - unfold ws_message.
    destruct (WSMessage.type message);
      [destruct (WSMessage.job_id message) as [j|];
       [destruct (truthy j) eqn:Hj|]..|]; try exact IH.
    + rewrite subscribeToJob_run. cbn [snd].
      rewrite after_send_jobSubscriptions.
      cbn [with_jobSubscriptions jobSubscriptions].
      destruct (JSMap.get j (jobSubscriptions st)) eqn:E.
      * rewrite JSMapFacts.keys_set_present by congruence. exact IH.
      * rewrite JSMapFacts.keys_set_absent by assumption.
        rewrite in_app_iff. intros [Hin | [Heq | []]]; [now apply IH|].
        subst j. discriminate.
    + rewrite unsubscribeFromJob_run.
      cbn [snd with_jobSubscriptions jobSubscriptions].
      intros Hin. apply IH. eapply keys_unsubscribed_incl. exact Hin.
    + rewrite sendMessage_run. cbn [snd].
      now rewrite after_send_jobSubscriptions.
  - rewrite ws_close_run by assumption. cbn [snd jobSubscriptions].
    intros Hin. apply IH. eapply keys_purged_incl. exact Hin.
  - rewrite ws_error_run by assumption. cbn [snd jobSubscriptions].
    intros Hin. apply IH. eapply keys_purged_incl. exact Hin.
  - unfold handleStatusUpdate. rewrite broadcastToJob_run. cbn [snd].
    now rewrite fold_send_jobSubscriptions.
  - unfold handleCompleteUpdate. rewrite broadcastToJob_run. cbn [snd].
    now rewrite fold_send_jobSubscriptions.
Qed.

(** X7. The message handler at its edges. A [subscribe] or [unsubscribe]
    message without a job id, or with the empty string as job id, changes
    nothing and is not answered; so, while the module serves, the empty
    string is never a job of the registry and a status event for the empty
    job id changes nothing. A [ping] is answered with one [pong] frame,
    without a job id, to the socket that sent it when that socket takes the
    frame, and leaves the Map and the connection set alone. *)
Theorem message_handler_edges net ws st :
  (forall type,
      type <> Mping ->
      ws_message net ws (WSMessage.mk type None) st = (Normal tt, st)
      /\ ws_message net ws (WSMessage.mk type (Some EmptyString)) st
         = (Normal tt, st))
  /\ (served st ->
      JSMap.has EmptyString (jobSubscriptions st) = false
      /\ forall status,
           StatusMessage.job_id status = EmptyString ->
           exec (handleStatusUpdate net status) st = st)
  /\ (forall job_id,
         let ping := ws_message net ws (WSMessage.mk Mping job_id) in
         outcome ping st = Normal tt
         /\ sent_by ping st
            = (if accepts net ws pong_frame then [(ws, pong_frame)] else [])
         /\ WSOutgoingMessage.job_id pong_frame = None
         /\ jobSubscriptions (exec ping st) = jobSubscriptions st
         /\ allConnections (exec ping st) = allConnections st).
Proof.
  split; [|split].
  - intros type Hty. destruct type; [| |contradiction]; split; reflexivity.
  - intros Hs.
    assert (Hget : JSMap.get EmptyString (jobSubscriptions st) = None).
    { apply JSMapFacts.get_None_keys. now apply served_no_empty_key. }
    split; [unfold JSMap.has; now rewrite Hget|].
    intros status Hid. unfold exec, handleStatusUpdate.
    rewrite broadcastToJob_run. cbn [snd]. unfold observers.
    now rewrite Hid, Hget.
  - intros job_id ping. subst ping. unfold ws_message.
    cbn [WSMessage.type]. fold pong_frame. unfold outcome, exec.
    split; [now rewrite sendMessage_run|].
    split; [|split; [reflexivity|]].
    + apply sent_by_app. unfold exec. rewrite sendMessage_run. cbn [snd].
      apply after_send_wire.
    + rewrite sendMessage_run. cbn [snd].
      split; [apply after_send_jobSubscriptions
             | apply after_send_allConnections].
Qed.

Lemma served_one_client : served one_client.
Proof.
  unfold one_client. repeat apply served_event. apply served_initial.
Qed.

Lemma message_handler_edges_witness :
  Msubscribe <> Mping
  /\ served one_client
  /\ ws_message net_open 5 (WSMessage.mk Msubscribe (Some EmptyString))
       one_client
     = (Normal tt, one_client)
  /\ JSMap.has EmptyString (jobSubscriptions one_client) = false.
Proof.
  pose proof (message_handler_edges net_open 5 one_client)
    as (Hignored & Hserved & _).
  assert (Hty : Msubscribe <> Mping) by discriminate.
  split; [exact Hty|]. split; [exact served_one_client|].
  split; [exact (proj2 (Hignored Msubscribe Hty))|].
  exact (proj1 (Hserved served_one_client)).
Defined.

(** *** The connection set *)

Lemma allConnections_run_call net c st :
  reachable st ->
  allConnections (exec (run_call net c) st)
  = match c with
    | CallOpen ws => JSSet.add ws (allConnections st)
    | CallClose ws | CallError ws _ | CallCleanup ws =>
        JSSet.delete ws (allConnections st)
    | _ => allConnections st
    end.
Proof.
  intros Hr. pose proof (proj1 (proj1 (reachable_invariant st Hr))) as Hnd.
  unfold exec.
  destruct c as [ws|ws message|ws|ws e|status|complete|ws j|ws j|ws];
    cbn [run_call].
  - reflexivity.
  - unfold ws_message.
    destruct (WSMessage.type message);
      [destruct (WSMessage.job_id message) as [j|];
       [destruct (truthy j)|]..|]; try reflexivity.
    + apply allConnections_subscribe.
    + now rewrite unsubscribeFromJob_run.
    + rewrite sendMessage_run. apply after_send_allConnections.
  - now rewrite ws_close_run.
  - now rewrite ws_error_run.
  - unfold handleStatusUpdate. rewrite broadcastToJob_run.
    apply fold_send_allConnections.
  - unfold handleCompleteUpdate. rewrite broadcastToJob_run.
    apply fold_send_allConnections.
  - apply allConnections_subscribe.
  - now rewrite unsubscribeFromJob_run.
  - now rewrite cleanupConnection_run.
Qed.

Lemma reachable_connections_NoDup st :
  reachable st -> NoDup (allConnections st).
Proof.
  induction 1 as [|net c st Hr IH]; [constructor|].
  rewrite allConnections_run_call by assumption.
  destruct c; try assumption;
    (now apply JSSetFacts.NoDup_add) || (now apply JSSetFacts.NoDup_delete).
Qed.

(** X8. The connection set counts every socket once. In a reachable state
    no socket is in it twice; [open] adds one to the total for a socket that
    is new and nothing for one that is there, and touches neither the Map
    nor the wire; [close] leaves the socket out of the set, and of every
    job; and [open] followed by [close] of a new socket gives back the
    connection set as it was. *)
Theorem connections_are_counted_once ws st :
  reachable st ->
  NoDup (allConnections st)
  /\ fst (getConnectionStats (exec (ws_open ws) st))
     = (if JSSet.has ws (allConnections st)
        then fst (getConnectionStats st)
        else S (fst (getConnectionStats st)))
  /\ jobSubscriptions (exec (ws_open ws) st) = jobSubscriptions st
  /\ wire (exec (ws_open ws) st) = wire st
  /\ ~ In ws (allConnections (exec (ws_close ws) st))
  /\ (forall jobId, ~ In ws (observers jobId (exec (ws_close ws) st)))
  /\ (~ In ws (allConnections st) ->
      allConnections (exec (ws_close ws) (exec (ws_open ws) st))
      = allConnections st).
Proof.
  intros Hr. pose proof (proj1 (proj1 (reachable_invariant st Hr))) as Hnd.
  split; [now apply reachable_connections_NoDup|].
  split; [|split; [reflexivity|split; [reflexivity|]]].
  - unfold getConnectionStats, exec, ws_open, bind, gets, modify,
      console_push, with_allConnections. cbn [fst snd allConnections].
    unfold JSSet.add, JSSet.size.
    destruct (JSSet.has ws (allConnections st)); [reflexivity|].
    cbn. rewrite length_app. cbn [List.length]. lia.
  - split; [|split].
    + unfold exec. rewrite ws_close_run by assumption.
      cbn [snd allConnections]. rewrite JSSetFacts.In_Set_delete. tauto.
    + intros jobId. unfold exec. rewrite ws_close_run by assumption.
      cbn [snd]. unfold observers. cbn [jobSubscriptions].
      rewrite get_purged by assumption.
      destruct (JSMap.get jobId (jobSubscriptions st)) as [s|]; [|intros []].
      destruct (Nat.eqb _ 0); [intros []|].
      rewrite JSSetFacts.In_Set_delete. tauto.
    + intros Hnew.
      assert (Hr' : reachable (exec (ws_open ws) st))
        by apply (reachable_call net_open (CallOpen ws) st Hr).
      pose proof (allConnections_run_call net_open (CallClose ws) _ Hr')
        as Hclose.
      pose proof (allConnections_run_call net_open (CallOpen ws) _ Hr)
        as Hopen.
      cbn [run_call] in Hclose, Hopen. rewrite Hclose, Hopen.
      now apply delete_add_new.
Qed.

Lemma connections_are_counted_once_witness :
  reachable two_jobs
  /\ ~ In 5 (allConnections two_jobs)
  /\ fst (getConnectionStats
            (exec (ws_open 5) (exec (ws_open 5) two_jobs))) = 1
  /\ allConnections (exec (ws_close 5) (exec (ws_open 5) two_jobs))
     = allConnections two_jobs.
Proof.
  assert (Hnew : ~ In 5 (allConnections two_jobs)) by (intros []).
  split; [exact reachable_two_jobs|]. split; [exact Hnew|]. split.
  - reflexivity.
  - apply (connections_are_counted_once 5 two_jobs reachable_two_jobs).
    exact Hnew.
Defined.

(** X9. The second number of [getConnectionStats] is the number of jobs
    that somebody watches: in a reachable state the keys of the Map are
    pairwise different, and a job id is one of them exactly when it has an
    observer; so the number is 0 exactly when nobody is subscribed to
    anything. *)
Theorem stats_count_watched_jobs st :
  reachable st ->
  snd (getConnectionStats st)
  = List.length (JSMap.keys (jobSubscriptions st))
  /\ NoDup (JSMap.keys (jobSubscriptions st))
  /\ (forall jobId,
         In jobId (JSMap.keys (jobSubscriptions st))
         <-> observers jobId st <> [])
  /\ (snd (getConnectionStats st) = 0
      <-> forall jobId, observers jobId st = []).
Proof.
  intros Hr. destruct (reachable_invariant st Hr) as [[Hnd _] Hne].
  assert (Hkeys : forall jobId,
             In jobId (JSMap.keys (jobSubscriptions st))
             <-> observers jobId st <> []).
  { intros jobId. rewrite <- (has_observers jobId st Hne).
    rewrite <- JSMapFacts.get_In_keys. unfold JSMap.has.
    destruct (JSMap.get jobId (jobSubscriptions st)); split; congruence. }
  split; [|split; [exact Hnd|split; [exact Hkeys|]]].
  - unfold getConnectionStats, JSMap.size, JSMap.keys. cbn [snd].
    now rewrite length_map.
  - unfold getConnectionStats, JSMap.size. cbn [snd]. split.
    + intros Hzero jobId. apply length_zero_iff_nil in Hzero.
      unfold observers. now rewrite Hzero.
    + intros Hnone. destruct (jobSubscriptions st) as [|[k v] m] eqn:E;
        [reflexivity|].
      exfalso. apply (proj1 (Hkeys k)); [now left|apply Hnone].
Qed.

Lemma stats_count_watched_jobs_witness :
  reachable two_jobs /\ snd (getConnectionStats two_jobs) = 2.
Proof.
  split; [exact reachable_two_jobs|].
  etransitivity;
    [exact (proj1 (stats_count_watched_jobs two_jobs reachable_two_jobs))
    | reflexivity].
Defined.

End GatewayFacts.

(** ** Submissions *)

Module IntakeFacts.

Import Eff Submit Intake SubmitFacts.

Lemma chosen_model_valid body : Models.isValidModel (chosen_model body) = true.
Proof.
  unfold chosen_model. destruct (model_id body) as [m|]; [|reflexivity].
  destruct (truthy m); [|reflexivity]. cbn [andb].
  destruct (Models.isValidModel m) eqn:E; [exact E | reflexivity].
Qed.

(** What the write to the work list does, by the state of the client. *)
Lemma pushJobToQueue_run job w :
  pushJobToQueue job w
  = match publisherClient w with
    | Some true =>
        (Normal tt,
         mkWorld (jobs w) (store_errors w) (store_requests w)
                 (publisherClient w) (job :: queue w) (published w)
                 (console w ++ [LogPushed (JobMessage.job_id job)]))
    | Some false => (Throw "The client is closed", w)
    | None =>
        (Throw "Redis publisher not initialized. Call initRedis() first.", w)
    end.
Proof.
  unfold pushJobToQueue, getPublisher, bind, gets, throw, modify,
    console_push.
  destruct (publisherClient w) as [[|]|] eqn:E; try reflexivity.
  cbn. now rewrite E.
Qed.

(** The handler from the creation of the job on. *)
Lemma post_repos_from_model env body model w :
  (job <- createJob env (repo_url body) model ;;
   match job with
   | None => ret (mkResponse (Some 500) (Failure "Failed to create job"))
   | Some job =>
       updateJobStatus env (Job.id job) processing None None ;;
       try_catch
         (pushJobToQueue
            (JobMessage.mk (Job.id job) (repo_url body) model (now env)) ;;
          ret (mkResponse None
                 (Queued (Job.id job) (repo_url body)
                    (extractRepoName (repo_url body)) model
                    processing "Repository queued for analysis")))
         (fun error =>
            console_push (ErrorPublish error) ;;
            updateJobStatus env (Job.id job) failed None
              (Some "Failed to queue job") ;;
            ret (mkResponse (Some 500)
                   (Failure "Failed to queue job for processing")))
   end) w
  = match createJob env (repo_url body) model w with
    | (Normal None, w1) =>
        (Normal (mkResponse (Some 500) (Failure "Failed to create job")), w1)
    | (Normal (Some job), w1) =>
        let w2 :=
          exec (updateJobStatus env (Job.id job) processing None None) w1 in
        match
          pushJobToQueue
            (JobMessage.mk (Job.id job) (repo_url body) model (now env)) w2
        with
        | (Normal _, w3) =>
            (Normal
               (mkResponse None
                  (Queued (Job.id job) (repo_url body)
                     (extractRepoName (repo_url body)) model
                     processing "Repository queued for analysis")),
             w3)
        | (Throw e, w3) =>
            (Normal
               (mkResponse (Some 500)
                  (Failure "Failed to queue job for processing")),
             exec (updateJobStatus env (Job.id job) failed None
                     (Some "Failed to queue job"))
                  (exec (console_push (ErrorPublish e)) w3))
        end
    | (Throw e, w1) => (Throw e, w1)
    end.
Proof.
  unfold bind at 1.
  destruct (createJob env (repo_url body) model w)
    as [[[job|]|e] w1]; [|reflexivity|reflexivity].
  unfold bind at 1. unfold exec.
  destruct (updateJobStatus env (Job.id job) processing None None w1)
    as [[b|e] w2] eqn:E2.
  - cbn [snd]. unfold try_catch, bind at 1.
    destruct (pushJobToQueue _ w2) as [[[]|e] w3]; [reflexivity|].
    unfold bind. unfold console_push at 1, modify at 1.
    destruct (updateJobStatus env (Job.id job) failed None
                (Some "Failed to queue job") _) as [[b'|e'] w5] eqn:E5.
    + reflexivity.
    + rewrite updateJobStatus_run in E5. cbv zeta in E5.
      destruct (hd false _) in E5; discriminate.
  - rewrite updateJobStatus_run in E2. cbv zeta in E2.
    destruct (hd false _) in E2; discriminate.
Qed.

(** The handler as the sequence of its calls. *)
Lemma post_repos_run env body w :
  post_repos env body w
  = if isValidRepoUrl (repo_url body) then
      match createJob env (repo_url body) (chosen_model body) w with
      | (Normal None, w1) =>
          (Normal (mkResponse (Some 500) (Failure "Failed to create job")),
           w1)
      | (Normal (Some job), w1) =>
          let w2 :=
            exec (updateJobStatus env (Job.id job) processing None None)
                 w1 in
          match
            pushJobToQueue
              (JobMessage.mk (Job.id job) (repo_url body) (chosen_model body)
                 (now env)) w2
          with
          | (Normal _, w3) =>
              (Normal
                 (mkResponse None
                    (Queued (Job.id job) (repo_url body)
                       (extractRepoName (repo_url body)) (chosen_model body)
                       processing "Repository queued for analysis")),
               w3)
          | (Throw e, w3) =>
              (Normal
                 (mkResponse (Some 500)
                    (Failure "Failed to queue job for processing")),
               exec (updateJobStatus env (Job.id job) failed None
                       (Some "Failed to queue job"))
                    (exec (console_push (ErrorPublish e)) w3))
          end
      | (Throw e, w1) => (Throw e, w1)
      end
    else
      (Normal
         (mkResponse (Some 400)
            (Failure
               "Invalid repository URL. Supported: GitHub, GitLab, Bitbucket")),
       w).
Proof.
  rewrite <- post_repos_from_model. unfold post_repos.
  destruct (isValidRepoUrl (repo_url body)); [|reflexivity]. cbn [negb].
  destruct getDefaultModel_id as [m [Hm Hid]]. rewrite Hm, Hid.
  unfold chosen_model. destruct (model_id body) as [mid|]; [|reflexivity].
  destruct (truthy mid && Models.isValidModel mid); reflexivity.
Qed.

(** The runs of the handler, one by one: [Hrun] is the run, [Hvalid] what
    the check of the URL said, [E1], [E2] and [E3] the answers of the store
    and [Hbus] the state of the client. *)
Ltac submission_cases env body w :=
  let e := fresh "e" in
  pose proof (post_repos_run env body w) as Hrun;
  destruct (isValidRepoUrl (repo_url body)) eqn:Hvalid;
  [ rewrite createJob_run in Hrun; cbv zeta in Hrun;
    destruct (hd false (store_errors w)) eqn:E1;
    [ | unfold exec in Hrun; rewrite updateJobStatus_run in Hrun;
        cbv zeta in Hrun; world_simpl_in Hrun;
        destruct (hd false (tl (store_errors w))) eqn:E2;
        world_simpl_in Hrun;
        rewrite pushJobToQueue_run in Hrun; world_simpl_in Hrun;
        (destruct (publisherClient w) as [[|]|] eqn:Hbus;
         [ | unfold console_push, modify in Hrun; world_simpl_in Hrun;
             rewrite updateJobStatus_run in Hrun; cbv zeta in Hrun;
             world_simpl_in Hrun;
             destruct (hd false (tl (tl (store_errors w)))) eqn:E3;
             world_simpl_in Hrun ..]) ]
  | ].


Lemma body_ok_nonempty body :
  body_ok body = true <-> repo_url body <> EmptyString.
Proof.
  unfold body_ok. destruct (repo_url body) as [|c url]; cbn.
  - split; [discriminate | intros H; now destruct H].
  - split; [discriminate | reflexivity].
Qed.




(** X11. A submission that is turned away leaves no job. A body whose
    URL is empty is answered 422 by the route and the handler does not
    run; a URL that is not empty and is refused is answered 400 by the
    handler; in both cases the world is as it was: the store was not asked
    anything. When the store refuses the creation the answer is 500 with
    [Failed to create job]; the one request made is the insert, with the
    status [pending] and a model of the catalogue; the table, the work
    list and the channels are as they were. *)
Theorem rejected_submission_leaves_no_trace env body w :
  (repo_url body = EmptyString ->
   route_post_repos env body w = (Normal Unprocessable, w))
  /\ (repo_url body <> EmptyString ->
      isValidRepoUrl (repo_url body) = false ->
      route_post_repos env body w
      = (Normal
           (Handled
              (mkResponse (Some 400)
                 (Failure
                    "Invalid repository URL. Supported: GitHub, GitLab, Bitbucket"))),
         w))
  /\ (isValidRepoUrl (repo_url body) = true ->
      hd false (store_errors w) = true ->
      let w' := exec (post_repos env body) w in
      route_post_repos env body w
      = (Normal
           (Handled
              (mkResponse (Some 500) (Failure "Failed to create job"))),
         w')
      /\ outcome (post_repos env body) w
         = Normal (mkResponse (Some 500) (Failure "Failed to create job"))
      /\ requested_by (post_repos env body) w
         = [Insert (repo_url body) pending (chosen_model body)]
      /\ Models.isValidModel (chosen_model body) = true
      /\ jobs w' = jobs w
      /\ queue w' = queue w
      /\ published w' = published w).
Proof.
  split; [|split].
  - intros Hempty. unfold route_post_repos, body_ok. now rewrite Hempty.
  - intros Hne Hbad. apply body_ok_nonempty in Hne.
    unfold route_post_repos, bind. rewrite Hne, post_repos_run.
    now rewrite Hbad.
  - intros Hok Hdown. cbv zeta.
    assert (Hne : body_ok body = true).
    { apply body_ok_nonempty. intros Hempty. rewrite Hempty in Hok.
      discriminate Hok. }
    unfold route_post_repos, bind. rewrite Hne.
    unfold outcome, requested_by, exec.
    rewrite post_repos_run, Hok, createJob_run. cbv zeta. rewrite Hdown.
    world_simpl. rewrite RelayFacts.skipn_length_app.
    repeat split. apply chosen_model_valid.
Qed.

Lemma rejected_submission_leaves_no_trace_witness :
  repo_url body_empty_url = EmptyString
  /\ exec (route_post_repos env0 body_empty_url) world_ready = world_ready
  /\ repo_url body_http <> EmptyString
  /\ isValidRepoUrl (repo_url body_http) = false
  /\ exec (route_post_repos env0 body_http) world_ready = world_ready
  /\ isValidRepoUrl (repo_url body0) = true
  /\ hd false (store_errors world_store_down) = true
  /\ jobs (exec (post_repos env0 body0) world_store_down) = [old_row].
Proof.
  pose proof (rejected_submission_leaves_no_trace env0 body_empty_url
                world_ready) as [Hschema _].
  pose proof (rejected_submission_leaves_no_trace env0 body_http world_ready)
    as (_ & Hbad & _).
  pose proof (rejected_submission_leaves_no_trace env0 body0 world_store_down)
    as (_ & _ & Hdown).
  assert (H0 : repo_url body_empty_url = EmptyString) by reflexivity.
  assert (Hne : repo_url body_http <> EmptyString) by discriminate.
  assert (H1 : isValidRepoUrl (repo_url body_http) = false) by reflexivity.
  assert (H2 : isValidRepoUrl (repo_url body0) = true) by reflexivity.
  assert (H3 : hd false (store_errors world_store_down) = true)
    by reflexivity.
  split; [exact H0|]. split; [unfold exec; now rewrite (Hschema H0)|].
  split; [exact Hne|]. split; [exact H1|].
  split; [unfold exec; now rewrite (Hbad Hne H1)|].
  split; [exact H2|]. split; [exact H3|].
  exact (proj1 (proj2 (proj2 (proj2 (proj2 (Hdown H2 H3)))))).
Defined.

(** X12. A submission that goes through. With an accepted URL, a store
    that creates the job and a client that takes the write, the handler
    answers [queued]; the descriptor of the job, with the id the store gave,
    the URL, the model and the time of the request, is the new head of the
    work list, whose older entries are kept; nothing is published on a
    channel; the store was asked to insert the row and to set it to
    [processing], and nothing else. The row of the job is in the table with
    no error message, in status [processing] when the store took that
    update and still [pending] when it did not, while the answer says
    [processing] in both cases. *)
Theorem accepted_submission_is_queued env body w :
  isValidRepoUrl (repo_url body) = true ->
  hd false (store_errors w) = false ->
  publisherClient w = Some true ->
  let w' := exec (post_repos env body) w in
  let jobId := gen_random_uuid env in
  outcome (post_repos env body) w
  = Normal
      (mkResponse None
         (Queued jobId (repo_url body) (extractRepoName (repo_url body))
            (chosen_model body) processing "Repository queued for analysis"))
  /\ queue w' = descriptor env body :: queue w
  /\ published w' = published w
  /\ requested_by (post_repos env body) w
     = [ Insert (repo_url body) pending (chosen_model body);
         Update jobId processing None None ]
  /\ exists row,
       In row (jobs w')
       /\ Job.id row = jobId
       /\ Job.repo_url row = repo_url body
       /\ Job.selected_model row = chosen_model body
       /\ Job.error_message row = None
       /\ Job.result row = None
       /\ Job.status row
          = (if hd false (tl (store_errors w)) then pending else processing).
Proof.
  intros Hok Hstore Hclient. cbv zeta.
  unfold outcome, requested_by, exec.
  submission_cases env body w; try discriminate; rewrite Hrun; world_simpl.
  all: rewrite <- ?app_assoc; cbn [app];
    rewrite RelayFacts.skipn_length_app.
  all: split; [reflexivity|]; split; [reflexivity|]; split; [reflexivity|];
    split; [reflexivity|].
  - exists (new_row env body). split; [|now repeat split].
    apply in_app_iff. right. now left.
  - exists (updated env processing None None (new_row env body)).
    split; [|now repeat split].
    rewrite map_app, in_app_iff. right. cbn [map Job.id].
    rewrite String.eqb_refl. now left.
Qed.

Lemma accepted_submission_is_queued_witness :
  isValidRepoUrl (repo_url body_claude) = true
  /\ hd false (store_errors world_ready) = false
  /\ publisherClient world_ready = Some true
  /\ queue (exec (post_repos env0 body_claude) world_ready)
     = [JobMessage.mk (gen_random_uuid env0)
          "git@github.com:MateusMunaro/code-in-backend.git"
          "claude-3-haiku-20240307" (now env0)].
Proof.
  assert (H1 : isValidRepoUrl (repo_url body_claude) = true) by reflexivity.
  assert (H2 : hd false (store_errors world_ready) = false) by reflexivity.
  assert (H3 : publisherClient world_ready = Some true) by reflexivity.
  split; [exact H1|]. split; [exact H2|]. split; [exact H3|].
  exact (proj1 (proj2 (accepted_submission_is_queued env0 body_claude
                         world_ready H1 H2 H3))).
Defined.

Lemma other_rows_updated env jobId status result message js :
  other_rows jobId
    (map (fun j => if String.eqb (Job.id j) jobId
                   then updated env status result message j
                   else j) js)
  = other_rows jobId js.
Proof.
  induction js as [|j js IH]; [reflexivity|]. cbn [map other_rows filter].
  destruct (String.eqb (Job.id j) jobId) eqn:E.
  - cbn [updated Job.id]. rewrite E. exact IH.
  - rewrite E. cbn [negb]. f_equal. exact IH.
Qed.

Lemma other_rows_new env body js :
  other_rows (gen_random_uuid env) (js ++ [new_row env body])
  = other_rows (gen_random_uuid env) js.
Proof.
  unfold other_rows. rewrite filter_app. cbn [filter new_row Job.id].
  rewrite String.eqb_refl. apply app_nil_r.
Qed.

(** X13. What a submission asks of the store and of the bus, whatever
    happens. Its requests to the store are added to those of before, at
    most three of them, each answered by the next answer of the store: an
    insert of the URL as sent with the status [pending] and a model of the
    catalogue, then updates of the very job the store created, to
    [processing] without a message or to [failed] with the message
    [Failed to queue job], never with a result. The work list stays as it
    was or gets the descriptor of the job in front; and nothing is
    published on a channel. *)
Theorem submission_requests env body w :
  let w' := exec (post_repos env body) w in
  let requests := requested_by (post_repos env body) w in
  store_requests w' = store_requests w ++ requests
  /\ Forall (request_ok env body) requests
  /\ List.length requests <= 3
  /\ store_errors w' = skipn (List.length requests) (store_errors w)
  /\ (queue w' = queue w \/ queue w' = descriptor env body :: queue w)
  /\ published w' = published w
  /\ publisherClient w' = publisherClient w.
Proof.
  cbv zeta. unfold requested_by, exec.
  assert (Hinsert : request_ok env body
                      (Insert (repo_url body) pending (chosen_model body))).
  { repeat split. apply chosen_model_valid. }
  assert (Hprocessing : request_ok env body
                          (Update (gen_random_uuid env) processing None None)).
  { split; [reflexivity|]. split; [reflexivity|]. now left. }
  assert (Hfailed : request_ok env body
                      (Update (gen_random_uuid env) failed None
                         (Some "Failed to queue job"))).
  { split; [reflexivity|]. split; [reflexivity|]. now right. }
  submission_cases env body w; rewrite Hrun; world_simpl.
  all: rewrite <- ?app_assoc; cbn [app];
    rewrite ?RelayFacts.skipn_length_app.
  all: try (rewrite skipn_all, app_nil_r; cbn [List.length skipn];
            repeat split; [constructor | lia | now left]).
  all: rewrite ?Hbus; cbn [List.length].
  all: split; [reflexivity|].
  all: cbn [truthy].
  all: split; [repeat (apply Forall_cons; [assumption|]); apply Forall_nil|].
  all: split; [lia|].
  all: split; [destruct (store_errors w) as [|? [|? [|? ?]]]; reflexivity|].
  all: split; [(now left) || (now right)|].
  all: split; reflexivity.
Qed.

(** X14. A submission touches the row of its own job only. The rows of
    the table whose id is not the one the store gave to the new job are,
    after the handler, the ones of before, in the same order and unchanged;
    no row is removed, and at most one is added. *)
Theorem submission_keeps_other_rows env body w :
  let w' := exec (post_repos env body) w in
  other_rows (gen_random_uuid env) (jobs w')
  = other_rows (gen_random_uuid env) (jobs w)
  /\ List.length (jobs w) <= List.length (jobs w') <= S (List.length (jobs w))
  /\ (forall row,
         In row (jobs w) -> Job.id row <> gen_random_uuid env ->
         In row (jobs w')).
Proof.
  cbv zeta.
  assert (Hrows :
    other_rows (gen_random_uuid env) (jobs (exec (post_repos env body) w))
    = other_rows (gen_random_uuid env) (jobs w)
    /\ List.length (jobs w)
       <= List.length (jobs (exec (post_repos env body) w))
       <= S (List.length (jobs w))).
  { unfold exec.
    submission_cases env body w; rewrite Hrun; world_simpl.
    all: rewrite ?other_rows_updated.
    all: fold (new_row env body); rewrite ?other_rows_new.
    all: rewrite ?length_map, ?length_app; cbn [List.length].
    all: split; [reflexivity | lia]. }
  destruct Hrows as [Hsame Hlen]. split; [exact Hsame|]. split; [exact Hlen|].
  intros row Hin Hid.
  assert (Hrow : In row (other_rows (gen_random_uuid env) (jobs w))).
  { apply filter_In. split; [exact Hin|].
    now destruct (String.eqb_spec (Job.id row) (gen_random_uuid env)). }
  rewrite <- Hsame in Hrow. apply filter_In in Hrow. tauto.
Qed.

Lemma submission_keeps_other_rows_witness :
  In old_row (jobs world_ready)
  /\ Job.id old_row <> gen_random_uuid env0
  /\ In old_row (jobs (exec (post_repos env0 body0) world_ready)).
Proof.
  assert (H1 : In old_row (jobs world_ready)) by (now left).
  assert (H2 : Job.id old_row <> gen_random_uuid env0) by discriminate.
  split; [exact H1|]. split; [exact H2|].
  exact (proj2 (proj2 (submission_keeps_other_rows env0 body0 world_ready))
           old_row H1 H2).
Defined.

Lemma updated_unknown env jobId status result message js :
  ~ In jobId (map Job.id js) ->
  map (fun j => if String.eqb (Job.id j) jobId
                then updated env status result message j
                else j) js
  = js.
Proof.
  induction js as [|j js IH]; [reflexivity|]. cbn [map]. intros Hnot.
  destruct (String.eqb_spec (Job.id j) jobId) as [Heq|Hne].
  - exfalso. apply Hnot. now left.
  - f_equal. apply IH. intros Hin. apply Hnot. now right.
Qed.

(** X15. [updateJobStatus] at its edges. It returns [false] exactly when
    the store answers with an error, and then no row has changed. It never
    adds, removes or reorders rows, nor changes an id, a URL, a model or a
    creation time; rows with another id are untouched. When the store
    accepts, every row with the id has the new status; its error message
    is replaced only by a message that is not empty, so a job set back to
    [processing] keeps the message of its earlier failure; its result is
    kept when none is given. For an
    id that no row has, the call changes nothing and still returns [true]
    when the store accepts. The bus is not touched. *)
Theorem updateJobStatus_edges env jobId status result message w :
  let c := updateJobStatus env jobId status result message in
  let w' := exec c w in
  outcome c w = Normal (negb (hd false (store_errors w)))
  /\ (hd false (store_errors w) = true -> jobs w' = jobs w)
  /\ map (fun j => (Job.id j, Job.repo_url j, Job.selected_model j,
                    Job.created_at j)) (jobs w')
     = map (fun j => (Job.id j, Job.repo_url j, Job.selected_model j,
                      Job.created_at j)) (jobs w)
  /\ other_rows jobId (jobs w') = other_rows jobId (jobs w)
  /\ (hd false (store_errors w) = false ->
      forall row,
        In row (jobs w') -> Job.id row = jobId -> Job.status row = status)
  /\ (message = None \/ message = Some EmptyString ->
      map Job.error_message (jobs w') = map Job.error_message (jobs w))
  /\ (result = None -> map Job.result (jobs w') = map Job.result (jobs w))
  /\ (~ In jobId (map Job.id (jobs w)) -> jobs w' = jobs w)
  /\ queue w' = queue w
  /\ published w' = published w.
Proof.
  cbv zeta. unfold outcome, exec. rewrite updateJobStatus_run. cbv zeta.
  destruct (hd false (store_errors w)); world_simpl.
  - repeat split; try reflexivity; discriminate.
  - split; [reflexivity|]. split; [discriminate|].
    split; [|split; [apply other_rows_updated|split; [|split; [|split]]]].
    + rewrite map_map. apply map_ext. intros j.
      now destruct (String.eqb (Job.id j) jobId).
    + intros _ row Hin Hid. apply in_map_iff in Hin.
      destruct Hin as [j [Hj _]].
      destruct (String.eqb_spec (Job.id j) jobId) as [Heq|Hne].
      * subst row. reflexivity.
      * subst row. contradiction.
    + intros Hmessage. rewrite map_map. apply map_ext. intros j.
      destruct (String.eqb (Job.id j) jobId); [|reflexivity].
      destruct Hmessage as [-> | ->]; reflexivity.
    + intros ->. rewrite map_map. apply map_ext. intros j.
      now destruct (String.eqb (Job.id j) jobId).
    + split; [apply updated_unknown|]. split; reflexivity.
Qed.

Lemma updateJobStatus_edges_witness :
  hd false (store_errors world_ready) = false
  /\ ~ In "no-such-job" (map Job.id (jobs world_ready))
  /\ updateJobStatus env0 "no-such-job" completed None None world_ready
     = (Normal true,
        mkWorld [old_row] [] [Update "no-such-job" completed None None]
                (Some true) [] [] [])
  /\ map Job.error_message
       (jobs (exec (updateJobStatus env0 (Job.id old_row) processing None
                      (Some EmptyString)) world_ready))
     = [Some "Clone failed"].
Proof.
  assert (H1 : hd false (store_errors world_ready) = false) by reflexivity.
  assert (H2 : ~ In "no-such-job" (map Job.id (jobs world_ready))).
  { intros [H|[]]. discriminate H. }
  split; [exact H1|]. split; [exact H2|]. split; [reflexivity|].
  pose proof (updateJobStatus_edges env0 (Job.id old_row) processing None
                (Some EmptyString) world_ready)
    as (_ & _ & _ & _ & _ & Hmessage & _).
  etransitivity; [apply Hmessage; now right | reflexivity].
Defined.

(** C4, as stated, fails: the URL is accepted, the store creates the job
    and takes the update to [processing], the write to the work list
    raises, and the store refuses the update to [failed]. The submitter
    gets the error answer, and the row of the job stays [processing]
    without an error message. *)
Lemma enqueue_failure_can_leave_job_processing :
  isValidRepoUrl (repo_url body0) = true
  /\ hd false (store_errors world_store_gone_after_update) = false
  /\ publisherClient world_store_gone_after_update <> Some true
  /\ outcome (post_repos env0 body0) world_store_gone_after_update
     = Normal (mkResponse (Some 500)
                 (Failure "Failed to queue job for processing"))
  /\ map (fun j => (Job.id j, Job.status j, Job.error_message j))
       (jobs (exec (post_repos env0 body0) world_store_gone_after_update))
     = [(gen_random_uuid env0, processing, None)]
  /\ ~ (exists j,
          In j (jobs (exec (post_repos env0 body0)
                        world_store_gone_after_update))
          /\ Job.id j = gen_random_uuid env0
          /\ Job.status j = failed).
Proof.
  split; [reflexivity|]. split; [reflexivity|]. split; [discriminate|].
  split; [reflexivity|]. split; [reflexivity|].
  intros (j & Hin & _ & Hstatus).
  destruct Hin as [<-|[]]. discriminate Hstatus.
Qed.

End IntakeFacts.

(** ** The patterns *)

Module LangFacts.

Import Regex Lang Submit.

Local Open Scope string_scope.

Lemma append_empty_r s : s ++ EmptyString = s.
Proof.
  induction s as [|c s IH]; [reflexivity|]. cbn. now rewrite IH.
Qed.

Lemma append_append s1 s2 s3 : (s1 ++ s2) ++ s3 = s1 ++ (s2 ++ s3).
Proof.
  induction s1 as [|c s1 IH]; [reflexivity|]. cbn. now rewrite IH.
Qed.

Lemma append_is_empty s1 s2 :
  s1 ++ s2 = EmptyString -> s1 = EmptyString /\ s2 = EmptyString.
Proof.
  destruct s1; [now split | discriminate].
Qed.

Lemma append_cancel_l s s1 s2 : s ++ s1 = s ++ s2 -> s1 = s2.
Proof.
  induction s as [|c s IH]; [trivial|]. cbn. intros H.
  injection H as H. now apply IH.
Qed.

(** *** The matcher decides the patterns *)

Lemma nullable_matches r : nullable r = true <-> matches r EmptyString.
Proof.
  split.
  - induction r as [| |p|r1 IH1 r2 IH2|r1 IH1 r2 IH2|r IH]; cbn [nullable];
      intros H; try discriminate.
    + constructor.
    + apply andb_true_iff in H. destruct H as [H1 H2].
      apply (matches_Cat r1 r2 EmptyString EmptyString); auto.
    + apply orb_true_iff in H.
      destruct H as [H|H]; [apply matches_Alt_l | apply matches_Alt_r]; auto.
    + constructor.
  - intros H. remember EmptyString as s eqn:Hs.
    induction H as [|p c Hc|r1 r2 s1 s2 H1 IH1 H2 IH2|r1 r2 s H IH
                   |r1 r2 s H IH|r|r s1 s2 H1 IH1 H2 IH2];
      cbn [nullable]; try reflexivity.
    + discriminate.
    + apply append_is_empty in Hs. destruct Hs as [-> ->].
      now rewrite IH1, IH2.
    + now rewrite IH.
    + rewrite IH by assumption. apply orb_true_r.
Qed.

Lemma matches_deriv c r s : matches (deriv c r) s -> matches r (String c s).
Proof.
  revert s.
  induction r as [| |p|r1 IH1 r2 IH2|r1 IH1 r2 IH2|r IH]; cbn [deriv];
    intros s H.
  - inversion H.
  - inversion H.
  - destruct (p c) eqn:Hp; inversion H; subst. now constructor.
  - assert (Hleft : matches (Cat (deriv c r1) r2) s
                    -> matches (Cat r1 r2) (String c s)).
    { intros Hcat. inversion Hcat as [| |? ? s1 s2 Hd H2| | | |]; subst.
      apply (matches_Cat r1 r2 (String c s1) s2); auto. }
    destruct (nullable r1) eqn:Hnull; [|auto].
    inversion H as [| | |? ? ? Hl|? ? ? Hr| |]; subst; [auto|].
    apply (matches_Cat r1 r2 EmptyString (String c s)); [|auto].
    now apply nullable_matches.
  - inversion H; subst; [apply matches_Alt_l | apply matches_Alt_r]; auto.
  - inversion H as [| |? ? s1 s2 Hd H2| | | |]; subst.
    apply (matches_Star_more r (String c s1) s2); auto.
Qed.

Lemma deriv_matches c r s : matches r (String c s) -> matches (deriv c r) s.
Proof.
  intros H. remember (String c s) as t eqn:Ht. revert s Ht.
  induction H as [|p c' Hc|r1 r2 s1 s2 H1 IH1 H2 IH2|r1 r2 t H IH
                 |r1 r2 t H IH|r|r s1 s2 H1 IH1 H2 IH2];
    intros s Ht; cbn [deriv].
  - discriminate.
  - injection Ht as -> <-. rewrite Hc. constructor.
  - destruct s1 as [|c1 s1].
    + cbn in Ht. apply nullable_matches in H1. rewrite H1.
      apply matches_Alt_r. now apply IH2.
    + cbn in Ht. injection Ht as -> <-.
      assert (Hcat : matches (Cat (deriv c r1) r2) (s1 ++ s2))
        by (constructor; auto).
      destruct (nullable r1); [now apply matches_Alt_l | exact Hcat].
  - apply matches_Alt_l. now apply IH.
  - apply matches_Alt_r. now apply IH.
  - discriminate.
  - destruct s1 as [|c1 s1].
    + cbn in Ht. now apply IH2.
    + cbn in Ht. injection Ht as -> <-. constructor; auto.
Qed.

(** [test] answers [true] exactly on the strings the pattern matches. *)
Lemma test_matches r s : test r s = true <-> matches r s.
Proof.
  revert r. induction s as [|c s IH]; intros r; cbn [test].
  - apply nullable_matches.
  - rewrite IH. split; [apply matches_deriv | apply deriv_matches].
Qed.

(** *** What the pieces of the patterns match *)

Lemma matches_Cat_inv r1 r2 s :
  matches (Cat r1 r2) s
  <-> exists s1 s2, s = s1 ++ s2 /\ matches r1 s1 /\ matches r2 s2.
Proof.
  split.
  - intros H. inversion H as [| |? ? s1 s2 H1 H2| | | |]; subst.
    now exists s1, s2.
  - intros (s1 & s2 & -> & H1 & H2). now constructor.
Qed.

Lemma matches_Cls_inv p s :
  matches (Cls p) s <-> exists c, s = String c EmptyString /\ p c = true.
Proof.
  split.
  - intros H. inversion H; subst. eauto.
  - intros (c & -> & Hc). now constructor.
Qed.

Lemma matches_Chr c s : matches (Chr c) s <-> s = String c EmptyString.
Proof.
  unfold Chr. rewrite matches_Cls_inv. split.
  - intros (c' & -> & Hc). apply Ascii.eqb_eq in Hc. now subst c'.
  - intros ->. exists c. split; [reflexivity | apply Ascii.eqb_refl].
Qed.

Lemma matches_Lit l s : matches (Lit l) s <-> s = l.
Proof.
  revert s. induction l as [|c l IH]; intros s; cbn [Lit].
  - split; [intros H; now inversion H | intros ->; constructor].
  - rewrite matches_Cat_inv. split.
    + intros (s1 & s2 & -> & H1 & H2). apply matches_Chr in H1. subst s1.
      apply IH in H2. now subst s2.
    + intros ->. exists (String c EmptyString), l.
      split; [reflexivity|]. split; [now apply matches_Chr | now apply IH].
Qed.

Lemma all_append p s1 s2 : all p (s1 ++ s2) = all p s1 && all p s2.
Proof.
  induction s1 as [|c s1 IH]; [reflexivity|]. cbn [String.append all].
  now rewrite IH, andb_assoc.
Qed.

Lemma matches_Star_Cls p s : matches (Star (Cls p)) s <-> all p s = true.
Proof.
  split.
  - intros H. remember (Star (Cls p)) as r eqn:Hr.
    induction H as [| | | | |r'|r' s1 s2 H1 _ H2 IH2]; try discriminate.
    + reflexivity.
    + injection Hr as ->. apply matches_Cls_inv in H1.
      destruct H1 as (c & -> & Hc). cbn. rewrite Hc. now apply IH2.
  - induction s as [|c s IH]; cbn [all]; intros H; [constructor|].
    apply andb_true_iff in H. destruct H as [Hc Hs].
    apply (matches_Star_more (Cls p) (String c EmptyString) s);
      [now constructor | auto].
Qed.

Lemma matches_Plus_Cls p s :
  matches (Plus (Cls p)) s <-> s <> EmptyString /\ all p s = true.
Proof.
  unfold Plus. rewrite matches_Cat_inv. split.
  - intros (s1 & s2 & -> & H1 & H2). apply matches_Cls_inv in H1.
    destruct H1 as (c & -> & Hc). apply matches_Star_Cls in H2.
    split; [discriminate|]. cbn. now rewrite Hc.
  - intros [Hne Hall]. destruct s as [|c s]; [contradiction|].
    cbn [all] in Hall. apply andb_true_iff in Hall.
    exists (String c EmptyString), s. split; [reflexivity|].
    split; [now constructor | now apply matches_Star_Cls].
Qed.

(** An owner, a slash, a name and what the pattern wants after them. *)
Lemma matches_owner_and_name suffix s :
  matches (owner_and_name suffix) s
  <-> exists owner name tail,
        s = owner ++ "/" ++ name ++ tail
        /\ repo_path owner name /\ matches suffix tail.
Proof.
  unfold owner_and_name, repo_path. rewrite matches_Cat_inv. split.
  - intros (owner & s1 & -> & Howner & H1).
    apply matches_Cat_inv in H1. destruct H1 as (slash & s2 & -> & Hs & H2).
    apply matches_Cat_inv in H2. destruct H2 as (name & tail & -> & Hn & Ht).
    apply matches_Chr in Hs. subst slash.
    apply matches_Plus_Cls in Howner, Hn.
    exists owner, name, tail. tauto.
  - intros (owner & name & tail & -> & (Ho & Hoa & Hn & Hna) & Ht).
    exists owner, ("/" ++ name ++ tail). split; [reflexivity|].
    split; [now apply matches_Plus_Cls|].
    apply matches_Cat_inv. exists "/", (name ++ tail).
    split; [reflexivity|]. split; [now apply matches_Chr|].
    apply matches_Cat_inv. exists name, tail. split; [reflexivity|].
    split; [now apply matches_Plus_Cls | exact Ht].
Qed.

(** The optional [.git] is a part of the name as well. *)
Lemma matches_path_opt_git s :
  matches (owner_and_name (Opt (Lit ".git"))) s
  <-> exists owner name, s = owner ++ "/" ++ name /\ repo_path owner name.
Proof.
  rewrite matches_owner_and_name. split.
  - intros (owner & name & tail & -> & (Ho & Hoa & Hn & Hna) & Ht).
    inversion Ht as [| | |? ? ? Hgit|? ? ? Heps| |]; subst.
    + apply (matches_Lit ".git") in Hgit. subst tail.
      exists owner, (name ++ ".git"). split; [reflexivity|].
      split; [exact Ho|]. split; [exact Hoa|]. split.
      * destruct name; [contradiction | discriminate].
      * rewrite all_append, Hna. reflexivity.
    + inversion Heps; subst. exists owner, name.
      rewrite append_empty_r. now repeat split.
  - intros (owner & name & -> & Hpath).
    exists owner, name, EmptyString. rewrite append_empty_r.
    split; [reflexivity|]. split; [exact Hpath|].
    apply matches_Alt_r. constructor.
Qed.

Lemma matches_path_git s :
  matches (owner_and_name (Lit ".git")) s
  <-> exists owner name,
        s = owner ++ "/" ++ name ++ ".git" /\ repo_path owner name.
Proof.
  rewrite matches_owner_and_name. split.
  - intros (owner & name & tail & -> & Hpath & Ht).
    apply matches_Lit in Ht. subst tail. now exists owner, name.
  - intros (owner & name & -> & Hpath).
    exists owner, name, ".git". split; [reflexivity|].
    split; [exact Hpath | now apply matches_Lit].
Qed.

Lemma test_host host r url :
  test (Cat (Lit host) r) url = true
  <-> exists rest, url = host ++ rest /\ matches r rest.
Proof.
  rewrite test_matches, matches_Cat_inv. split.
  - intros (s1 & s2 & -> & H1 & H2). apply matches_Lit in H1. subst s1.
    now exists s2.
  - intros (rest & -> & H). exists host, rest.
    split; [reflexivity|]. split; [now apply matches_Lit | exact H].
Qed.

(** An accepted URL is a host with an owner and a name. *)
Lemma accepted_url_parts url :
  isValidRepoUrl url = true ->
  exists owner name,
    repo_path owner name
    /\ ((exists host, In host hosts_https
                      /\ url = host ++ owner ++ "/" ++ name)
        \/ (exists host, In host hosts_ssh
                         /\ url = host ++ owner ++ "/" ++ name ++ ".git")).
Proof.
  unfold isValidRepoUrl, patterns. cbn [existsb].
  rewrite !orb_true_iff, !test_host.
  intros [H|[H|[H|[H|[H|H]]]]]; [| | | | |discriminate].
  1-3: destruct H as (rest & -> & H); apply matches_path_opt_git in H;
    destruct H as (owner & name & -> & Hpath);
    exists owner, name; (split; [exact Hpath|]); left;
    eexists; (split; [|reflexivity]); cbn; tauto.
  1-2: destruct H as (rest & -> & H); apply matches_path_git in H;
    destruct H as (owner & name & -> & Hpath);
    exists owner, name; (split; [exact Hpath|]); right;
    eexists; (split; [|reflexivity]); cbn; tauto.
Qed.

Lemma https_url_accepted host owner name :
  In host hosts_https -> repo_path owner name ->
  isValidRepoUrl (host ++ owner ++ "/" ++ name) = true.
Proof.
  intros Hin Hpath. unfold isValidRepoUrl, patterns. cbn [existsb].
  rewrite !orb_true_iff, !test_host.
  assert (Hm : matches (owner_and_name (Opt (Lit ".git")))
                 (owner ++ "/" ++ name))
    by (apply matches_path_opt_git; now exists owner, name).
  destruct Hin as [<-|[<-|[<-|[]]]];
    [left | right; left | right; right; left]; eexists; eauto.
Qed.

Lemma ssh_url_accepted host owner name :
  In host hosts_ssh -> repo_path owner name ->
  isValidRepoUrl (host ++ owner ++ "/" ++ name ++ ".git") = true.
Proof.
  intros Hin Hpath. unfold isValidRepoUrl, patterns. cbn [existsb].
  rewrite !orb_true_iff, !test_host.
  assert (Hm : matches (owner_and_name (Lit ".git"))
                 (owner ++ "/" ++ name ++ ".git"))
    by (apply matches_path_git; now exists owner, name).
  destruct Hin as [<-|[<-|[]]];
    [right; right; right; left | right; right; right; right; left];
    eexists; eauto.
Qed.

(** X16. The URLs that [isValidRepoUrl] accepts are exactly these: one of
    the three [https] hosts followed by an owner, a slash and a name, or
    one of the two [git@] hosts followed by an owner, a slash, a name and
    [.git]; the owner is one or more letters, digits, underscores and
    dashes, and the name one or more of these and dots. After [https] the
    ending [.git] is optional and is then the end of the name. *)
Theorem isValidRepoUrl_accepts_exactly url :
  isValidRepoUrl url = true
  <-> exists owner name,
        repo_path owner name
        /\ ((exists host, In host hosts_https
                          /\ url = host ++ owner ++ "/" ++ name)
            \/ (exists host, In host hosts_ssh
                             /\ url = host ++ owner ++ "/" ++ name ++ ".git")).
Proof.
  split; [apply accepted_url_parts|].
  intros (owner & name & Hpath & [(host & Hin & ->)|(host & Hin & ->)]).
  - now apply https_url_accepted.
  - now apply ssh_url_accepted.
Qed.

(** *** The shape of an accepted URL *)

Lemma count_append c s1 s2 : count c (s1 ++ s2) = count c s1 + count c s2.
Proof.
  induction s1 as [|c1 s1 IH]; [reflexivity|]. cbn [String.append count].
  rewrite IH. lia.
Qed.

Lemma all_weaken (p q : ascii -> bool) s :
  (forall c, p c = true -> q c = true) -> all p s = true -> all q s = true.
Proof.
  intros Hpq. induction s as [|c s IH]; [trivial|]. cbn [all].
  rewrite !andb_true_iff. intros [Hc Hs]. auto.
Qed.

Lemma word_dash_dot_dash c : word_dash c = true -> word_dot_dash c = true.
Proof.
  unfold word_dash, word_dot_dash. rewrite !orb_true_iff. tauto.
Qed.

Lemma word_dot_dash_path_char c : word_dot_dash c = true -> path_char c = true.
Proof.
  unfold path_char. intros ->. reflexivity.
Qed.

Lemma word_dot_dash_no_slash c :
  word_dot_dash c = true -> Ascii.eqb c "/" = false.
Proof.
  destruct (Ascii.eqb_spec c "/") as [->|]; [discriminate | reflexivity].
Qed.

Lemma no_slash_in_name s : all word_dot_dash s = true -> count "/" s = 0.
Proof.
  induction s as [|c s IH]; [reflexivity|]. cbn [all count].
  rewrite andb_true_iff. intros [Hc Hs].
  rewrite (word_dot_dash_no_slash c Hc). now apply IH.
Qed.

(** An owner, a slash and a name hold one slash, and path characters
    only. *)
Lemma path_shape owner name :
  repo_path owner name ->
  count "/" (owner ++ "/" ++ name) = 1
  /\ all path_char (owner ++ "/" ++ name) = true.
Proof.
  intros (_ & Hoa & _ & Hna). rewrite count_append, all_append.
  assert (Ho : all word_dot_dash owner = true)
    by (revert Hoa; apply all_weaken, word_dash_dot_dash).
  rewrite (no_slash_in_name owner Ho). cbn [String.append count all].
  rewrite (no_slash_in_name name Hna). split; [reflexivity|].
  rewrite (all_weaken _ _ owner word_dot_dash_path_char Ho).
  now rewrite (all_weaken _ _ name word_dot_dash_path_char Hna).
Qed.

Lemma last_of_name name :
  name <> EmptyString -> all word_dot_dash name = true ->
  exists body c, name = body ++ String c EmptyString
                 /\ word_dot_dash c = true.
Proof.
  induction name as [|c name IH]; [contradiction|]. intros _. cbn [all].
  rewrite andb_true_iff. intros [Hc Hs]. destruct name as [|c' name].
  - now exists EmptyString, c.
  - destruct (IH ltac:(discriminate) Hs) as (body & d & -> & Hd).
    now exists (String c body), d.
Qed.

(** X17. What an accepted URL looks like after its host: one slash and no
    more, so a path with a group inside a group is refused; characters of
    names and that slash only, so a query, a fragment, a space or a port
    are refused; and a last character that belongs to a name, so a slash
    at the end is refused. *)
Theorem accepted_url_shape url :
  isValidRepoUrl url = true ->
  exists host path,
    In host (hosts_https ++ hosts_ssh)
    /\ url = host ++ path
    /\ count "/" path = 1
    /\ all path_char path = true
    /\ exists body c, path = body ++ String c EmptyString
                      /\ word_dot_dash c = true.
Proof.
  intros H. apply accepted_url_parts in H.
  destruct H as (owner & name & Hpath
                 & [(host & Hin & ->)|(host & Hin & ->)]).
  - exists host, (owner ++ "/" ++ name).
    split; [apply in_app_iff; now left|]. split; [reflexivity|].
    destruct (path_shape owner name Hpath) as [Hcount Hall].
    split; [exact Hcount|]. split; [exact Hall|].
    destruct Hpath as (_ & _ & Hn & Hna).
    destruct (last_of_name name Hn Hna) as (body & c & -> & Hc).
    exists (owner ++ "/" ++ body), c. split; [|exact Hc].
    now rewrite !append_append.
  - assert (Hpath' : repo_path owner (name ++ ".git")).
    { destruct Hpath as (Ho & Hoa & Hn & Hna). split; [exact Ho|].
      split; [exact Hoa|]. split.
      - destruct name; [contradiction | discriminate].
      - rewrite all_append, Hna. reflexivity. }
    exists host, (owner ++ "/" ++ name ++ ".git").
    split; [apply in_app_iff; now right|]. split; [reflexivity|].
    destruct (path_shape owner (name ++ ".git") Hpath') as [Hcount Hall].
    split; [exact Hcount|]. split; [exact Hall|].
    exists (owner ++ "/" ++ name ++ ".gi"), "t"%char. split; [|reflexivity].
    rewrite !append_append. reflexivity.
Qed.

Lemma accepted_url_shape_witness :
  isValidRepoUrl "https://gitlab.com/group/project.git" = true
  /\ exists host path,
       "https://gitlab.com/group/project.git" = host ++ path
       /\ count "/" path = 1.
Proof.
  assert (H : isValidRepoUrl "https://gitlab.com/group/project.git" = true)
    by reflexivity.
  split; [exact H|].
  destruct (accepted_url_shape _ H) as (host & path & _ & Hurl & Hcount & _).
  now exists host, path.
Defined.

(** *** The name of the repository *)

Lemma match_to_end_whole r s : test r s = true -> match_to_end r s = Some s.
Proof.
  intros H. destruct s; cbn [match_to_end]; now rewrite H.
Qed.

Lemma match_to_end_next r c s :
  test r (String c s) = false ->
  match_to_end r (String c s) = match_to_end r s.
Proof.
  intros H. cbn [match_to_end]. now rewrite H.
Qed.

(** No match of the pattern of [extractRepoName] starts before a slash or
    a character that none of its classes has, when one starts after it. *)
Lemma no_match_before lead c owner name :
  repo_path owner name ->
  c = "/"%char \/ path_char c = false ->
  test (owner_and_name (Opt (Lit ".git")))
       (lead ++ String c (owner ++ "/" ++ name))
  = false.
Proof.
  intros Hpath Hc.
  destruct (test _ (lead ++ String c (owner ++ "/" ++ name))) eqn:E;
    [|reflexivity].
  exfalso. apply test_matches, matches_path_opt_git in E.
  destruct E as (owner' & name' & Heq & Hpath').
  destruct (path_shape owner' name' Hpath') as [Hcount Hall].
  destruct (path_shape owner name Hpath) as [Hcount0 _].
  rewrite <- Heq in Hcount, Hall.
  rewrite count_append in Hcount. rewrite all_append in Hall.
  cbn [count all] in Hcount, Hall. rewrite Hcount0 in Hcount.
  apply andb_true_iff in Hall. destruct Hall as [_ Hall].
  apply andb_true_iff in Hall. destruct Hall as [Hpc _].
  destruct Hc as [-> | Hc]; [|congruence].
  cbn in Hcount. lia.
Qed.

Lemma match_to_end_after lead c owner name :
  repo_path owner name ->
  c = "/"%char \/ path_char c = false ->
  match_to_end (owner_and_name (Opt (Lit ".git")))
    (lead ++ String c (owner ++ "/" ++ name))
  = Some (owner ++ "/" ++ name).
Proof.
  intros Hpath Hc. induction lead as [|d lead IH].
  - cbn [String.append]. rewrite match_to_end_next.
    + apply match_to_end_whole, test_matches, matches_path_opt_git.
      now exists owner, name.
    + apply (no_match_before EmptyString); assumption.
  - cbn [String.append]. rewrite match_to_end_next; [exact IH|].
    apply (no_match_before (String d lead)); assumption.
Qed.

Lemma replace_git_after pre s :
  all word_dash pre = true ->
  replace ".git" EmptyString (pre ++ s)
  = pre ++ replace ".git" EmptyString s.
Proof.
  induction pre as [|c pre IH]; [reflexivity|]. cbn [all].
  rewrite andb_true_iff. intros [Hc Hpre]. cbn [String.append].
  assert (Hdot : c <> "."%char) by (intros ->; discriminate).
  cbn [replace String.prefix].
  destruct (Ascii.ascii_dec "." c) as [Heq|_]; [now subst c|].
  now rewrite IH.
Qed.

Lemma substring_whole s : String.substring 0 (String.length s) s = s.
Proof.
  induction s as [|c s IH]; [reflexivity|]. cbn. now rewrite IH.
Qed.

Lemma replace_git_here s : replace ".git" EmptyString (".git" ++ s) = s.
Proof.
  cbn. rewrite Nat.sub_0_r.
  assert (Hempty : String.prefix EmptyString s = true) by now destruct s.
  rewrite Hempty. apply substring_whole.
Qed.

Lemma replace_git_absent s :
  all word_dash s = true -> replace ".git" EmptyString s = s.
Proof.
  intros H. rewrite <- (append_empty_r s) at 1.
  rewrite replace_git_after by assumption. cbn. apply append_empty_r.
Qed.

Lemma replace_git_slash s :
  replace ".git" EmptyString (String "/" s)
  = String "/" (replace ".git" EmptyString s).
Proof.
  cbn [replace String.prefix].
  destruct (Ascii.ascii_dec "." "/") as [Heq|_]; [discriminate | reflexivity].
Qed.

Lemma host_ends host :
  In host (hosts_https ++ hosts_ssh) ->
  exists lead c,
    host = lead ++ String c EmptyString
    /\ (c = "/"%char \/ path_char c = false).
Proof.
  intros [<-|[<-|[<-|[<-|[<-|[]]]]]].
  - exists "https://github.com", "/"%char. split; [reflexivity | now left].
  - exists "https://gitlab.com", "/"%char. split; [reflexivity | now left].
  - exists "https://bitbucket.org", "/"%char. split; [reflexivity | now left].
  - exists "git@github.com", ":"%char. split; [reflexivity | now right].
  - exists "git@gitlab.com", ":"%char. split; [reflexivity | now right].
Qed.

(** X18. The repository name of an accepted URL. For a host of the
    patterns followed by an owner, a slash and a name (with its ending
    [.git] when there is one), [extractRepoName] finds a match, which is
    the owner, the slash and the name, and returns it without its first
    [.git]. So a name without a dot comes back as it is, a name that ends
    in [.git] after a part without a dot loses this ending, and a name
    that has [.git] further left loses it there: what follows it is glued
    to what comes before. *)
Theorem repo_name_of_accepted_url host owner name :
  In host (hosts_https ++ hosts_ssh) ->
  repo_path owner name ->
  let url := host ++ owner ++ "/" ++ name in
  match_to_end (owner_and_name (Opt (Lit ".git"))) url
  = Some (owner ++ "/" ++ name)
  /\ extractRepoName url
     = replace ".git" EmptyString (owner ++ "/" ++ name)
  /\ (all word_dash name = true -> extractRepoName url = owner ++ "/" ++ name)
  /\ (forall a b,
         name = a ++ ".git" ++ b -> all word_dash a = true ->
         extractRepoName url = owner ++ "/" ++ a ++ b).
Proof.
  intros Hhost Hpath. cbv zeta.
  assert (Hfound :
    match_to_end (owner_and_name (Opt (Lit ".git")))
      (host ++ owner ++ "/" ++ name)
    = Some (owner ++ "/" ++ name)).
  { destruct (host_ends host Hhost) as (lead & c & -> & Hc).
    pose proof (match_to_end_after lead c owner name Hpath Hc) as Hm.
    rewrite append_append. cbn [String.append] in *. exact Hm. }
  assert (Hmatch : extractRepoName (host ++ owner ++ "/" ++ name)
                   = replace ".git" EmptyString (owner ++ "/" ++ name)).
  { unfold extractRepoName. now rewrite Hfound. }
  destruct Hpath as (_ & Hoa & _ & _).
  split; [exact Hfound|]. split; [exact Hmatch|]. rewrite Hmatch.
  rewrite !(replace_git_after owner) by assumption.
  change ("/" ++ name) with (String "/" name). rewrite replace_git_slash.
  split.
  - intros Hname. now rewrite replace_git_absent.
  - intros a b -> Ha.
    now rewrite replace_git_after, replace_git_here.
Qed.

Lemma repo_name_of_accepted_url_witness :
  In "https://github.com/" (hosts_https ++ hosts_ssh)
  /\ repo_path "octocat" "octocat.github.io"
  /\ extractRepoName "https://github.com/octocat/octocat.github.io"
     = "octocat/octocathub.io".
Proof.
  assert (H1 : In "https://github.com/" (hosts_https ++ hosts_ssh))
    by (now left).
  assert (H2 : repo_path "octocat" "octocat.github.io").
  { split; [discriminate|]. split; [reflexivity|].
    split; [discriminate | reflexivity]. }
  split; [exact H1|]. split; [exact H2|].
  exact (proj2 (proj2 (proj2 (repo_name_of_accepted_url _ _ _ H1 H2)))
           "octocat" "hub.io" eq_refl eq_refl).
Defined.

End LangFacts.

(** ** The routes on a job *)

Module DeskFacts.

Import Eff Submit Desk SubmitFacts.

Ltac desk_simpl :=
  cbn [base requests Desk.console table work_list answers fst snd
       jobs store_errors store_requests publisherClient queue published
       Submit.console].

Ltac desk_simpl_in H :=
  cbn [base requests Desk.console table work_list answers fst snd
       jobs store_errors store_requests publisherClient queue published
       Submit.console] in H.

(** The world after [updateJobStatus]. *)
Lemma exec_updateJobStatus env jobId status result message b :
  exec (updateJobStatus env jobId status result message) b
  = Submit.mkWorld
      (if hd false (store_errors b) then jobs b
       else map (fun j => if String.eqb (Job.id j) jobId
                          then updated env status result message j
                          else j) (jobs b))
      (tl (store_errors b))
      (store_requests b
       ++ [Update jobId status result
             (match message with
              | Some e => if truthy e then Some e else None
              | None => None
              end)])
      (publisherClient b) (queue b) (published b)
      (if hd false (store_errors b)
       then Submit.console b ++ [ErrorUpdatingJob]
       else Submit.console b).
Proof.
  unfold exec. rewrite updateJobStatus_run. cbv zeta.
  destruct (hd false (store_errors b)); reflexivity.
Qed.

Lemma outcome_updateJobStatus env jobId status result message b :
  outcome (updateJobStatus env jobId status result message) b
  = Normal (negb (hd false (store_errors b))).
Proof.
  unfold outcome. rewrite updateJobStatus_run. cbv zeta.
  destruct (hd false (store_errors b)); reflexivity.
Qed.

Lemma lift_run {A} (c : Submit.M A) w :
  lift c w
  = (outcome c (base w),
     Desk.mkWorld (exec c (base w)) (requests w) (Desk.console w)).
Proof.
  reflexivity.
Qed.

(** [getJob], by what the store answers. *)
Lemma getJob_run jobId w :
  getJob jobId w
  = let w1 := exec (Desk.store_request (SelectJob jobId)) w in
    match hd false (answers w), rows_with jobId (table w) with
    | false, [data] => (Normal (Some data), w1)
    | _, _ => (Normal None, exec (Desk.console_push ErrorFetchingJob) w1)
    end.
Proof.
  unfold getJob, bind, Desk.store_request, gets, exec, answers, table.
  cbv zeta. desk_simpl.
  destruct (hd false (store_errors (base w))); [reflexivity|].
  destruct (rows_with jobId (jobs (base w))) as [|data [|? ?]]; reflexivity.
Qed.

Lemma getJob_finds jobId w job :
  finds jobId w job ->
  getJob jobId w
  = (Normal (Some job), exec (Desk.store_request (SelectJob jobId)) w).
Proof.
  intros [Hstore Hrows]. rewrite getJob_run. cbv zeta.
  now rewrite Hstore, Hrows.
Qed.

Lemma getJob_misses jobId w :
  (forall job, ~ finds jobId w job) ->
  getJob jobId w
  = (Normal None,
     exec (Desk.console_push ErrorFetchingJob)
       (exec (Desk.store_request (SelectJob jobId)) w)).
Proof.
  intros Hnone. rewrite getJob_run. cbv zeta.
  destruct (hd false (answers w)) eqn:Hstore; [reflexivity|].
  destruct (rows_with jobId (table w)) as [|data [|? ?]] eqn:Hrows;
    try reflexivity.
  exfalso. apply (Hnone data). now split.
Qed.

Lemma rows_with_In jobId js job :
  In job (rows_with jobId js) <-> In job js /\ Job.id job = jobId.
Proof.
  unfold rows_with. rewrite filter_In.
  now destruct (String.eqb_spec (Job.id job) jobId).
Qed.

(** X19. [getJob] reads and nothing else: it asks the store once and
    leaves the table, the work list, the channels and the earlier requests
    as they were. It returns a job exactly when the store answers without
    an error and one row, no more, has the id, and the job is then that
    row; in every other case it returns nothing, and [GET /jobs/:jobId]
    answers 404 exactly then. *)
Theorem getJob_reads_one_row jobId w :
  let w' := exec (getJob jobId) w in
  base w'
  = Submit.mkWorld (table w) (tl (answers w)) (store_requests (base w))
      (publisherClient (base w)) (work_list w) (published (base w))
      (Submit.console (base w))
  /\ requests w' = requests w ++ [SelectJob jobId]
  /\ (forall job,
         outcome (getJob jobId) w = Normal (Some job) <-> finds jobId w job)
  /\ (forall job,
         finds jobId w job -> In job (table w) /\ Job.id job = jobId)
  /\ (outcome (getJob jobId) w = Normal None
      <-> forall job, ~ finds jobId w job)
  /\ (outcome (get_job jobId) w
      = Normal (Desk.mkResponse (Some 404) (Desk.Failure "Job not found"))
      <-> forall job, ~ finds jobId w job).
Proof.
  cbv zeta.
  assert (Hcases :
    (exists job, finds jobId w job) \/ (forall job, ~ finds jobId w job)).
  { unfold finds. destruct (hd false (answers w)).
    - right. intros job [H _]. discriminate.
    - destruct (rows_with jobId (table w)) as [|data [|? ?]].
      + right. intros job [_ H]. discriminate.
      + left. now exists data.
      + right. intros job [_ H]. discriminate. }
  assert (Hone : forall job job',
             finds jobId w job -> finds jobId w job' -> job = job').
  { intros job job' [_ H] [_ H']. congruence. }
  unfold outcome, exec, get_job, bind.
  destruct Hcases as [[job Hjob]|Hnone].
  - rewrite (getJob_finds jobId w job Hjob). desk_simpl.
    split; [reflexivity|]. split; [reflexivity|]. split; [|split; [|split]].
    + intros job'. split.
      * intros H. injection H as <-. exact Hjob.
      * intros H. now rewrite (Hone job job' Hjob H).
    + intros job' [_ H]. apply (rows_with_In jobId (table w) job').
      rewrite H. now left.
    + split; [discriminate|]. intros H. now destruct (H job).
    + split; [discriminate|]. intros H. now destruct (H job).
  - rewrite (getJob_misses jobId w Hnone). desk_simpl.
    split; [reflexivity|]. split; [reflexivity|]. split; [|split; [|split]].
    + intros job. split; [discriminate|]. intros H. now destruct (Hnone job).
    + intros job [_ H]. apply (rows_with_In jobId (table w) job).
      rewrite H. now left.
    + now split.
    + now split.
Qed.

Lemma getJob_reads_one_row_witness :
  finds (Job.id Intake.old_row) (at_start Intake.world_ready) Intake.old_row
  /\ outcome (getJob (Job.id Intake.old_row)) (at_start Intake.world_ready)
     = Normal (Some Intake.old_row)
  /\ In Intake.old_row (table (at_start Intake.world_ready)).
Proof.
  assert (H : finds (Job.id Intake.old_row) (at_start Intake.world_ready)
                Intake.old_row) by (split; reflexivity).
  pose proof (getJob_reads_one_row (Job.id Intake.old_row)
                (at_start Intake.world_ready)) as (_ & _ & Hiff & Hin & _).
  split; [exact H|]. split; [now apply Hiff|]. exact (proj1 (Hin _ H)).
Defined.

Lemma rows_with_updated env jobId status result message js :
  rows_with jobId
    (map (fun j => if String.eqb (Job.id j) jobId
                   then updated env status result message j
                   else j) js)
  = map (updated env status result message) (rows_with jobId js).
Proof.
  induction js as [|j js IH]; [reflexivity|]. cbn [map rows_with filter].
  destruct (String.eqb (Job.id j) jobId) eqn:E.
  - cbn [updated Job.id]. rewrite E. cbn [map]. f_equal. exact IH.
  - rewrite E. exact IH.
Qed.

Lemma rows_with_fresh jobId js :
  ~ In jobId (map Job.id js) -> rows_with jobId js = [].
Proof.
  induction js as [|j js IH]; [reflexivity|]. cbn [map rows_with filter].
  intros Hnot. destruct (String.eqb_spec (Job.id j) jobId) as [Heq|Hne].
  - exfalso. apply Hnot. now left.
  - apply IH. intros Hin. apply Hnot. now right.
Qed.

(** X20. A job that was submitted can be read back. After a submission
    that went through, with a store that answers and an id that no earlier
    row has, [GET /jobs/:jobId] for the id of the answer finds the job:
    the row has the URL and the model of the submission, the status
    [processing], the creation time the store gave, and neither a result
    nor an error message. *)
Theorem submitted_job_can_be_read env body b :
  isValidRepoUrl (repo_url body) = true ->
  publisherClient b = Some true ->
  hd false (store_errors b) = false ->
  hd false (tl (store_errors b)) = false ->
  hd false (tl (tl (store_errors b))) = false ->
  ~ In (gen_random_uuid env) (map Job.id (jobs b)) ->
  exists row,
    outcome (get_job (gen_random_uuid env))
      (at_start (exec (post_repos env body) b))
    = Normal (Desk.mkResponse None (Found row))
    /\ Job.id row = gen_random_uuid env
    /\ Job.repo_url row = repo_url body
    /\ Job.status row = processing
    /\ Job.selected_model row = Intake.chosen_model body
    /\ Job.result row = None
    /\ Job.error_message row = None
    /\ Job.created_at row = store_now env.
Proof.
  intros Hurl Hclient Hfirst Hsecond Hthird Hfresh.
  exists (updated env processing None None (Intake.new_row env body)).
  split; [|now repeat split].
  assert (Hfinds :
    finds (gen_random_uuid env) (at_start (exec (post_repos env body) b))
      (updated env processing None None (Intake.new_row env body))).
  { unfold finds, at_start, exec, answers, table. desk_simpl.
    IntakeFacts.submission_cases env body b; try discriminate.
    rewrite Hrun. desk_simpl. split; [exact Hthird|].
    rewrite rows_with_updated. unfold rows_with. rewrite filter_app.
    fold (rows_with (gen_random_uuid env) (jobs b)).
    rewrite (rows_with_fresh _ _ Hfresh). cbn [filter Job.id app].
    rewrite String.eqb_refl. reflexivity. }
  unfold outcome, get_job, bind. now rewrite (getJob_finds _ _ _ Hfinds).
Qed.

Lemma submitted_job_can_be_read_witness :
  isValidRepoUrl (repo_url Intake.body_claude) = true
  /\ publisherClient Intake.world_ready = Some true
  /\ ~ In (gen_random_uuid env0) (map Job.id (jobs Intake.world_ready))
  /\ exists row,
       outcome (get_job (gen_random_uuid env0))
         (at_start (exec (post_repos env0 Intake.body_claude)
                      Intake.world_ready))
       = Normal (Desk.mkResponse None (Found row))
       /\ Job.status row = processing.
Proof.
  assert (H1 : isValidRepoUrl (repo_url Intake.body_claude) = true)
    by reflexivity.
  assert (H2 : publisherClient Intake.world_ready = Some true)
    by reflexivity.
  assert (H3 : ~ In (gen_random_uuid env0)
                 (map Job.id (jobs Intake.world_ready))).
  { intros [H|[]]. discriminate H. }
  split; [exact H1|]. split; [exact H2|]. split; [exact H3|].
  destruct (submitted_job_can_be_read env0 Intake.body_claude
              Intake.world_ready H1 H2 eq_refl eq_refl eq_refl H3)
    as (row & Hout & _ & _ & Hstatus & _).
  exists row. now split.
Defined.

(** *** Retrying a job *)

Lemma lift_updateJobStatus env jobId status result message w :
  lift (updateJobStatus env jobId status result message) w
  = (Normal (negb (hd false (answers w))),
     Desk.mkWorld (exec (updateJobStatus env jobId status result message)
                     (base w))
       (requests w) (Desk.console w)).
Proof.
  rewrite lift_run. now rewrite outcome_updateJobStatus.
Qed.

Lemma lift_pushJobToQueue job w :
  lift (pushJobToQueue job) w
  = match publisherClient (base w) with
    | Some true =>
        (Normal tt,
         Desk.mkWorld (exec (pushJobToQueue job) (base w)) (requests w)
           (Desk.console w))
    | client => (Throw (push_error client), w)
    end.
Proof.
  rewrite lift_run. unfold outcome, exec.
  rewrite IntakeFacts.pushJobToQueue_run.
  destruct w as [b rs cs]. cbn [base requests Desk.console].
  destruct (publisherClient b) as [[|]|]; reflexivity.
Qed.

Lemma client_after_update env jobId status result message b :
  publisherClient (exec (updateJobStatus env jobId status result message) b)
  = publisherClient b.
Proof.
  now rewrite exec_updateJobStatus.
Qed.

(** The retry of a failed job that [getJob] finds. *)
Lemma post_retry_failed_job env jobId model_id w job :
  finds jobId w job ->
  Job.status job = failed ->
  post_retry env jobId model_id w
  = let w1 := exec (Desk.store_request (SelectJob jobId)) w in
    let b2 := exec (updateJobStatus env jobId processing None None)
                   (base w1) in
    let message :=
      JobMessage.mk jobId (Job.repo_url job) (retry_model model_id job)
                    (now env) in
    match publisherClient (base w) with
    | Some true =>
        (Normal
           (Desk.mkResponse None
              (Requeued jobId (retry_model model_id job) processing
                 "Job re-queued for processing")),
         Desk.mkWorld (exec (pushJobToQueue message) b2) (requests w1)
           (Desk.console w1))
    | client =>
        (Normal
           (Desk.mkResponse (Some 500)
              (Desk.Failure "Failed to re-queue job")),
         Desk.mkWorld
           (exec (updateJobStatus env jobId failed None
                    (Some "Failed to re-queue job")) b2)
           (requests w1)
           (Desk.console w1 ++ [ErrorRequeue (push_error client)]))
    end.
Proof.
  intros Hfinds Hstatus. unfold post_retry. unfold bind at 1.
  rewrite (getJob_finds jobId w job Hfinds), Hstatus.
  fold (retry_model model_id job). cbv zeta.
  set (w1 := exec (Desk.store_request (SelectJob jobId)) w).
  assert (Hclient : publisherClient (base w1) = publisherClient (base w))
    by reflexivity.
  unfold bind at 1. rewrite lift_updateJobStatus.
  unfold try_catch, bind at 1. rewrite lift_pushJobToQueue.
  cbn [base]. rewrite client_after_update, Hclient.
  destruct (publisherClient (base w)) as [[|]|].
  - reflexivity.
  - unfold bind, Desk.console_push, modify.
    now rewrite lift_updateJobStatus.
  - unfold bind, Desk.console_push, modify.
    now rewrite lift_updateJobStatus.
Qed.

(** X21. A retry that is refused changes nothing. When [getJob] finds no
    job the answer is 404, and when it finds one that is not [failed] the
    answer is 400; in both cases the table, the work list, the channels
    and the requests for writes are as they were: the route has asked the
    store for the job and nothing else. *)
Theorem refused_retry_changes_nothing env jobId model_id w :
  let w' := exec (post_retry env jobId model_id) w in
  ((forall job, ~ finds jobId w job) ->
   outcome (post_retry env jobId model_id) w
   = Normal (Desk.mkResponse (Some 404) (Desk.Failure "Job not found")))
  /\ (forall job,
         finds jobId w job -> Job.status job <> failed ->
         outcome (post_retry env jobId model_id) w
         = Normal (Desk.mkResponse (Some 400)
                     (Desk.Failure "Only failed jobs can be retried")))
  /\ ((forall job, finds jobId w job -> Job.status job <> failed) ->
      table w' = table w
      /\ work_list w' = work_list w
      /\ published (base w') = published (base w)
      /\ store_requests (base w') = store_requests (base w)
      /\ requests w' = requests w ++ [SelectJob jobId]).
Proof.
  cbv zeta. unfold outcome, exec, post_retry, bind.
  split; [|split].
  - intros Hnone. now rewrite (getJob_misses jobId w Hnone).
  - intros job Hfinds Hstatus. rewrite (getJob_finds jobId w job Hfinds).
    destruct (Job.status job); try reflexivity. contradiction.
  - intros Hrefused. rewrite getJob_run. cbv zeta.
    destruct (hd false (answers w)) eqn:Hstore; [now repeat split|].
    destruct (rows_with jobId (table w)) as [|job [|? ?]] eqn:Hrows;
      try (now repeat split).
    assert (Hstatus : Job.status job <> failed)
      by (apply Hrefused; now split).
    destruct (Job.status job); (now repeat split) || contradiction.
Qed.

Lemma refused_retry_changes_nothing_witness :
  (forall job, ~ finds "no-such-job" (at_start Intake.world_ready) job)
  /\ outcome (post_retry env0 "no-such-job" None)
       (at_start Intake.world_ready)
     = Normal (Desk.mkResponse (Some 404) (Desk.Failure "Job not found"))
  /\ table (exec (post_retry env0 "no-such-job" None)
              (at_start Intake.world_ready))
     = [Intake.old_row].
Proof.
  assert (H : forall job,
             ~ finds "no-such-job" (at_start Intake.world_ready) job).
  { intros job [_ Hrows]. discriminate Hrows. }
  pose proof (refused_retry_changes_nothing env0 "no-such-job" None
                (at_start Intake.world_ready)) as (Hmissing & _ & Hsame).
  split; [exact H|]. split; [exact (Hmissing H)|].
  apply Hsame. intros job Hfinds. now destruct (H job).
Defined.

Lemma exec_pushJobToQueue job b :
  publisherClient b = Some true ->
  exec (pushJobToQueue job) b
  = Submit.mkWorld (jobs b) (store_errors b) (store_requests b)
      (publisherClient b) (job :: queue b) (published b)
      (Submit.console b ++ [LogPushed (JobMessage.job_id job)]).
Proof.
  intros H. unfold exec. rewrite IntakeFacts.pushJobToQueue_run.
  now rewrite H.
Qed.

(** X22. The retry of a failed job. When [getJob] finds the job in status
    [failed] and the client of the work list takes the write, the route
    answers [re-queued] with the model of the request when that is in the
    catalogue and the model of the row otherwise; a descriptor with the id,
    the URL of the row and that model is the new head of the work list;
    nothing is published; the one write asked of the store is the update
    to [processing]. The row is the only one that may change: it is
    [processing] when the store took the update and still [failed] when it
    did not; it keeps its URL, its error message of the failure, and its
    model, also when the retry runs with another one. *)
Theorem retry_requeues_failed_job env jobId model_id w job :
  finds jobId w job ->
  Job.status job = failed ->
  publisherClient (base w) = Some true ->
  let w' := exec (post_retry env jobId model_id) w in
  let model := retry_model model_id job in
  outcome (post_retry env jobId model_id) w
  = Normal (Desk.mkResponse None
              (Requeued jobId model processing "Job re-queued for processing"))
  /\ (forall m,
         model_id = Some m -> truthy m = true ->
         Models.isValidModel m = true -> model = m)
  /\ (model_id = None -> model = Job.selected_model job)
  /\ work_list w'
     = JobMessage.mk jobId (Job.repo_url job) model (now env) :: work_list w
  /\ published (base w') = published (base w)
  /\ store_requests (base w')
     = store_requests (base w) ++ [Update jobId processing None None]
  /\ Intake.other_rows jobId (table w') = Intake.other_rows jobId (table w)
  /\ exists row,
       rows_with jobId (table w') = [row]
       /\ Job.repo_url row = Job.repo_url job
       /\ Job.selected_model row = Job.selected_model job
       /\ Job.error_message row = Job.error_message job
       /\ Job.status row
          = (if hd false (tl (answers w)) then failed else processing).
Proof.
  intros Hfinds Hstatus Hclient. cbv zeta. unfold outcome, exec at 1 2 3 4 5.
  rewrite (post_retry_failed_job env jobId model_id w job Hfinds Hstatus).
  cbv zeta. rewrite Hclient. cbn [fst snd base].
  rewrite exec_pushJobToQueue by (now rewrite client_after_update).
  rewrite !exec_updateJobStatus. unfold table, work_list, answers.
  desk_simpl. unfold exec, Desk.store_request. desk_simpl.
  destruct Hfinds as [_ Hrows]. unfold table in Hrows.
  split; [reflexivity|]. split; [|split].
  - intros m -> Hm Hvalid. unfold retry_model. now rewrite Hm, Hvalid.
  - now intros ->.
  - split; [reflexivity|]. split; [reflexivity|]. split; [reflexivity|].
    destruct (hd false (tl (store_errors (base w)))).
    + split; [reflexivity|]. exists job. now rewrite Hrows, Hstatus.
    + split; [apply IntakeFacts.other_rows_updated|].
      exists (updated env processing None None job).
      now rewrite rows_with_updated, Hrows.
Qed.

Lemma retry_requeues_failed_job_witness :
  finds (Job.id Intake.old_row) (at_start Intake.world_ready) Intake.old_row
  /\ Job.status Intake.old_row = failed
  /\ publisherClient (base (at_start Intake.world_ready)) = Some true
  /\ work_list (exec (post_retry env0 (Job.id Intake.old_row)
                        (Some "gpt-4o"))
                  (at_start Intake.world_ready))
     = [JobMessage.mk (Job.id Intake.old_row)
          "https://gitlab.com/group/project.git" "gpt-4o" (now env0)]
  /\ map Job.selected_model
       (table (exec (post_retry env0 (Job.id Intake.old_row) (Some "gpt-4o"))
                 (at_start Intake.world_ready)))
     = ["codellama"].
Proof.
  assert (H1 : finds (Job.id Intake.old_row) (at_start Intake.world_ready)
                 Intake.old_row) by (split; reflexivity).
  assert (H2 : Job.status Intake.old_row = failed) by reflexivity.
  assert (H3 : publisherClient (base (at_start Intake.world_ready))
               = Some true) by reflexivity.
  split; [exact H1|]. split; [exact H2|]. split; [exact H3|].
  split; [|reflexivity].
  exact (proj1 (proj2 (proj2 (proj2
           (retry_requeues_failed_job env0 (Job.id Intake.old_row)
              (Some "gpt-4o") (at_start Intake.world_ready) Intake.old_row
              H1 H2 H3))))).
Defined.

(** X23. A retry that cannot be queued. When [getJob] finds the job in
    status [failed] and the write to the work list raises, the route
    answers 500; the work list and the channels are as they were; the
    writes asked of the store are the update to [processing] and then the
    update to [failed] with the message [Failed to re-queue job]; and when
    the store takes the last one the row is [failed] with this message,
    with the model it had. *)
Theorem failed_requeue_marks_job_failed env jobId model_id w job :
  finds jobId w job ->
  Job.status job = failed ->
  publisherClient (base w) <> Some true ->
  let w' := exec (post_retry env jobId model_id) w in
  outcome (post_retry env jobId model_id) w
  = Normal (Desk.mkResponse (Some 500) (Desk.Failure "Failed to re-queue job"))
  /\ work_list w' = work_list w
  /\ published (base w') = published (base w)
  /\ store_requests (base w')
     = store_requests (base w)
       ++ [ Update jobId processing None None;
            Update jobId failed None (Some "Failed to re-queue job") ]
  /\ Intake.other_rows jobId (table w') = Intake.other_rows jobId (table w)
  /\ (hd false (tl (tl (answers w))) = false ->
      exists row,
        rows_with jobId (table w') = [row]
        /\ Job.status row = failed
        /\ Job.error_message row = Some "Failed to re-queue job"
        /\ Job.selected_model row = Job.selected_model job).
Proof.
  intros Hfinds Hstatus Hclient. cbv zeta. unfold outcome, exec at 1 2 3 4 5.
  rewrite (post_retry_failed_job env jobId model_id w job Hfinds Hstatus).
  cbv zeta. rewrite !exec_updateJobStatus.
  destruct Hfinds as [_ Hrows]. unfold table in Hrows.
  destruct (publisherClient (base w)) as [[|]|]; [congruence| |].
  all: unfold table, work_list, answers; desk_simpl.
  all: unfold exec, Desk.store_request; desk_simpl.
  all: rewrite <- app_assoc; cbn [app truthy].
  all: split; [reflexivity|]; split; [reflexivity|]; split; [reflexivity|].
  all: split; [reflexivity|].
  all: split;
    [destruct (hd false (tl (store_errors (base w))));
     destruct (hd false (tl (tl (store_errors (base w)))));
     rewrite ?IntakeFacts.other_rows_updated; reflexivity|].
  all: intros ->.
  all: destruct (hd false (tl (store_errors (base w))));
    rewrite !rows_with_updated, Hrows; cbn [map];
    eexists; (split; [reflexivity|]); now repeat split.
Qed.

Lemma failed_requeue_marks_job_failed_witness :
  finds (Job.id Intake.old_row) (at_start world_redis_closed_later)
    Intake.old_row
  /\ Job.status Intake.old_row = failed
  /\ publisherClient (base (at_start world_redis_closed_later)) <> Some true
  /\ work_list (exec (post_retry env0 (Job.id Intake.old_row) None)
                  (at_start world_redis_closed_later))
     = [].
Proof.
  assert (H1 : finds (Job.id Intake.old_row)
                 (at_start world_redis_closed_later) Intake.old_row)
    by (split; reflexivity).
  assert (H2 : Job.status Intake.old_row = failed) by reflexivity.
  assert (H3 : publisherClient (base (at_start world_redis_closed_later))
               <> Some true) by discriminate.
  split; [exact H1|]. split; [exact H2|]. split; [exact H3|].
  exact (proj1 (proj2
           (failed_requeue_marks_job_failed env0 (Job.id Intake.old_row) None
              (at_start world_redis_closed_later) Intake.old_row H1 H2 H3))).
Defined.

(** *** Cancelling a job *)

Lemma delete_job_found env jobId w job :
  finds jobId w job ->
  delete_job env jobId w
  = let w1 := exec (Desk.store_request (SelectJob jobId)) w in
    match Job.status job with
    | completed =>
        (Normal (Desk.mkResponse (Some 400)
                   (Desk.Failure "Cannot cancel a completed job")),
         w1)
    | _ =>
        (Normal (Desk.mkResponse None
                   (Cancelled jobId failed "Job cancelled successfully")),
         Desk.mkWorld
           (exec (updateJobStatus env jobId failed None
                    (Some "Job cancelled by user")) (base w1))
           (requests w1) (Desk.console w1))
    end.
Proof.
  intros Hfinds. unfold delete_job, bind at 1.
  rewrite (getJob_finds jobId w job Hfinds). cbv zeta.
  destruct (Job.status job); try reflexivity.
  all: unfold bind; now rewrite lift_updateJobStatus.
Qed.

(** X24. Cancelling. [DELETE /jobs/:jobId] refuses a job that is
    [completed] with 400 and leaves its row alone. Any other job that
    [getJob] finds, one that has failed already as well, is answered
    [cancelled]: the store is asked to set it to [failed] with the message
    [Job cancelled by user], and when it does, the row is [failed] with
    this message in place of an earlier one and with its model; when the
    store refuses, the table is as it was and the answer is the same. In
    every case the other rows, the channels and the work list stay as they
    were: a descriptor that waits on the list is not withdrawn. *)
Theorem cancel_marks_job_failed env jobId w job :
  finds jobId w job ->
  let w' := exec (delete_job env jobId) w in
  (Job.status job = completed ->
   outcome (delete_job env jobId) w
   = Normal (Desk.mkResponse (Some 400)
               (Desk.Failure "Cannot cancel a completed job"))
   /\ table w' = table w
   /\ store_requests (base w') = store_requests (base w))
  /\ (Job.status job <> completed ->
      outcome (delete_job env jobId) w
      = Normal (Desk.mkResponse None
                  (Cancelled jobId failed "Job cancelled successfully"))
      /\ store_requests (base w')
         = store_requests (base w)
           ++ [Update jobId failed None (Some "Job cancelled by user")]
      /\ (hd false (tl (answers w)) = true -> table w' = table w)
      /\ (hd false (tl (answers w)) = false ->
          exists row,
            rows_with jobId (table w') = [row]
            /\ Job.status row = failed
            /\ Job.error_message row = Some "Job cancelled by user"
            /\ Job.selected_model row = Job.selected_model job
            /\ Job.repo_url row = Job.repo_url job))
  /\ Intake.other_rows jobId (table w') = Intake.other_rows jobId (table w)
  /\ work_list w' = work_list w
  /\ published (base w') = published (base w).
Proof.
  intros Hfinds. cbv zeta. unfold outcome, exec at 1 2 3 4 5 6 7 8.
  rewrite (delete_job_found env jobId w job Hfinds). cbv zeta.
  destruct Hfinds as [_ Hrows]. unfold table in Hrows.
  destruct (Job.status job) eqn:Hstatus.
  all: rewrite ?exec_updateJobStatus.
  all: unfold table, work_list, answers; desk_simpl.
  all: unfold exec, Desk.store_request; desk_simpl.
  all: cbn [truthy].
  all: split; [intros Hc; try discriminate Hc; now repeat split|].
  all: split;
    [|destruct (hd false (tl (store_errors (base w))));
      rewrite ?IntakeFacts.other_rows_updated; now repeat split].
  all: intros Hc; try (now destruct Hc).
  all: split; [reflexivity|]; split; [reflexivity|].
  all: split; [now intros ->|]; intros ->.
  all: rewrite rows_with_updated, Hrows; cbn [map].
  all: eexists; (split; [reflexivity|]); now repeat split.
Qed.

Lemma cancel_marks_job_failed_witness :
  finds (Job.id Intake.old_row) (at_start Intake.world_ready) Intake.old_row
  /\ Job.status Intake.old_row <> completed
  /\ outcome (delete_job env0 (Job.id Intake.old_row))
       (at_start Intake.world_ready)
     = Normal (Desk.mkResponse None
                 (Cancelled (Job.id Intake.old_row) failed
                    "Job cancelled successfully")).
Proof.
  assert (H1 : finds (Job.id Intake.old_row) (at_start Intake.world_ready)
                 Intake.old_row) by (split; reflexivity).
  assert (H2 : Job.status Intake.old_row <> completed) by discriminate.
  split; [exact H1|]. split; [exact H2|].
  exact (proj1 (proj1 (proj2
           (cancel_marks_job_failed env0 (Job.id Intake.old_row)
              (at_start Intake.world_ready) Intake.old_row H1)) H2)).
Defined.

(** *** Changing the model of a job *)

Lemma rows_with_model env jobId model_id js :
  rows_with jobId
    (map (fun j => if String.eqb (Job.id j) jobId
                   then with_model env model_id j
                   else j) js)
  = map (with_model env model_id) (rows_with jobId js).
Proof.
  induction js as [|j js IH]; [reflexivity|]. cbn [map rows_with filter].
  destruct (String.eqb (Job.id j) jobId) eqn:E.
  - cbn [with_model Job.id]. rewrite E. cbn [map]. f_equal. exact IH.
  - rewrite E. exact IH.
Qed.

Lemma other_rows_model env jobId model_id js :
  Intake.other_rows jobId
    (map (fun j => if String.eqb (Job.id j) jobId
                   then with_model env model_id j
                   else j) js)
  = Intake.other_rows jobId js.
Proof.
  induction js as [|j js IH]; [reflexivity|].
  cbn [map Intake.other_rows filter].
  destruct (String.eqb (Job.id j) jobId) eqn:E.
  - cbn [with_model Job.id]. rewrite E. exact IH.
  - rewrite E. cbn [negb]. f_equal. exact IH.
Qed.

Lemma patch_job_model_found env jobId model_id w job :
  Models.isValidModel model_id = true ->
  finds jobId w job ->
  patch_job_model env jobId model_id w
  = let w1 := exec (Desk.store_request (SelectJob jobId)) w in
    let w2 := exec (Desk.store_request (UpdateModel jobId model_id)) w1 in
    let refused :=
      (Normal
         (Desk.mkResponse (Some 400)
            (Desk.Failure
               "Cannot change model for a job that is processing or completed")),
       w1) in
    let changed :=
      if hd false (tl (answers w))
      then (Normal (Desk.mkResponse (Some 500)
                      (Desk.Failure "Failed to update model")),
            w2)
      else (Normal (Desk.mkResponse None
                      (ModelUpdated jobId model_id
                         "Model updated successfully")),
            exec (Desk.set_jobs
                    (map (fun j => if String.eqb (Job.id j) jobId
                                   then with_model env model_id j
                                   else j) (table w))) w2) in
    match Job.status job with
    | pending | failed => changed
    | processing | completed => refused
    end.
Proof.
  intros Hvalid Hfinds. unfold patch_job_model. rewrite Hvalid. cbn [negb].
  unfold bind at 1. rewrite (getJob_finds jobId w job Hfinds). cbv zeta.
  destruct (Job.status job); try reflexivity.
  all: unfold bind, Desk.store_request, gets, Desk.set_jobs, modify, ret,
         exec, answers, table; desk_simpl.
  all: destruct (hd false (tl (store_errors (base w)))); reflexivity.
Qed.

(** X25. Changing the model. [PATCH /jobs/:jobId/model] refuses a model
    that is not in the catalogue with 400 before it asks the store
    anything. For a model of the catalogue and a job that [getJob] finds:
    a job that is [processing] or [completed] is refused with 400 and its
    row is left alone; for a job that is [pending] or [failed] the store
    is asked for the change, and when it takes it the row has the new
    model and is otherwise the row of before, status, URL, result and
    error message included, while a refusal of the store gives 500 and an
    unchanged table. The route never writes to the work list or a channel,
    never changes another row, and never asks [updateJobStatus] for
    anything. *)
Theorem model_change_keeps_the_rest env jobId model_id w :
  (Models.isValidModel model_id = false ->
   patch_job_model env jobId model_id w
   = (Normal (Desk.mkResponse (Some 400) (Desk.Failure "Invalid model ID")),
      w))
  /\ (forall job,
         Models.isValidModel model_id = true ->
         finds jobId w job ->
         let w' := exec (patch_job_model env jobId model_id) w in
         let answered := outcome (patch_job_model env jobId model_id) w in
         work_list w' = work_list w
         /\ published (base w') = published (base w)
         /\ store_requests (base w') = store_requests (base w)
         /\ Intake.other_rows jobId (table w')
            = Intake.other_rows jobId (table w)
         /\ match Job.status job with
            | pending | failed =>
                if hd false (tl (answers w))
                then answered
                     = Normal (Desk.mkResponse (Some 500)
                                 (Desk.Failure "Failed to update model"))
                     /\ table w' = table w
                else answered
                     = Normal (Desk.mkResponse None
                                 (ModelUpdated jobId model_id
                                    "Model updated successfully"))
                     /\ exists row,
                          rows_with jobId (table w') = [row]
                          /\ Job.selected_model row = model_id
                          /\ Job.status row = Job.status job
                          /\ Job.repo_url row = Job.repo_url job
                          /\ Job.result row = Job.result job
                          /\ Job.error_message row = Job.error_message job
                          /\ Job.created_at row = Job.created_at job
            | processing | completed =>
                answered
                = Normal
                    (Desk.mkResponse (Some 400)
                       (Desk.Failure
                          "Cannot change model for a job that is processing or completed"))
                /\ table w' = table w
            end).
Proof.
  split.
  - intros Hbad. unfold patch_job_model. now rewrite Hbad.
  - intros job Hvalid Hfinds. cbv zeta. unfold outcome, exec.
    rewrite !(patch_job_model_found env jobId model_id w job Hvalid Hfinds).
    cbv zeta. destruct Hfinds as [_ Hrows]. unfold table in Hrows.
    destruct (Job.status job) eqn:Hstatus.
    all: try destruct (hd false (tl (answers w))) eqn:Hstore.
    all: unfold table, work_list, answers, exec, Desk.store_request,
           Desk.set_jobs, modify; desk_simpl.
    all: rewrite ?other_rows_model.
    all: split; [reflexivity|]; split; [reflexivity|]; split; [reflexivity|].
    all: split; [reflexivity|]; split; [reflexivity|]; try reflexivity.
    all: rewrite rows_with_model, Hrows; cbn [map].
    all: eexists; (split; [reflexivity|]); now repeat split.
Qed.

Lemma model_change_keeps_the_rest_witness :
  Models.isValidModel "gpt-4o" = true
  /\ finds (Job.id Intake.old_row) (at_start Intake.world_ready)
       Intake.old_row
  /\ Models.isValidModel "gpt-5" = false
  /\ exec (patch_job_model env0 (Job.id Intake.old_row) "gpt-5")
       (at_start Intake.world_ready)
     = at_start Intake.world_ready
  /\ work_list (exec (patch_job_model env0 (Job.id Intake.old_row) "gpt-4o")
                  (at_start Intake.world_ready))
     = [].
Proof.
  assert (H1 : Models.isValidModel "gpt-4o" = true) by reflexivity.
  assert (H2 : finds (Job.id Intake.old_row) (at_start Intake.world_ready)
                 Intake.old_row) by (split; reflexivity).
  assert (H3 : Models.isValidModel "gpt-5" = false) by reflexivity.
  split; [exact H1|]. split; [exact H2|]. split; [exact H3|]. split.
  - unfold exec.
    now rewrite (proj1 (model_change_keeps_the_rest env0
                          (Job.id Intake.old_row) "gpt-5"
                          (at_start Intake.world_ready)) H3).
  - exact (proj1 (proj2 (model_change_keeps_the_rest env0
                           (Job.id Intake.old_row) "gpt-4o"
                           (at_start Intake.world_ready))
                    Intake.old_row H1 H2)).
Defined.

(** *** One route after another *)

Lemma exec_store_request r w :
  exec (Desk.store_request r) w
  = Desk.mkWorld
      (Submit.mkWorld (table w) (tl (answers w)) (store_requests (base w))
         (publisherClient (base w)) (work_list w) (published (base w))
         (Submit.console (base w)))
      (requests w ++ [r]) (Desk.console w).
Proof.
  reflexivity.
Qed.

(** What a retry that is queued answers and puts on the list. *)
Lemma post_retry_queued env jobId model_id w job :
  finds jobId w job ->
  Job.status job = failed ->
  publisherClient (base w) = Some true ->
  outcome (post_retry env jobId model_id) w
  = Normal (Desk.mkResponse None
              (Requeued jobId (retry_model model_id job) processing
                 "Job re-queued for processing"))
  /\ work_list (exec (post_retry env jobId model_id) w)
     = JobMessage.mk jobId (Job.repo_url job) (retry_model model_id job)
         (now env) :: work_list w.
Proof.
  intros Hfinds Hstatus Hclient. unfold outcome, exec at 1.
  rewrite (post_retry_failed_job env jobId model_id w job Hfinds Hstatus).
  cbv zeta. rewrite Hclient. cbn [fst snd].
  split; [reflexivity|]. unfold work_list. cbn [base].
  rewrite exec_pushJobToQueue by (now rewrite client_after_update).
  now rewrite exec_updateJobStatus.
Qed.

(** X26. A job that was cancelled can be retried. After a cancellation
    that the store has taken, of a job that was not completed, a retry for
    the same id finds the job in status [failed] and queues it again: it
    answers [re-queued] and puts a descriptor with the URL of the job, and
    with the model of the request when that is in the catalogue and the
    model of the job otherwise, at the head of the work list. *)
Theorem cancelled_job_can_be_retried env jobId model_id w job :
  finds jobId w job ->
  Job.status job <> completed ->
  hd false (tl (answers w)) = false ->
  hd false (tl (tl (answers w))) = false ->
  publisherClient (base w) = Some true ->
  let w1 := exec (delete_job env jobId) w in
  outcome (post_retry env jobId model_id) w1
  = Normal (Desk.mkResponse None
              (Requeued jobId (retry_model model_id job) processing
                 "Job re-queued for processing"))
  /\ work_list (exec (post_retry env jobId model_id) w1)
     = JobMessage.mk jobId (Job.repo_url job) (retry_model model_id job)
         (now env) :: work_list w.
Proof.
  intros Hfinds Hstatus Hcancel Hselect Hclient. cbv zeta.
  set (job' := updated env failed None (Some "Job cancelled by user") job).
  assert (Hw1 :
    exec (delete_job env jobId) w
    = Desk.mkWorld
        (exec (updateJobStatus env jobId failed None
                 (Some "Job cancelled by user"))
           (base (exec (Desk.store_request (SelectJob jobId)) w)))
        (requests w ++ [SelectJob jobId]) (Desk.console w)).
  { unfold exec at 1. rewrite (delete_job_found env jobId w job Hfinds).
    cbv zeta. destruct (Job.status job); try reflexivity. contradiction. }
  rewrite Hw1. rewrite exec_store_request, exec_updateJobStatus.
  desk_simpl. rewrite Hcancel.
  destruct Hfinds as [_ Hrows].
  match goal with
  | |- context [outcome _ ?w1] =>
      assert (Hfinds' : finds jobId w1 job')
  end.
  { split; [exact Hselect|]. unfold table in *. desk_simpl.
    now rewrite rows_with_updated, Hrows. }
  match goal with
  | |- context [outcome _ ?w1] =>
      pose proof (post_retry_queued env jobId model_id w1 job' Hfinds'
                    eq_refl Hclient) as [Hanswer Hlist]
  end.
  split; [exact Hanswer | exact Hlist].
Qed.

Lemma cancelled_job_can_be_retried_witness :
  finds "j-1" (at_start world_one_pending) pending_row
  /\ Job.status pending_row <> completed
  /\ publisherClient (base (at_start world_one_pending)) = Some true
  /\ work_list (exec (post_retry env0 "j-1" None)
                  (exec (delete_job env0 "j-1")
                     (at_start world_one_pending)))
     = [ JobMessage.mk "j-1" "https://github.com/a/b" "gpt-4o" (now env0);
         JobMessage.mk "j-1" "https://github.com/a/b" "gpt-4o"
           "2025-01-01T00:00:00.000Z" ].
Proof.
  assert (H1 : finds "j-1" (at_start world_one_pending) pending_row)
    by (split; reflexivity).
  assert (H2 : Job.status pending_row <> completed) by discriminate.
  assert (H3 : publisherClient (base (at_start world_one_pending))
               = Some true) by reflexivity.
  split; [exact H1|]. split; [exact H2|]. split; [exact H3|].
  exact (proj2 (cancelled_job_can_be_retried env0 "j-1" None
                  (at_start world_one_pending) pending_row H1 H2
                  eq_refl eq_refl H3)).
Defined.

(** X27. A retry runs with the model the job was changed to. After a
    change of model that the store has taken, of a job in status [failed],
    a retry without a model of its own answers [re-queued] with the new
    model and puts a descriptor with it at the head of the work list; the
    row of the job has the same model. *)
Theorem retry_runs_with_changed_model env jobId model_id w job :
  Models.isValidModel model_id = true ->
  finds jobId w job ->
  Job.status job = failed ->
  hd false (tl (answers w)) = false ->
  hd false (tl (tl (answers w))) = false ->
  publisherClient (base w) = Some true ->
  let w1 := exec (patch_job_model env jobId model_id) w in
  let w2 := exec (post_retry env jobId None) w1 in
  outcome (post_retry env jobId None) w1
  = Normal (Desk.mkResponse None
              (Requeued jobId model_id processing
                 "Job re-queued for processing"))
  /\ work_list w2
     = JobMessage.mk jobId (Job.repo_url job) model_id (now env)
       :: work_list w
  /\ map Job.selected_model (rows_with jobId (table w2)) = [model_id].
Proof.
  intros Hvalid Hfinds Hstatus Hchange Hselect Hclient. cbv zeta.
  set (job' := with_model env model_id job).
  assert (Hw1 :
    exec (patch_job_model env jobId model_id) w
    = exec (Desk.set_jobs
              (map (fun j => if String.eqb (Job.id j) jobId
                             then with_model env model_id j
                             else j) (table w)))
        (exec (Desk.store_request (UpdateModel jobId model_id))
           (exec (Desk.store_request (SelectJob jobId)) w))).
  { unfold exec at 1.
    rewrite (patch_job_model_found env jobId model_id w job Hvalid Hfinds).
    cbv zeta. now rewrite Hstatus, Hchange. }
  destruct Hfinds as [_ Hrows].
  assert (Hfinds' :
    finds jobId (exec (patch_job_model env jobId model_id) w) job').
  { rewrite Hw1. split; [exact Hselect|].
    unfold exec, Desk.set_jobs, Desk.store_request, modify, table.
    desk_simpl. fold (table w). now rewrite rows_with_model, Hrows. }
  assert (Hclient' :
    publisherClient (base (exec (patch_job_model env jobId model_id) w))
    = Some true) by (now rewrite Hw1).
  assert (Hjob' : Job.status job' = failed) by exact Hstatus.
  destruct (post_retry_queued env jobId None _ job' Hfinds' Hjob' Hclient')
    as [Hanswer Hlist].
  split; [exact Hanswer|]. split.
  - rewrite Hlist. now rewrite Hw1.
  - unfold exec at 1.
    rewrite (post_retry_failed_job env jobId None _ job' Hfinds' Hjob').
    cbv zeta. rewrite Hclient'. cbn [snd]. unfold table at 1. cbn [base].
    rewrite exec_pushJobToQueue by (now rewrite client_after_update).
    rewrite exec_updateJobStatus, exec_store_request. desk_simpl.
    destruct Hfinds' as [_ Hrows'].
    match goal with
    | |- context [if ?b then _ else _] => destruct b
    end.
    + now rewrite Hrows'.
    + now rewrite rows_with_updated, Hrows'.
Qed.

Lemma retry_runs_with_changed_model_witness :
  Models.isValidModel "gpt-4o" = true
  /\ finds (Job.id Intake.old_row) (at_start Intake.world_ready)
       Intake.old_row
  /\ Job.status Intake.old_row = failed
  /\ publisherClient (base (at_start Intake.world_ready)) = Some true
  /\ work_list
       (exec (post_retry env0 (Job.id Intake.old_row) None)
          (exec (patch_job_model env0 (Job.id Intake.old_row) "gpt-4o")
             (at_start Intake.world_ready)))
     = [JobMessage.mk (Job.id Intake.old_row)
          "https://gitlab.com/group/project.git" "gpt-4o" (now env0)].
Proof.
  assert (H1 : Models.isValidModel "gpt-4o" = true) by reflexivity.
  assert (H2 : finds (Job.id Intake.old_row) (at_start Intake.world_ready)
                 Intake.old_row) by (split; reflexivity).
  assert (H3 : Job.status Intake.old_row = failed) by reflexivity.
  assert (H4 : publisherClient (base (at_start Intake.world_ready))
               = Some true) by reflexivity.
  split; [exact H1|]. split; [exact H2|]. split; [exact H3|].
  split; [exact H4|].
  exact (proj1 (proj2 (retry_runs_with_changed_model env0
                         (Job.id Intake.old_row) "gpt-4o"
                         (at_start Intake.world_ready) Intake.old_row
                         H1 H2 H3 eq_refl eq_refl H4))).
Defined.

End DeskFacts.

(** ** The catalogue of models *)

Module CatalogueFacts.

Import Models Catalogue.

Lemma find_by_id modelId (ms : list LLMModel) :
  existsb (fun m => String.eqb (id m) modelId) ms = true
  <-> exists m, find (fun m => String.eqb (id m) modelId) ms = Some m.
Proof.
  induction ms as [|m ms IH]; cbn [existsb find].
  - split; [discriminate | intros [m H]; discriminate].
  - destruct (String.eqb (id m) modelId); cbn [orb]; [|exact IH].
    split; [eauto | reflexivity].
Qed.

Lemma find_unique_id (ms : list LLMModel) m :
  NoDup (map id ms) -> In m ms ->
  find (fun m' => String.eqb (id m') (id m)) ms = Some m.
Proof.
  induction ms as [|m0 ms IH]; [intros _ []|]. cbn [map find].
  intros Hnd [->|Hin]; [now rewrite String.eqb_refl|].
  inversion Hnd as [|? ? Hnot Hnd']; subst.
  destruct (String.eqb_spec (id m0) (id m)) as [Heq|_]; [|now apply IH].
  exfalso. apply Hnot. rewrite Heq. now apply in_map.
Qed.

Lemma split_by_locality (ms : list LLMModel) :
  List.length (filter (fun m => isLocal m) ms)
  + List.length (filter (fun m => negb (isLocal m)) ms)
  = List.length ms.
Proof.
  induction ms as [|m ms IH]; [reflexivity|]. cbn [filter].
  destruct (isLocal m); cbn [negb List.length]; lia.
Qed.

Lemma split_by_provider (ms : list LLMModel) :
  List.length (filter (fun m => Provider_eqb (provider m) openai) ms)
  + List.length (filter (fun m => Provider_eqb (provider m) anthropic) ms)
  + List.length (filter (fun m => Provider_eqb (provider m) google) ms)
  + List.length (filter (fun m => Provider_eqb (provider m) ollama) ms)
  = List.length ms.
Proof.
  induction ms as [|m ms IH]; [reflexivity|]. cbn [filter].
  destruct (provider m); cbn [Provider_eqb List.length]; lia.
Qed.

(** X28. The catalogue and its lookups. No two models have the same id,
    so [getModelById] returns, for the id of a model of the catalogue,
    that model; it returns a model exactly for the ids that [isValidModel]
    accepts, and the model has the id asked for. The default model is in
    the catalogue, so [getDefaultModel] never comes back undefined, and it
    is a cloud model. Every model is in one of the four groups of
    [/models/grouped] and in one of [/models/local] and [/models/cloud],
    so the sizes of the groups add up to the size of the catalogue. The
    local models are those of Ollama: each cloud model has a provider
    whose API key [/models/:modelId/status] looks at. *)
Theorem catalogue_lookups_agree :
  NoDup (map id AVAILABLE_MODELS)
  /\ (forall m, In m AVAILABLE_MODELS -> getModelById (id m) = Some m)
  /\ (forall modelId,
         isValidModel modelId = true
         <-> exists m, getModelById modelId = Some m)
  /\ (forall modelId m,
         getModelById modelId = Some m ->
         id m = modelId /\ In m AVAILABLE_MODELS)
  /\ (exists m, getDefaultModel = Some m
                /\ getModelById "gpt-4o-mini" = Some m
                /\ In m getCloudModels)
  /\ List.length (getModelsByProvider openai)
     + List.length (getModelsByProvider anthropic)
     + List.length (getModelsByProvider google)
     + List.length (getModelsByProvider ollama)
     = List.length AVAILABLE_MODELS
  /\ List.length getLocalModels + List.length getCloudModels
     = List.length AVAILABLE_MODELS
  /\ getLocalModels = getModelsByProvider ollama
  /\ (forall m, In m getCloudModels -> has_api_key (provider m) = true).
Proof.
  assert (Hnd : NoDup (map id AVAILABLE_MODELS)).
  { apply (NoDup_count_occ' string_dec). intros x Hin.
    repeat (destruct Hin as [<-|Hin]; [reflexivity|]). destruct Hin. }
  split; [exact Hnd|]. split; [|split; [|split; [|split]]].
  - intros m Hin. now apply find_unique_id.
  - intros modelId. apply find_by_id.
  - intros modelId m Hfind. unfold getModelById in Hfind.
    apply find_some in Hfind. destruct Hfind as [Hin Heq].
    apply String.eqb_eq in Heq. now split.
  - eexists. split; [reflexivity|]. split; [reflexivity|].
    cbn. tauto.
  - split; [apply split_by_provider|]. split; [apply split_by_locality|].
    split; [reflexivity|].
    intros m Hin. apply filter_In in Hin. destruct Hin as [Hin Hcloud].
    repeat (destruct Hin as [<-|Hin]; [reflexivity || discriminate|]).
    destruct Hin.
Qed.

Lemma catalogue_lookups_agree_witness :
  isValidModel "codellama" = true
  /\ exists m, getModelById "codellama" = Some m /\ isLocal m = true.
Proof.
  assert (H : isValidModel "codellama" = true) by reflexivity.
  split; [exact H|].
  destruct catalogue_lookups_agree as (_ & _ & Hvalid & Hid & _).
  destruct (proj1 (Hvalid "codellama") H) as [m Hm].
  exists m. split; [exact Hm|].
  destruct (Hid "codellama" m Hm) as [Heq Hin].
  repeat (destruct Hin as [<-|Hin]; [reflexivity || discriminate Heq|]).
  destruct Hin.
Defined.

End CatalogueFacts.

(** ** One Set object for each job *)

Module SharedSetFacts.

Import Live LiveFacts.

Lemma reachable_three_watchers : reachable three_watchers.
Proof.
  unfold three_watchers. apply reachable_reentries.
  repeat apply reachable_subscribe. apply reachable_initial.
Qed.

(** X29. Each watched job has a Set object of its own. In every state the
    module reaches, through subscriptions, removals, events of the bus and
    handlers that run inside a send, no two job ids of the Map point to
    the same Set object, so taking a socket out of the Set of one job
    cannot take it out of another; the Set of a job was made before the
    next one to be made, is not empty and holds no socket twice; and a job
    id is a key of the Map exactly when it has an observer. *)
Theorem jobs_never_share_a_set s :
  reachable s ->
  (forall j1 j2 a,
      JSMap.get j1 (jobSubscriptions s) = Some a ->
      JSMap.get j2 (jobSubscriptions s) = Some a ->
      j1 = j2)
  /\ (forall j a,
         JSMap.get j (jobSubscriptions s) = Some a ->
         a < next s
         /\ NoDup (members (heap s a))
         /\ members (heap s a) <> [])
  /\ (forall j, NoDup (observers j s))
  /\ (forall j,
         JSMap.has j (jobSubscriptions s) = true <-> observers j s <> []).
Proof.
  intros Hr. destruct (reachable_ok s Hr) as (Hkeys & Haddrs & Hall).
  rewrite Forall_forall in Hall.
  assert (Hset : forall j a,
             JSMap.get j (jobSubscriptions s) = Some a ->
             a < next s
             /\ NoDup (members (heap s a))
             /\ members (heap s a) <> []).
  { intros j a Hget. apply JSMapFacts.get_Some_In in Hget.
    exact (Hall (j, a) Hget). }
  split; [|split; [exact Hset|split]].
  - intros j1 j2 a H1 H2.
    apply JSMapFacts.get_Some_In in H1, H2.
    pose proof (one_key_per_address (jobSubscriptions s) (j1, a) (j2, a)
                  Haddrs H1 H2 eq_refl) as Heq.
    congruence.
  - intros j. unfold observers.
    destruct (JSMap.get j (jobSubscriptions s)) as [a|] eqn:E;
      [|constructor].
    exact (proj1 (proj2 (Hset j a E))).
  - intros j. unfold observers, JSMap.has.
    destruct (JSMap.get j (jobSubscriptions s)) as [a|] eqn:E.
    + split; [|reflexivity]. intros _. exact (proj2 (proj2 (Hset j a E))).
    + split; [discriminate|]. intros H. now destruct H.
Qed.

Lemma jobs_never_share_a_set_witness :
  reachable three_watchers
  /\ NoDup (observers "J1" three_watchers)
  /\ observers "J1" three_watchers = [5; 7; 9].
Proof.
  split; [exact reachable_three_watchers|]. split; [|reflexivity].
  exact (proj1 (proj2 (proj2
           (jobs_never_share_a_set three_watchers reachable_three_watchers)))
           "J1").
Defined.

End SharedSetFacts.
